(** * android-devkit: the ADB command layer and the logcat engine

    A shallow embedding of the TypeScript sources

      - packages/adb/src/client.ts     (AdbClient.exec)
      - packages/adb/src/devices.ts    (parseDeviceLine, getDevices, getprop helpers)
      - packages/adb/src/logcat.ts     (parseLogcatLine, LogcatStream)
      - extension/src/services/adb.ts  (AdbService.getDevices)
      - extension/src/views/logcat.ts  (LogcatTreeProvider.addEntry)

    followed by the properties of the specification that were checked
    against them.

    Conventions of the embedding.

    - A JavaScript string is a [list ascii]: the sequence of its code
      units, restricted to the range 0..255 (the Latin-1 block of
      UTF-16).  Character classes, [trim] and [toLowerCase] are the
      ECMAScript ones cut down to that range.
    - A [Buffer] is its list of bytes, and [Buffer.toString] the UTF-8
      decoder, which gives code units of the whole range; a decoded
      text enters the rest of the development when it lies in the
      range above.
    - A JavaScript number is a [jsnum]: an integer or NaN.  Integers are
      unbounded here; the source's doubles agree with them below 2^53.
    - Regular expressions are kept as data and run by a small
      backtracking matcher with the priorities of the ECMAScript one
      (greedy and lazy quantifiers over character classes, capture
      groups, anchors).
    - Callbacks of the event loop are steps of a state machine; each
      handler runs to completion before the next event is delivered. *)

From Stdlib Require Import Ascii String List ZArith NArith Bool Arith Lia.
From Stdlib Require Import DecimalString.
From Stdlib.Strings Require Byte.
Import ListNotations.

Set Implicit Arguments.

(* ================================================================== *)
(** * Part I.  The embedding                                            *)
(* ================================================================== *)

(** ** JavaScript strings and numbers *)

Module JS.

Definition jsstring := list ascii.

(** String literals of the source are written [str "..."]. *)
Definition str (s : string) : jsstring := list_ascii_of_string s.
Arguments str s : simpl never.

Inductive jsnum :=
| NaN
| Num (z : Z).

Definition code (c : ascii) : nat := nat_of_ascii c.

(** [\d] *)
Definition is_digit (c : ascii) : bool :=
  (48 <=? code c) && (code c <=? 57).

(** [\s], which is also what [trim] strips and what [parseInt] skips:
    TAB, LF, VT, FF, CR, SPACE and NBSP are the members below U+0100. *)
Definition is_space (c : ascii) : bool :=
  ((9 <=? code c) && (code c <=? 13)) || (code c =? 32) || (code c =? 160).

(** [.] without the [s] flag: anything but a line terminator. *)
Definition is_dot (c : ascii) : bool :=
  negb ((code c =? 10) || (code c =? 13)).

Definition is_char (x : ascii) (c : ascii) : bool := Ascii.eqb c x.

Definition is_not_char (x : ascii) (c : ascii) : bool := negb (Ascii.eqb c x).

Definition eqb (a b : jsstring) : bool :=
  if list_eq_dec ascii_dec a b then true else false.

(** Truthiness of a string: [if (s)] holds for the non-empty ones. *)
Definition truthy (s : jsstring) : bool :=
  match s with [] => false | _ :: _ => true end.

Fixpoint dropWhile (p : ascii -> bool) (s : jsstring) : jsstring :=
  match s with
  | [] => []
  | c :: s' => if p c then dropWhile p s' else s
  end.

Fixpoint takeWhile (p : ascii -> bool) (s : jsstring) : jsstring :=
  match s with
  | [] => []
  | c :: s' => if p c then c :: takeWhile p s' else []
  end.

Definition trimStart (s : jsstring) : jsstring := dropWhile is_space s.

Definition trimEnd (s : jsstring) : jsstring := rev (dropWhile is_space (rev s)).

(** [String.prototype.trim] *)
Definition trim (s : jsstring) : jsstring := trimEnd (trimStart s).

(** [String.prototype.startsWith] *)
Fixpoint startsWith (s prefix : jsstring) : bool :=
  match prefix, s with
  | [], _ => true
  | _ :: _, [] => false
  | x :: prefix', c :: s' => Ascii.eqb c x && startsWith s' prefix'
  end.

(** [String.prototype.includes] *)
Fixpoint includes (s sub : jsstring) : bool :=
  startsWith s sub ||
  match s with
  | [] => false
  | _ :: s' => includes s' sub
  end.

(** [String.prototype.toLowerCase] on one code unit: A-Z and the
    Latin-1 capitals U+00C0..U+00DE (the multiplication sign U+00D7
    apart) move up by 32. *)
Definition lower_char (c : ascii) : ascii :=
  let n := code c in
  if ((65 <=? n) && (n <=? 90)) ||
     ((192 <=? n) && (n <=? 222) && negb (n =? 215))
  then ascii_of_nat (n + 32)
  else c.

Definition toLowerCase (s : jsstring) : jsstring := map lower_char s.

(** [String.prototype.split] with a separator of one character, the only
    kind the sources use (a newline, a colon).  The result is never
    empty: a string without the separator comes back whole. *)
Fixpoint split (sep : ascii) (s : jsstring) : list jsstring :=
  match s with
  | [] => [[]]
  | c :: s' =>
      if Ascii.eqb c sep then [] :: split sep s'
      else match split sep s' with
           | [] => [[c]]
           | h :: t => (c :: h) :: t
           end
  end.

(** [String.prototype.split(/\s+/)]: cut at every maximal run of white
    space.  A leading or trailing run leaves an empty first or last
    piece, and the empty string yields one empty piece. *)
Fixpoint split_spaces (s : jsstring) : list jsstring :=
  match s with
  | [] => [[]]
  | c :: s' =>
      if is_space c then
        match s' with
        | c' :: _ => if is_space c' then split_spaces s' else [] :: split_spaces s'
        | [] => [] :: split_spaces s'
        end
      else match split_spaces s' with
           | [] => [[c]]
           | h :: t => (c :: h) :: t
           end
  end.

Definition digit_val (c : ascii) : Z := Z.of_nat (code c) - 48.

(** Value of a run of decimal digits, most significant first. *)
Definition decimal (ds : jsstring) : Z :=
  fold_left (fun acc c => (10 * acc + digit_val c)%Z) ds 0%Z.

(** [parseInt(s, 10)]: skip leading white space, read an optional sign,
    then the longest run of digits; NaN when that run is empty. *)
Definition parseInt (s : jsstring) : jsnum :=
  let s1 := trimStart s in
  let '(neg, s2) :=
    match s1 with
    | "-"%char :: r => (true, r)
    | "+"%char :: r => (false, r)
    | _ => (false, s1)
    end in
  match takeWhile is_digit s2 with
  | [] => NaN
  | ds => Num (if neg then - decimal ds else decimal ds)
  end.

(** [Number.prototype.toString] of a non-negative integer, as a template
    literal interpolates it. *)
Definition showN (n : N) : jsstring :=
  str (NilZero.string_of_uint (N.to_uint n)).

End JS.

(** ** Buffers *)

Module Buffer.
Import JS.

(** A chunk of bytes as a stream delivers it. *)
Definition t := list Byte.byte.

(** The decoder between two bytes: the code point under construction,
    the continuation bytes it still needs, and the range the next byte
    has to lie in. *)
Record decoder := {
  code_point : N;
  needed : nat;
  lower : N;
  upper : N
}.

Definition idle : decoder :=
  {| code_point := 0; needed := 0; lower := 128; upper := 191 |}.

(** U+FFFD, which stands for every byte sequence that is not UTF-8. *)
Definition replacement : N := 65533.

(** A byte met while no character is under way: 00..7F is a character,
    C2..DF, E0..EF and F0..F4 open a sequence of two, three and four
    bytes, anything else is replaced. *)
Definition lead (b : N) : list N * decoder :=
  if (b <=? 127)%N then ([b], idle)
  else if (194 <=? b)%N && (b <=? 223)%N then
    ([], {| code_point := N.land b 31; needed := 1; lower := 128; upper := 191 |})
  else if (224 <=? b)%N && (b <=? 239)%N then
    ([], {| code_point := N.land b 15; needed := 2;
            lower := if (b =? 224)%N then 160 else 128;
            upper := if (b =? 237)%N then 159 else 191 |})
  else if (240 <=? b)%N && (b <=? 244)%N then
    ([], {| code_point := N.land b 7; needed := 3;
            lower := if (b =? 240)%N then 144 else 128;
            upper := if (b =? 244)%N then 143 else 191 |})
  else ([replacement], idle).

(** One byte.  A byte outside the expected range ends the sequence under
    way with a replacement character and is then read afresh. *)
Definition step (st : decoder) (b : N) : list N * decoder :=
  match needed st with
  | 0 => lead b
  | Datatypes.S n =>
      if (lower st <=? b)%N && (b <=? upper st)%N then
        let cp := N.lor (N.shiftl (code_point st) 6) (N.land b 63) in
        match n with
        | 0 => ([cp], idle)
        | Datatypes.S _ =>
            ([], {| code_point := cp; needed := n; lower := 128; upper := 191 |})
        end
      else
        let '(out, st') := lead b in (replacement :: out, st')
  end.

(** The code points of a byte sequence; a sequence cut short by the end
    of the input is replaced as well. *)
Fixpoint decode (st : decoder) (bytes : list N) : list N :=
  match bytes with
  | [] => match needed st with 0 => [] | Datatypes.S _ => [replacement] end
  | b :: bytes' => let '(out, st') := step st b in out ++ decode st' bytes'
  end.

(** The code units of a code point: itself, or a surrogate pair. *)
Definition units (cp : N) : list N :=
  if (cp <=? 65535)%N then [cp]
  else [(55296 + (cp - 65536) / 1024)%N; (56320 + (cp - 65536) mod 1024)%N].

(** [buf.toString()]: the code units of the UTF-8 text of the buffer. *)
Definition toString (data : t) : list N :=
  flat_map units (decode idle (map Byte.to_N data)).

(** A text as a string of the development, when every code unit of it
    is below 256. *)
Fixpoint latin1 (text : list N) : option jsstring :=
  match text with
  | [] => Some []
  | u :: text' =>
      if (u <? 256)%N then
        match latin1 text' with
        | Some s => Some (ascii_of_N u :: s)
        | None => None
        end
      else None
  end.

End Buffer.

(** ** Regular expressions *)

Module Regex.
Import JS.

(** Quantifiers on a character class: [{n}], the greedy [+] and [*]
    ([Greedy 1], [Greedy 0]) and the lazy [+?] and [*?]. *)
Inductive quant :=
| Exactly (n : nat)
| Greedy (min : nat)
| Lazy (min : nat).

(** A pattern is a sequence of items: [^], [$], the parentheses of a
    capture group, and a quantified character class.  The patterns of
    the sources have no alternation and no nested groups. *)
Inductive item :=
| Bos
| Eos
| Open
| Close
| Cls (p : ascii -> bool) (q : quant).

(** State of one match attempt: the index reached in the subject, the
    groups closed so far (in order) and the text of the open group. *)
Record mstate := MState {
  pos : nat;
  caps : list jsstring;
  cur : option jsstring
}.

Definition init (start : nat) : mstate := MState start [] None.

Definition open (st : mstate) : mstate :=
  MState (pos st) (caps st) (Some []).

Definition close (st : mstate) : mstate :=
  match cur st with
  | Some g => MState (pos st) (caps st ++ [g]) None
  | None => st
  end.

Definition consume (st : mstate) (taken : jsstring) : mstate :=
  MState (pos st + length taken) (caps st)
         (option_map (fun g => g ++ taken) (cur st)).

Section Repetition.
Variable R : Type.
Variable p : ascii -> bool.
(** The continuation receives what the class consumed and what is left. *)
Variable k : jsstring -> jsstring -> option R.

Fixpoint rep_exact (n : nat) (taken s : jsstring) : option R :=
  match n with
  | 0 => k taken s
  | S n' =>
      match s with
      | c :: s' => if p c then rep_exact n' (taken ++ [c]) s' else None
      | [] => None
      end
  end.

(** Greedy: take one more character first, fall back to stopping here. *)
Fixpoint rep_greedy (min : nat) (taken s : jsstring) : option R :=
  let here := match min with 0 => k taken s | S _ => None end in
  match s with
  | c :: s' =>
      if p c then
        match rep_greedy (pred min) (taken ++ [c]) s' with
        | Some r => Some r
        | None => here
        end
      else here
  | [] => here
  end.

(** Lazy: stop here first, take one more character only on failure. *)
Fixpoint rep_lazy (min : nat) (taken s : jsstring) : option R :=
  match (match min with 0 => k taken s | S _ => None end) with
  | Some r => Some r
  | None =>
      match s with
      | c :: s' => if p c then rep_lazy (pred min) (taken ++ [c]) s' else None
      | [] => None
      end
  end.

Definition rep (q : quant) (s : jsstring) : option R :=
  match q with
  | Exactly n => rep_exact n [] s
  | Greedy min => rep_greedy min [] s
  | Lazy min => rep_lazy min [] s
  end.
End Repetition.

(** One attempt at the current index: the final state and the rest of
    the subject, or [None] when every alternative has been tried. *)
Fixpoint exec (r : list item) (st : mstate) (s : jsstring)
  : option (mstate * jsstring) :=
  match r with
  | [] => Some (st, s)
  | Bos :: r' => match pos st with 0 => exec r' st s | S _ => None end
  | Eos :: r' => match s with [] => exec r' st s | _ :: _ => None end
  | Open :: r' => exec r' (open st) s
  | Close :: r' => exec r' (close st) s
  | Cls p q :: r' =>
      rep p (fun taken rest => exec r' (consume st taken) rest) q s
  end.

(** The leftmost match from index [start] onwards: capture groups and
    the rest of the subject after the match. *)
Fixpoint search (r : list item) (start : nat) (s : jsstring)
  : option (list jsstring * jsstring) :=
  match exec r (init start) s with
  | Some (st, rest) => Some (caps st, rest)
  | None =>
      match s with
      | [] => None
      | _ :: s' => search r (S start) s'
      end
  end.

(** [String.prototype.match] with a pattern that has no [g] flag: the
    capture groups of the leftmost match, or [None] for null. *)
Definition match_ (r : list item) (s : jsstring) : option (list jsstring) :=
  option_map fst (search r 0 s).

End Regex.

(** ** packages/adb/src/types.ts *)

Module Types.
Import JS.

Inductive LogLevel := V | D | I | W | E | F | S.

Record LogcatEntry := {
  (** the date-time string handed to [new Date] *)
  timestamp : jsstring;
  pid : jsnum;
  tid : jsnum;
  level : LogLevel;
  tag : jsstring;
  message : jsstring
}.

(** [state] is typed [DeviceState] in the source but is assigned by a
    cast from the text of the listing, so it is a string here. *)
Record Device := {
  serial : jsstring;
  state : jsstring;
  model : option jsstring;
  product : option jsstring;
  device : option jsstring;
  transportId : option jsstring;
  isEmulator : bool
}.

Record AdbResult := {
  exitCode : Z;
  stdout : jsstring;
  stderr : jsstring
}.

Definition level_char (l : LogLevel) : ascii :=
  match l with
  | V => "V" | D => "D" | I => "I" | W => "W" | E => "E" | F => "F" | S => "S"
  end%char.

Definition level_of_char (c : ascii) : option LogLevel :=
  match c with
  | "V" => Some V | "D" => Some D | "I" => Some I | "W" => Some W
  | "E" => Some E | "F" => Some F | "S" => Some S | _ => None
  end%char.

Definition level_eqb (a b : LogLevel) : bool :=
  Ascii.eqb (level_char a) (level_char b).

End Types.

(** ** packages/adb/src/logcat.ts *)

Module Logcat.
Import JS Regex Types.

(** [LOG_LEVEL_PRIORITY] *)
Definition LOG_LEVEL_PRIORITY (l : LogLevel) : Z :=
  match l with
  | V => 0 | D => 1 | I => 2 | W => 3 | E => 4 | F => 5 | S => 6
  end.

Definition is_level (c : ascii) : bool :=
  match level_of_char c with Some _ => true | None => false end.

(** The pattern of [parseLogcatLine]:

      ^ (\d{2}-\d{2}) \s+ (\d{2}:\d{2}:\d{2}\.\d{3}) \s+ (\d+) \s+ (\d+)
        \s+ ([VDIWEFS]) \s+ ([^:]+?) \s* : \s* ( .* ) $

    (written with blanks between its pieces),
    cut in three for the proofs: up to the level letter, the tag up to
    its colon, and the message. *)
Definition regex_head : list item :=
  [ Bos;
    Open; Cls is_digit (Exactly 2); Cls (is_char "-") (Exactly 1);
          Cls is_digit (Exactly 2); Close;
    Cls is_space (Greedy 1);
    Open; Cls is_digit (Exactly 2); Cls (is_char ":") (Exactly 1);
          Cls is_digit (Exactly 2); Cls (is_char ":") (Exactly 1);
          Cls is_digit (Exactly 2); Cls (is_char ".") (Exactly 1);
          Cls is_digit (Exactly 3); Close;
    Cls is_space (Greedy 1);
    Open; Cls is_digit (Greedy 1); Close;
    Cls is_space (Greedy 1);
    Open; Cls is_digit (Greedy 1); Close;
    Cls is_space (Greedy 1);
    Open; Cls is_level (Exactly 1); Close ].

Definition regex_tag : list item :=
  [ Cls is_space (Greedy 1);
    Open; Cls (is_not_char ":") (Lazy 1); Close;
    Cls is_space (Greedy 0);
    Cls (is_char ":") (Exactly 1) ].

Definition regex_message : list item :=
  [ Cls is_space (Greedy 0);
    Open; Cls is_dot (Greedy 0); Close;
    Eos ].

Definition regex : list item := regex_head ++ regex_tag ++ regex_message.

(** [parseLogcatLine]; [currentYear] stands for
    [new Date().getFullYear()].  The cast [level as LogLevel] is a
    conversion of the one captured character, which the pattern has
    restricted to the seven level letters. *)
Definition parseLogcatLine (currentYear : N) (line : jsstring)
  : option LogcatEntry :=
  match match_ regex line with
  | Some [date; time; pid; tid; [level]; tag; message] =>
      match level_of_char level with
      | Some level =>
          Some {| timestamp := showN currentYear ++ str "-" ++ date ++ str "T" ++ time;
                  pid := parseInt pid;
                  tid := parseInt tid;
                  level := level;
                  tag := trim tag;
                  message := message |}
      | None => None
      end
  | _ => None
  end.

(** The process handle: what was spawned. *)
Record ChildProcess := {
  command : jsstring;
  argv : list jsstring
}.

Record LogcatOptions := {
  opt_adbPath : option jsstring;
  opt_serial : option jsstring;
  opt_minLevel : option LogLevel;
  opt_tags : option (list jsstring)
}.

(** The fields of [class LogcatStream]. *)
Record LogcatStream := {
  process : option ChildProcess;
  adbPath : jsstring;
  serial : option jsstring;
  minLevel : LogLevel;
  tags : list jsstring;
  buffer : jsstring
}.

(** What [emit] sends to the subscribers. *)
Inductive event :=
| EntryEvent (entry : LogcatEntry)
| ErrorEvent (message : jsstring)
| CloseEvent (code : option Z)
| StartEvent.

(** What a method does to the outside, in order. *)
Inductive effect :=
| Spawn (p : ChildProcess)
| Kill (p : ChildProcess) (signal : jsstring)
| Emit (ev : event).

Definition set_buffer (t : LogcatStream) (b : jsstring) : LogcatStream :=
  {| process := process t; adbPath := adbPath t; serial := serial t;
     minLevel := minLevel t; tags := tags t; buffer := b |}.

Definition set_process (t : LogcatStream) (p : option ChildProcess) : LogcatStream :=
  {| process := p; adbPath := adbPath t; serial := serial t;
     minLevel := minLevel t; tags := tags t; buffer := buffer t |}.

Definition orElse {A} (o : option A) (d : A) : A :=
  match o with Some a => a | None => d end.

(** [constructor] *)
Definition new (options : LogcatOptions) : LogcatStream :=
  {| process := None;
     adbPath := orElse (opt_adbPath options) (str "adb");
     serial := opt_serial options;
     minLevel := orElse (opt_minLevel options) V;
     tags := orElse (opt_tags options) [];
     buffer := [] |}.

Definition start_args (t : LogcatStream) : list jsstring :=
  (match serial t with
   | Some s => if truthy s then [str "-s"; s] else []
   | None => []
   end)
  ++ [str "logcat"; str "-v"; str "threadtime"]
  ++ (match tags t with
      | [] => []
      | _ :: _ =>
          map (fun tag => tag ++ str ":" ++ [level_char (minLevel t)]) (tags t)
          ++ [str "*:S"]
      end).

(** [start]: [inl] is the thrown error. *)
Definition start (t : LogcatStream) : jsstring + LogcatStream * list effect :=
  match process t with
  | Some _ => inl (str "Logcat stream already running")
  | None =>
      let p := {| command := adbPath t; argv := start_args t |} in
      inr (set_process t (Some p), [Spawn p; Emit StartEvent])
  end.

(** [stop] *)
Definition stop (t : LogcatStream) : LogcatStream * list effect :=
  match process t with
  | Some p => (set_process t None, [Kill p (str "SIGTERM")])
  | None => (t, [])
  end.

Definition isRunning (t : LogcatStream) : bool :=
  match process t with Some _ => true | None => false end.

(** [shouldEmit] *)
Definition shouldEmit (t : LogcatStream) (entry : LogcatEntry) : bool :=
  if (LOG_LEVEL_PRIORITY (level entry) <? LOG_LEVEL_PRIORITY (minLevel t))%Z
  then false
  else true.

(** The body of the loop of [handleData] for one complete line. *)
Definition handleLine (currentYear : N) (t : LogcatStream) (line : jsstring)
  : list event :=
  match trim line with
  | [] => []
  | _ :: _ =>
      match parseLogcatLine currentYear line with
      | Some entry => if shouldEmit t entry then [EntryEvent entry] else []
      | None => []
      end
  end.

(** [handleData]: the stream afterwards and the events emitted. *)
Definition handleData (currentYear : N) (t : LogcatStream) (data : jsstring)
  : LogcatStream * list event :=
  let buffer1 := buffer t ++ data in
  let lines := split "010" buffer1 in
  (* lines.pop() ?? "" *)
  let buffer2 := last lines [] in
  let lines := removelast lines in
  (set_buffer t buffer2, flat_map (handleLine currentYear t) lines).

(** The listeners installed by [start].  Each chunk is decoded on its
    own, [data.toString()], before it is handled.  [None]: the decoded
    text has a code unit outside the strings of this development. *)
Definition on_stdout (currentYear : N) (t : LogcatStream) (data : Buffer.t)
  : option (LogcatStream * list event) :=
  match Buffer.latin1 (Buffer.toString data) with
  | Some text => Some (handleData currentYear t text)
  | None => None
  end.

Definition on_stderr (t : LogcatStream) (data : Buffer.t)
  : option (LogcatStream * list event) :=
  match Buffer.latin1 (Buffer.toString data) with
  | Some text => Some (t, [ErrorEvent text])
  | None => None
  end.

Definition on_close (t : LogcatStream) (code : option Z)
  : LogcatStream * list event :=
  (set_process t None, [CloseEvent code]).

Definition on_error (t : LogcatStream) (err : jsstring)
  : LogcatStream * list event :=
  (t, [ErrorEvent err]).

(** A run of [data] events of the standard output, in arrival order. *)
Fixpoint feed (currentYear : N) (t : LogcatStream) (chunks : list jsstring)
  : LogcatStream * list event :=
  match chunks with
  | [] => (t, [])
  | data :: chunks' =>
      let '(t1, out1) := handleData currentYear t data in
      let '(t2, out2) := feed currentYear t1 chunks' in
      (t2, out1 ++ out2)
  end.

(** A run of chunks through the listener of the standard output. *)
Fixpoint receive (currentYear : N) (t : LogcatStream) (chunks : list Buffer.t)
  : option (LogcatStream * list event) :=
  match chunks with
  | [] => Some (t, [])
  | data :: chunks' =>
      match on_stdout currentYear t data with
      | Some (t1, out1) =>
          match receive currentYear t1 chunks' with
          | Some (t2, out2) => Some (t2, out1 ++ out2)
          | None => None
          end
      | None => None
      end
  end.

End Logcat.

(** ** extension/src/views/logcat.ts *)

Module LogcatTreeProvider.
Import JS Types.

(** The fields of [class LogcatTreeProvider] that [addEntry] touches;
    [written] is what went to the output channel and [refreshes] counts
    the tree refreshes fired. *)
Record t := {
  entries : list LogcatEntry;
  maxEntries : Z;
  filter : option jsstring;
  minLevel : LogLevel;
  written : list LogcatEntry;
  refreshes : nat
}.

(** [constructor]; [maxLines] is the configured [logcat.maxLines]. *)
Definition new (maxLines : Z) : t :=
  {| entries := []; maxEntries := maxLines; filter := None; minLevel := V;
     written := []; refreshes := 0 |}.

Definition levels : list LogLevel := [V; D; I; W; E; F; S].

(** [Array.prototype.indexOf] *)
Fixpoint indexOf (l : list LogLevel) (x : LogLevel) : Z :=
  match l with
  | [] => -1
  | y :: l' =>
      if level_eqb y x then 0
      else let i := indexOf l' x in if (i <? 0)%Z then -1 else (i + 1)%Z
  end.

(** [entries.push(entry)] followed by the conditional [entries.shift()]. *)
Definition push (max : Z) (entries : list LogcatEntry) (entry : LogcatEntry)
  : list LogcatEntry :=
  let entries1 := entries ++ [entry] in
  if (max <? Z.of_nat (length entries1))%Z then tl entries1 else entries1.

Definition refresh (p : t) : t :=
  {| entries := entries p; maxEntries := maxEntries p; filter := filter p;
     minLevel := minLevel p; written := written p;
     refreshes := Datatypes.S (refreshes p) |}.

Definition writeToOutput (p : t) (entry : LogcatEntry) : t :=
  {| entries := entries p; maxEntries := maxEntries p; filter := filter p;
     minLevel := minLevel p; written := written p ++ [entry];
     refreshes := refreshes p |}.

Definition set_entries (p : t) (es : list LogcatEntry) : t :=
  {| entries := es; maxEntries := maxEntries p; filter := filter p;
     minLevel := minLevel p; written := written p;
     refreshes := refreshes p |}.

(** The test of the text filter of [addEntry]: true when the entry is
    to be dropped. *)
Definition text_mismatch (filter : option jsstring) (entry : LogcatEntry) : bool :=
  match filter with
  | Some f =>
      if truthy f then
        let filterLower := toLowerCase f in
        negb (includes (toLowerCase (tag entry)) filterLower) &&
        negb (includes (toLowerCase (message entry)) filterLower)
      else false
  | None => false
  end.

(** [addEntry] *)
Definition addEntry (p : t) (entry : LogcatEntry) : t :=
  if (indexOf levels (level entry) <? indexOf levels (minLevel p))%Z then p
  else if text_mismatch (filter p) entry then p
  else
    let p1 := set_entries p (push (maxEntries p) (entries p) entry) in
    refresh (writeToOutput p1 entry).

(** [clear], without the device-side command it also issues. *)
Definition clear (p : t) : t :=
  refresh {| entries := []; maxEntries := maxEntries p; filter := filter p;
             minLevel := minLevel p; written := []; refreshes := refreshes p |}.

Definition setFilter (p : t) (f : option jsstring) : t :=
  refresh {| entries := entries p; maxEntries := maxEntries p; filter := f;
             minLevel := minLevel p; written := written p;
             refreshes := refreshes p |}.

Definition setMinLevel (p : t) (l : LogLevel) : t :=
  refresh {| entries := entries p; maxEntries := maxEntries p; filter := filter p;
             minLevel := l; written := written p; refreshes := refreshes p |}.

(** The listener [adbService.onLogcatEntry] run over a sequence of entries. *)
Definition addEntries (p : t) (es : list LogcatEntry) : t :=
  fold_left addEntry es p.

End LogcatTreeProvider.

(** ** packages/adb/src/client.ts *)

Module AdbClient.
Import JS Types.

Inductive error :=
| TimeoutError (timeout : N)
| ProcessError (message : jsstring).

Definition error_message (e : error) : jsstring :=
  match e with
  | TimeoutError timeout =>
      str "ADB command timed out after " ++ showN timeout ++ str "ms"
  | ProcessError m => m
  end.

(** State of a promise. *)
Inductive settle (A : Type) :=
| Pending
| Fulfilled (a : A)
| Rejected (e : error).
Arguments Pending {A}.
Arguments Fulfilled {A} a.
Arguments Rejected {A} e.

(** [resolve] and [reject] act on a pending promise only. *)
Definition resolve {A} (p : settle A) (a : A) : settle A :=
  match p with Pending => Fulfilled a | _ => p end.

Definition reject {A} (p : settle A) (e : error) : settle A :=
  match p with Pending => Rejected e | _ => p end.

Record AdbOptions := {
  opt_adbPath : option jsstring;
  opt_timeout : option N
}.

Record AdbClient := {
  adbPath : jsstring;
  defaultTimeout : N
}.

(** [constructor] *)
Definition new (options : AdbOptions) : AdbClient :=
  {| adbPath := match opt_adbPath options with Some p => p | None => str "adb" end;
     defaultTimeout := match opt_timeout options with Some n => n | None => 30000%N end |}.

Record ExecOptions := {
  serial : option jsstring;
  timeout : option N
}.

Definition no_options : ExecOptions := {| serial := None; timeout := None |}.

Definition fullArgs (args : list jsstring) (options : ExecOptions) : list jsstring :=
  match serial options with
  | Some s => if truthy s then str "-s" :: s :: args else args
  | None => args
  end.

Definition effective_timeout (c : AdbClient) (options : ExecOptions) : N :=
  match timeout options with Some n => n | None => defaultTimeout c end.

(** The closure of the promise executor of [exec]: its three local
    variables, the watchdog timer, the promise, and the signals sent to
    the subprocess. *)
Record call := {
  out : jsstring;
  err : jsstring;
  killed : bool;
  timer : bool;
  promise : settle AdbResult;
  signals : list jsstring
}.

(** After [spawn] and [setTimeout]. *)
Definition spawned : call :=
  {| out := []; err := []; killed := false; timer := true;
     promise := Pending; signals := [] |}.

(** What the event loop can deliver to the listeners of one call. *)
Inductive event :=
| StdoutData (data : jsstring)
| StderrData (data : jsstring)
| ProcClose (code : option Z)
| ProcError (message : jsstring)
| TimerFired.

(** One listener, run to completion.  The timer callback runs only
    while the timer is armed, and disarms it. *)
Definition step (timeout : N) (c : call) (ev : event) : call :=
  match ev with
  | TimerFired =>
      if timer c then
        {| out := out c; err := err c;
           killed := true;
           timer := false;
           signals := signals c ++ [str "SIGTERM"];
           promise := reject (promise c) (TimeoutError timeout) |}
      else c
  | StdoutData data =>
      {| out := out c ++ data; err := err c; killed := killed c;
         timer := timer c; promise := promise c; signals := signals c |}
  | StderrData data =>
      {| out := out c; err := err c ++ data; killed := killed c;
         timer := timer c; promise := promise c; signals := signals c |}
  | ProcClose code =>
      {| out := out c; err := err c; killed := killed c;
         timer := false;
         promise :=
           if killed c then promise c
           else resolve (promise c)
                  {| exitCode := match code with Some n => n | None => 0%Z end;
                     stdout := out c;
                     stderr := err c |};
         signals := signals c |}
  | ProcError m =>
      {| out := out c; err := err c; killed := killed c;
         timer := false;
         promise := reject (promise c) (ProcessError m);
         signals := signals c |}
  end.

Definition run (timeout : N) (c : call) (evs : list event) : call :=
  fold_left (step timeout) evs c.

(** The world as the callers of [exec] see it: for every command line
    the operating system answers with the events of that subprocess and
    of its watchdog, in delivery order.  [issued] logs the command
    lines spawned. *)
Section Exec.
Variable World : Type.
Variable os : jsstring -> list jsstring -> World -> list event * World.

Record machine := {
  world : World;
  issued : list (list jsstring)
}.

(** An [async] computation. *)
Definition Async (A : Type) : Type := machine -> settle A * machine.

Definition ret {A} (a : A) : Async A := fun m => (Fulfilled a, m).

(** [await]: a rejection propagates, a promise that never settles
    leaves the caller pending. *)
Definition bind {A B} (x : Async A) (f : A -> Async B) : Async B :=
  fun m =>
    match x m with
    | (Fulfilled a, m') => f a m'
    | (Rejected e, m') => (Rejected e, m')
    | (Pending, m') => (Pending, m')
    end.

(** [try { x } catch { h }] *)
Definition try_catch {A} (x : Async A) (h : Async A) : Async A :=
  fun m =>
    match x m with
    | (Rejected _, m') => h m'
    | r => r
    end.

(** [Promise.all] of three calls: all three are started, in order,
    before any is awaited; a rejection of any of them rejects the
    whole, otherwise all three must be fulfilled. *)
Definition all3 {A B C} (a : Async A) (b : Async B) (c : Async C)
  : Async (A * B * C) :=
  fun m =>
    let '(ra, m1) := a m in
    let '(rb, m2) := b m1 in
    let '(rc, m3) := c m2 in
    (match ra, rb, rc with
     | Rejected e, _, _ => Rejected e
     | _, Rejected e, _ => Rejected e
     | _, _, Rejected e => Rejected e
     | Fulfilled x, Fulfilled y, Fulfilled z => Fulfilled (x, y, z)
     | _, _, _ => Pending
     end, m3).

(** [exec] *)
Definition exec (c : AdbClient) (args : list jsstring) (options : ExecOptions)
  : Async AdbResult :=
  fun m =>
    let full := fullArgs args options in
    let '(evs, w) := os (adbPath c) full (world m) in
    (promise (run (effective_timeout c options) spawned evs),
     {| world := w; issued := issued m ++ [full] |}).

(** [shell] *)
Definition shell (c : AdbClient) (command : jsstring) (options : ExecOptions)
  : Async AdbResult :=
  exec c [str "shell"; command] options.
End Exec.

End AdbClient.

(** ** packages/adb/src/devices.ts *)

Module Devices.
Import JS Regex Types AdbClient.

(** A [Record<string, string>] that starts as the plain object [{}]:
    its own properties, newest first.  The object inherits from
    [Object.prototype]. *)
Definition Props := list (jsstring * jsstring).

(** The names [Object.prototype] supplies. *)
Definition object_prototype : list jsstring :=
  [ str "constructor"; str "__defineGetter__"; str "__defineSetter__";
    str "hasOwnProperty"; str "__lookupGetter__"; str "__lookupSetter__";
    str "isPrototypeOf"; str "propertyIsEnumerable"; str "toString";
    str "valueOf"; str "__proto__"; str "toLocaleString" ].

Definition inherited (key : jsstring) : bool :=
  existsb (JS.eqb key) object_prototype.

(** What [props[key]] evaluates to: the string assigned, a member of
    [Object.prototype], or [undefined]. *)
Inductive lookup :=
| Value (v : jsstring)
| Member
| Undefined.

(** [props[key] = value], the value being a string.  The name
    [__proto__] is an accessor of the prototype whose setter ignores a
    string; every other name becomes an own property. *)
Definition set (props : Props) (key value : jsstring) : Props :=
  if JS.eqb key (str "__proto__") then props else (key, value) :: props.

Fixpoint own (props : Props) (key : jsstring) : option jsstring :=
  match props with
  | [] => None
  | (k, v) :: props' => if JS.eqb k key then Some v else own props' key
  end.

(** [props[key]] *)
Definition get (props : Props) (key : jsstring) : lookup :=
  match own props key with
  | Some v => Value v
  | None => if inherited key then Member else Undefined
  end.

(** An optional string field read from the object.  The names read by
    the sources are not names of the prototype. *)
Definition field (props : Props) (key : jsstring) : option jsstring :=
  match get props key with
  | Value v => Some v
  | Member | Undefined => None
  end.

(** The body of the loop over [parts[i]], [i >= 2]. *)
Definition addProp (props : Props) (part : jsstring) : Props :=
  match split ":" part with
  | key :: value :: _ => if truthy key && truthy value then set props key value else props
  | _ => props
  end.

(** [parseDeviceLine] *)
Definition parseDeviceLine (line : jsstring) : option Device :=
  let parts := split_spaces (trim line) in
  if length parts <? 2 then None
  else
    let serial := nth 0 parts [] in
    let state := nth 1 parts [] in
    let props := fold_left addProp (skipn 2 parts) [] in
    Some {| Types.serial := serial;
            state := state;
            model := field props (str "model");
            product := field props (str "product");
            device := field props (str "device");
            transportId := field props (str "transport_id");
            isEmulator := startsWith serial (str "emulator-")
                          || includes serial (str ":5555") |}.

(** The loop of [getDevices] over the lines of the listing. *)
Definition devicesOfLine (line : jsstring) : list Device :=
  if startsWith line (str "List of devices") || negb (truthy (trim line)) then []
  else match parseDeviceLine line with
       | Some device => [device]
       | None => []
       end.

Definition parseDevices (stdout : jsstring) : list Device :=
  flat_map devicesOfLine (split "010" stdout).

(** The pattern of [getDeviceProps], with the [g] flag: a bracketed key
    of one or more characters other than a closing bracket, a colon and
    a blank, and a bracketed value of zero or more such characters. *)
Definition prop_regex : list item :=
  [ Cls (is_char "[") (Exactly 1);
    Open; Cls (is_not_char "]") (Greedy 1); Close;
    Cls (is_char "]") (Exactly 1);
    Cls (is_char ":") (Exactly 1);
    Cls (is_char " ") (Exactly 1);
    Cls (is_char "[") (Exactly 1);
    Open; Cls (is_not_char "]") (Greedy 0); Close;
    Cls (is_char "]") (Exactly 1) ].

(** The [while ((match = regex.exec(...)) !== null)] loop: every match
    resumes where the previous one ended.  A match of this pattern is at
    least six characters long, so the length of the text bounds the
    number of rounds. *)
Fixpoint scanProps (rounds : nat) (start : nat) (s : jsstring) (props : Props)
  : Props :=
  match rounds with
  | 0 => props
  | Datatypes.S rounds' =>
      match search prop_regex start s with
      | Some ([key; value], rest) =>
          scanProps rounds' (start + (length s - length rest)) rest
                    (set props key value)
      | _ => props
      end
  end.

Definition parseProps (stdout : jsstring) : Props :=
  scanProps (length stdout) 0 stdout [].

Section Queries.
Variable World : Type.
Variable os : jsstring -> list jsstring -> World -> list event * World.

Let Async := Async World.
Let exec := exec os.
Let shell := shell os.

Definition for_serial (serial : jsstring) : ExecOptions :=
  {| AdbClient.serial := Some serial; timeout := None |}.

(** [getDevices] *)
Definition getDevices (client : AdbClient) : Async (list Device) :=
  bind (exec client [str "devices"; str "-l"] no_options) (fun result =>
  ret (parseDevices (stdout result))).

(** [getDeviceProps] *)
Definition getDeviceProps (client : AdbClient) (serial : jsstring) : Async Props :=
  bind (shell client (str "getprop") (for_serial serial)) (fun result =>
  ret (parseProps (stdout result))).

(** [getDeviceName] *)
Definition getDeviceName (client : AdbClient) (serial : jsstring) : Async jsstring :=
  bind (getDeviceProps client serial) (fun props =>
  ret (match field props (str "ro.product.model") with
       | Some v => v
       | None =>
           match field props (str "ro.product.name") with
           | Some v => v
           | None => serial
           end
       end)).

(** [getApiLevel] *)
Definition getApiLevel (client : AdbClient) (serial : jsstring) : Async jsnum :=
  bind (shell client (str "getprop ro.build.version.sdk") (for_serial serial))
       (fun result =>
  ret (parseInt (trim (stdout result)))).

(** [getAndroidVersion] *)
Definition getAndroidVersion (client : AdbClient) (serial : jsstring) : Async jsstring :=
  bind (shell client (str "getprop ro.build.version.release") (for_serial serial))
       (fun result =>
  ret (trim (stdout result))).
End Queries.

End Devices.

(** ** extension/src/services/adb.ts *)

Module AdbService.
Import JS Types AdbClient.

(** [interface DeviceInfo extends Device] *)
Record DeviceInfo := {
  base : Device;
  name : jsstring;
  apiLevel : jsnum;
  androidVersion : jsstring
}.

(** The object pushed for a device that is not ready and in the [catch]. *)
Definition basicInfo (device : Device) : DeviceInfo :=
  {| base := device;
     name := match model device with Some m => m | None => Types.serial device end;
     apiLevel := Num 0;
     androidVersion := str "Unknown" |}.

Section Service.
Variable World : Type.
Variable os : jsstring -> list jsstring -> World -> list event * World.

Let Async := Async World.

(** The body of the [for] loop of [getDevices] for one device. *)
Definition resolveDevice (client : AdbClient) (device : Device) : Async DeviceInfo :=
  if negb (JS.eqb (state device) (str "device")) then
    ret (basicInfo device)
  else
    try_catch
      (bind (all3 (Devices.getDeviceName os client (Types.serial device))
                  (Devices.getApiLevel os client (Types.serial device))
                  (Devices.getAndroidVersion os client (Types.serial device)))
            (fun '(name, apiLevel, androidVersion) =>
       ret {| base := device;
              name := name;
              apiLevel := apiLevel;
              androidVersion := androidVersion |}))
      (ret (basicInfo device)).

Fixpoint resolveAll (client : AdbClient) (devices : list Device)
  : Async (list DeviceInfo) :=
  match devices with
  | [] => ret []
  | device :: rest =>
      bind (resolveDevice client device) (fun info =>
      bind (resolveAll client rest) (fun infos =>
      ret (info :: infos)))
  end.

(** [getDevices] *)
Definition getDevices (client : AdbClient) : Async (list DeviceInfo) :=
  bind (Devices.getDevices os client) (fun devices =>
  resolveAll client devices).
End Service.

(** The field [logcatStream] of the service. *)
Record streams := {
  logcatStream : option Logcat.LogcatStream
}.

(** [startLogcat]: a stream still running is stopped, then a new
    [LogcatStream] is built and started.  [adbPath] stands for
    [this.getAdbPath()].  [inl] is an error thrown by [start]. *)
Definition startLogcat (svc : streams) (adbPath : jsstring)
           (serial : option jsstring) (tags : option (list jsstring))
  : jsstring + streams * list Logcat.effect :=
  let stopped :=
    match logcatStream svc with
    | Some s => if Logcat.isRunning s then snd (Logcat.stop s) else []
    | None => []
    end in
  let s := Logcat.new {| Logcat.opt_adbPath := Some adbPath;
                         Logcat.opt_serial := serial;
                         Logcat.opt_minLevel := None;
                         Logcat.opt_tags := tags |} in
  match Logcat.start s with
  | inl thrown => inl thrown
  | inr (s', started) => inr ({| logcatStream := Some s' |}, stopped ++ started)
  end.

(** [stopLogcat] *)
Definition stopLogcat (svc : streams) : streams * list Logcat.effect :=
  ({| logcatStream := None |},
   match logcatStream svc with
   | Some s => snd (Logcat.stop s)
   | None => []
   end).

End AdbService.

(** ** packages/adb/src/client.ts: the single-shot commands *)

Module AdbCommands.
Import JS Regex Types AdbClient.

(** A run of literal characters in a pattern. *)
Definition lit (s : jsstring) : list item :=
  map (fun c => Cls (is_char c) (Exactly 1)) s.

(** [[\d.]] *)
Definition is_version_char (c : ascii) : bool :=
  is_digit c || is_char "." c.

(** The pattern of [version]: the text "Android Debug Bridge version "
    followed by a group of one or more digits and dots. *)
Definition version_regex : list item :=
  lit (str "Android Debug Bridge version ")
  ++ [Open; Cls is_version_char (Greedy 1); Close].

(** [match?.[1] ?? "unknown"] on the output of [adb version]. *)
Definition parseVersion (stdout : jsstring) : jsstring :=
  match match_ version_regex stdout with
  | Some (v :: _) => v
  | _ => str "unknown"
  end.

Section Commands.
Variable World : Type.
Variable os : jsstring -> list jsstring -> World -> list event * World.

(** [version] *)
Definition version (client : AdbClient) : Async World jsstring :=
  bind (exec os client [str "version"] no_options) (fun result =>
  ret (parseVersion (stdout result))).

(** [startServer] *)
Definition startServer (client : AdbClient) : Async World unit :=
  bind (exec os client [str "start-server"] no_options) (fun _ => ret tt).

(** [killServer] *)
Definition killServer (client : AdbClient) : Async World unit :=
  bind (exec os client [str "kill-server"] no_options) (fun _ => ret tt).

(** [connect]; [port] is [None] when the argument is left out. *)
Definition connect (client : AdbClient) (host : jsstring) (port : option N)
  : Async World jsstring :=
  let port := match port with Some n => n | None => 5555%N end in
  bind (exec os client [str "connect"; host ++ str ":" ++ showN port] no_options)
       (fun result =>
  ret (trim (stdout result))).

(** [disconnect] *)
Definition disconnect_args (host : option jsstring) (port : option N)
  : list jsstring :=
  match host with
  | Some h =>
      if truthy h then
        [str "disconnect";
         h ++ str ":" ++ showN (match port with Some n => n | None => 5555%N end)]
      else [str "disconnect"]
  | None => [str "disconnect"]
  end.

Definition disconnect (client : AdbClient) (host : option jsstring) (port : option N)
  : Async World jsstring :=
  bind (exec os client (disconnect_args host port) no_options) (fun result =>
  ret (trim (stdout result))).
End Commands.

End AdbCommands.

(** ** packages/adb/src/logcat.ts: the one-shot helpers *)

Module LogcatTools.
Import JS Types AdbClient.

(** A template literal applied to an exit code. *)
Definition showCode (code : option Z) : jsstring :=
  match code with
  | None => str "null"
  | Some z =>
      if (z <? 0)%Z then str "-" ++ showN (Z.to_N (- z)) else showN (Z.to_N z)
  end.

(** The argument vector of [clearLogcat]. *)
Definition clear_args (serial : option jsstring) : list jsstring :=
  match serial with
  | Some s => if truthy s then [str "-s"; s; str "logcat"; str "-c"]
              else [str "logcat"; str "-c"]
  | None => [str "logcat"; str "-c"]
  end.

(** [clearLogcat]: only [close] and [error] have listeners, and there
    is no timer. *)
Definition clear_step (p : settle unit) (ev : event) : settle unit :=
  match ev with
  | ProcClose code =>
      match code with
      | Some 0%Z => resolve p tt
      | _ =>
          reject p (ProcessError
                      (str "Failed to clear logcat (exit code " ++ showCode code ++ str ")"))
      end
  | ProcError m => reject p (ProcessError m)
  | _ => p
  end.

Definition clearLogcat (evs : list event) : settle unit :=
  fold_left clear_step evs Pending.

(** The argument vector of [getLogcat]. *)
Definition get_args (serial : option jsstring) (lines : option N) : list jsstring :=
  let n := showN (match lines with Some n => n | None => 1000%N end) in
  match serial with
  | Some s => if truthy s then [str "-s"; s; str "logcat"; str "-d"; str "-t"; n]
              else [str "logcat"; str "-d"; str "-t"; n]
  | None => [str "logcat"; str "-d"; str "-t"; n]
  end.

(** [getLogcat]: the local [output] and the promise. *)
Record dump := {
  output : jsstring;
  result : settle jsstring
}.

Definition get_step (d : dump) (ev : event) : dump :=
  match ev with
  | StdoutData data => {| output := output d ++ data; result := result d |}
  | ProcClose _ => {| output := output d; result := resolve (result d) (output d) |}
  | ProcError m => {| output := output d; result := reject (result d) (ProcessError m) |}
  | _ => d
  end.

Definition getLogcat (evs : list event) : settle jsstring :=
  result (fold_left get_step evs {| output := []; result := Pending |}).

End LogcatTools.

(** ** packages/adb/src/devices.ts: actions on a device *)

Module DeviceActions.
Import JS Types AdbClient Devices.

Definition remotePath : jsstring := str "/sdcard/screenshot.png".

Record InstallOptions := {
  replace : bool;
  allowDowngrade : bool
}.

Definition install_args (apkPath : jsstring) (options : InstallOptions)
  : list jsstring :=
  [str "install"]
  ++ (if replace options then [str "-r"] else [])
  ++ (if allowDowngrade options then [str "-d"] else [])
  ++ [apkPath].

Section Actions.
Variable World : Type.
Variable os : jsstring -> list jsstring -> World -> list event * World.

(** [throw new Error(...)] inside an [async] function. *)
Definition throw {A} (message : jsstring) : Async World A :=
  fun m => (Rejected (ProcessError message), m).

(** [takeScreenshot] *)
Definition takeScreenshot (client : AdbClient) (serial localPath : jsstring)
  : Async World unit :=
  bind (shell os client (str "screencap -p " ++ remotePath) (for_serial serial))
       (fun _ =>
  bind (exec os client [str "pull"; remotePath; localPath] (for_serial serial))
       (fun _ =>
  bind (shell os client (str "rm " ++ remotePath) (for_serial serial))
       (fun _ =>
  ret tt))).

(** [reboot] *)
Definition reboot (client : AdbClient) (serial : jsstring) (mode : option jsstring)
  : Async World unit :=
  let args := match mode with
              | Some mode => if truthy mode then [str "reboot"; mode] else [str "reboot"]
              | None => [str "reboot"]
              end in
  bind (exec os client args (for_serial serial)) (fun _ => ret tt).

(** [installApk] *)
Definition installApk (client : AdbClient) (serial apkPath : jsstring)
           (options : InstallOptions) : Async World unit :=
  bind (exec os client (install_args apkPath options)
             {| AdbClient.serial := Some serial; timeout := Some 120000%N |})
       (fun result =>
  if negb (includes (stdout result) (str "Success")) then
    throw (str "Failed to install APK: " ++ stdout result ++ str " " ++ stderr result)
  else ret tt).

(** [uninstallPackage] *)
Definition uninstallPackage (client : AdbClient) (serial packageName : jsstring)
           (keepData : bool) : Async World unit :=
  let args := if keepData then [str "uninstall"; str "-k"; packageName]
              else [str "uninstall"; packageName] in
  bind (exec os client args (for_serial serial)) (fun result =>
  if negb (includes (stdout result) (str "Success")) then
    throw (str "Failed to uninstall package: " ++ stdout result ++ str " " ++ stderr result)
  else ret tt).

(** [launchApp] *)
Definition launchApp (client : AdbClient) (serial packageName : jsstring)
           (activity : option jsstring) : Async World unit :=
  let command :=
    match activity with
    | Some a =>
        if truthy a then str "am start -n " ++ packageName ++ str "/" ++ a
        else str "monkey -p " ++ packageName ++ str " -c android.intent.category.LAUNCHER 1"
    | None =>
        str "monkey -p " ++ packageName ++ str " -c android.intent.category.LAUNCHER 1"
    end in
  bind (shell os client command (for_serial serial)) (fun _ => ret tt).

(** [forceStopApp] *)
Definition forceStopApp (client : AdbClient) (serial packageName : jsstring)
  : Async World unit :=
  bind (shell os client (str "am force-stop " ++ packageName) (for_serial serial))
       (fun _ => ret tt).
End Actions.

End DeviceActions.

(* ================================================================== *)
(** * Part II.  Vocabulary of the specification                         *)
(* ================================================================== *)

Module Spec.
Import JS Regex Types.

(** The last [n] elements of a list, in their order. *)
Definition lastn {A} (n : nat) (l : list A) : list A :=
  skipn (length l - n) l.

(** [sub] occurs in [s]. *)
Definition Contains (s sub : jsstring) : Prop :=
  exists pre post, s = pre ++ sub ++ post.

(** The level scale of the specification: V < D < I < W < E < F < S. *)
Definition rank (l : LogLevel) : nat :=
  match l with
  | V => 0 | D => 1 | I => 2 | W => 3 | E => 4 | F => 5 | S => 6
  end.

(** The text filter of the specification. *)
Definition text_ok (filter : option jsstring) (entry : LogcatEntry) : Prop :=
  match filter with
  | None => True
  | Some f =>
      Contains (toLowerCase (tag entry)) (toLowerCase f) \/
      Contains (toLowerCase (message entry)) (toLowerCase f)
  end.

(** An entry is retained iff its level reaches the minimum and the text
    filter, when there is one, matches. *)
Definition retained (minLevel : LogLevel) (filter : option jsstring)
           (entry : LogcatEntry) : Prop :=
  rank minLevel <= rank (level entry) /\ text_ok filter entry.

(** An event that only carries output of the subprocess: neither a
    completion nor the watchdog. *)
Definition is_data (ev : AdbClient.event) : Prop :=
  match ev with
  | AdbClient.StdoutData _ | AdbClient.StderrData _ => True
  | _ => False
  end.

Definition stdout_of (evs : list AdbClient.event) : jsstring :=
  flat_map (fun ev => match ev with AdbClient.StdoutData d => d | _ => [] end) evs.

Definition stderr_of (evs : list AdbClient.event) : jsstring :=
  flat_map (fun ev => match ev with AdbClient.StderrData d => d | _ => [] end) evs.

(** Complete lines: every element followed by its newline. *)
Definition newline : ascii := "010".

Definition unlines (ls : list jsstring) : jsstring :=
  flat_map (fun l => l ++ [newline]) ls.

Definition one_line (s : jsstring) : Prop := ~ In newline s.

(** White space, and tokens: non-empty runs without white space. *)
Definition blank (w : jsstring) : Prop := Forall (fun c => is_space c = true) w.

Definition token (t : jsstring) : Prop :=
  t <> [] /\ Forall (fun c => is_space c = false) t.

Fixpoint glue (pairs : list (jsstring * jsstring)) : jsstring :=
  match pairs with
  | [] => []
  | (w, t) :: rest => w ++ t ++ glue rest
  end.

(** [Tokens line toks]: [line] is the tokens [toks], in order, separated
    by non-empty runs of white space, with optional white space before
    the first and after the last. *)
Inductive Tokens : jsstring -> list jsstring -> Prop :=
| Tokens_none (w : jsstring) :
    blank w -> Tokens w []
| Tokens_some (w0 t0 : jsstring) (pairs : list (jsstring * jsstring)) (wn : jsstring) :
    blank w0 -> token t0 ->
    Forall (fun wt => fst wt <> [] /\ blank (fst wt) /\ token (snd wt)) pairs ->
    blank wn ->
    Tokens (w0 ++ t0 ++ glue pairs ++ wn) (t0 :: map snd pairs).

Definition no_colon (s : jsstring) : Prop := ~ In ":"%char s.

(** The pair a token denotes: the text before its first colon and the
    text between that colon and the next one (or the end of the token),
    when neither is empty. *)
Definition pair_of (tok : jsstring) : option (jsstring * jsstring) :=
  let key := takeWhile (is_not_char ":") tok in
  match dropWhile (is_not_char ":") tok with
  | _ :: after =>
      let value := takeWhile (is_not_char ":") after in
      match key, value with
      | _ :: _, _ :: _ => Some (key, value)
      | _, _ => None
      end
  | [] => None
  end.

(** The value of the last token that denotes a pair with the key. *)
Definition latest (key : jsstring) (toks : list jsstring) : option jsstring :=
  fold_left (fun acc tok =>
               match pair_of tok with
               | Some (k, v) => if JS.eqb k key then Some v else acc
               | None => acc
               end)
            toks None.

(** The record built from a first token, a second token and the
    key:value pairs among the remaining tokens. *)
Definition device_of (serial state : jsstring) (rest : list jsstring) : Device :=
  {| Types.serial := serial;
     Types.state := state;
     model := latest (str "model") rest;
     product := latest (str "product") rest;
     device := latest (str "device") rest;
     transportId := latest (str "transport_id") rest;
     isEmulator := startsWith serial (str "emulator-") || includes serial (str ":5555") |}.

(** A serial that denotes the default wireless port: host, colon, 5555. *)
Definition default_wireless_port (serial : jsstring) : Prop :=
  exists host, serial = host ++ str ":5555".

Definition scenario_line : jsstring :=
  str "emulator-5554 device product:sdk_gphone64_arm64 model:sdk_gphone64_arm64 device:emu64a transport_id:1".

(** A world in which the listing shows a ready emulator that has gone
    offline by the time it is queried: every [adb -s ... shell ...]
    prints to the standard error only and exits with code 1. *)
Definition listing : jsstring :=
  str "List of devices attached" ++ [newline] ++
  str "emulator-5554 device product:sdk_gphone64_arm64 model:sdk_gphone64_arm64 device:emu64a transport_id:1"
  ++ [newline] ++ [newline].

Definition offline_os (path : jsstring) (args : list jsstring) (w : unit)
  : list AdbClient.event * unit :=
  match args with
  | first :: _ =>
      if JS.eqb first (str "devices") then
        ([AdbClient.StdoutData listing; AdbClient.ProcClose (Some 0%Z)], tt)
      else
        ([AdbClient.StderrData (str "adb: device offline" ++ [newline]);
          AdbClient.ProcClose (Some 1%Z)], tt)
  | [] => ([AdbClient.ProcClose (Some 1%Z)], tt)
  end.

Definition default_client : AdbClient.AdbClient :=
  AdbClient.new {| AdbClient.opt_adbPath := None; AdbClient.opt_timeout := None |}.

Definition boot : AdbClient.machine unit :=
  {| AdbClient.world := tt; AdbClient.issued := [] |}.

Definition is_rejected {A} (r : AdbClient.settle A) : Prop :=
  match r with AdbClient.Rejected _ => True | _ => False end.

(** *** The language of a pattern

    [Matches r st s st' s']: the items [r] match a prefix of [s],
    leaving [s'], and turn the state [st] into [st'].  This is the
    meaning of the pattern without the priorities of backtracking. *)
Definition quant_ok (q : quant) (n : nat) : Prop :=
  match q with
  | Exactly k => n = k
  | Greedy min | Lazy min => min <= n
  end.

Definition all (p : ascii -> bool) (s : jsstring) : Prop :=
  Forall (fun c => p c = true) s.

Fixpoint Matches (r : list item) (st : mstate) (s : jsstring)
         (st' : mstate) (s' : jsstring) : Prop :=
  match r with
  | [] => st' = st /\ s' = s
  | Bos :: r' => pos st = 0 /\ Matches r' st s st' s'
  | Eos :: r' => s = [] /\ Matches r' st s st' s'
  | Open :: r' => Matches r' (open st) s st' s'
  | Close :: r' => Matches r' (close st) s st' s'
  | Cls p q :: r' =>
      exists pre post,
        s = pre ++ post /\ all p pre /\ quant_ok q (length pre) /\
        Matches r' (consume st pre) post st' s'
  end.

(** The class of the first character of every match of [r], when the
    pattern begins (after parentheses) with a class taken at least
    once. *)
Fixpoint first_class (r : list item) : option (ascii -> bool) :=
  match r with
  | Open :: r' | Close :: r' => first_class r'
  | Cls p (Exactly (Datatypes.S _)) :: _
  | Cls p (Greedy (Datatypes.S _)) :: _
  | Cls p (Lazy (Datatypes.S _)) :: _ => Some p
  | _ => None
  end.

Definition disjoint (p q : ascii -> bool) : Prop :=
  forall c, p c = true -> q c = true -> False.

(** Patterns in which every unbounded class is followed by a character
    outside of it: they match in at most one way. *)
Inductive Det : list item -> Prop :=
| Det_nil : Det []
| Det_Bos r : Det r -> Det (Bos :: r)
| Det_Eos r : Det r -> Det (Eos :: r)
| Det_Open r : Det r -> Det (Open :: r)
| Det_Close r : Det r -> Det (Close :: r)
| Det_Exactly p n r : Det r -> Det (Cls p (Exactly n) :: r)
| Det_Greedy p min q r :
    first_class r = Some q -> disjoint p q -> Det r -> Det (Cls p (Greedy min) :: r)
| Det_Lazy p min q r :
    first_class r = Some q -> disjoint p q -> Det r -> Det (Cls p (Lazy min) :: r).

(** *** The grammar of a log line

    MM-DD HH:MM:SS.mmm PID TID LEVEL TAG: MESSAGE, piece by piece. *)
Record line_parts := {
  l_month : jsstring;
  l_day : jsstring;
  l_ws1 : jsstring;
  l_hour : jsstring;
  l_minute : jsstring;
  l_second : jsstring;
  l_millis : jsstring;
  l_ws2 : jsstring;
  l_pid : jsstring;
  l_ws3 : jsstring;
  l_tid : jsstring;
  l_ws4 : jsstring;
  l_level : LogLevel;
  l_ws5 : jsstring;
  l_tag : jsstring;
  l_ws6 : jsstring;
  l_ws7 : jsstring;
  l_message : jsstring
}.

(** What follows the level letter. *)
Definition text_after_tag (x : line_parts) : jsstring :=
  l_ws7 x ++ l_message x.

Definition text_after_level (x : line_parts) : jsstring :=
  l_ws5 x ++ l_tag x ++ l_ws6 x ++ str ":" ++ text_after_tag x.

(** The line spelled by the pieces. *)
Definition text (x : line_parts) : jsstring :=
  l_month x ++ str "-" ++ l_day x ++ l_ws1 x ++
  l_hour x ++ str ":" ++ l_minute x ++ str ":" ++ l_second x ++ str "." ++ l_millis x ++
  l_ws2 x ++ l_pid x ++ l_ws3 x ++ l_tid x ++ l_ws4 x ++
  [level_char (l_level x)] ++ text_after_level x.

Definition digits (n : nat) (s : jsstring) : Prop :=
  all is_digit s /\ length s = n.

Definition number (s : jsstring) : Prop :=
  all is_digit s /\ 1 <= length s.

Definition gap (s : jsstring) : Prop :=
  all is_space s /\ 1 <= length s.

Record well_formed (x : line_parts) : Prop := {
  wf_month : digits 2 (l_month x);
  wf_day : digits 2 (l_day x);
  wf_ws1 : gap (l_ws1 x);
  wf_hour : digits 2 (l_hour x);
  wf_minute : digits 2 (l_minute x);
  wf_second : digits 2 (l_second x);
  wf_millis : digits 3 (l_millis x);
  wf_ws2 : gap (l_ws2 x);
  wf_pid : number (l_pid x);
  wf_ws3 : gap (l_ws3 x);
  wf_tid : number (l_tid x);
  wf_ws4 : gap (l_ws4 x);
  wf_ws5 : gap (l_ws5 x);
  wf_tag : all (is_not_char ":") (l_tag x) /\ 1 <= length (l_tag x);
  wf_ws6 : all is_space (l_ws6 x);
  wf_ws7 : all is_space (l_ws7 x);
  wf_message : all is_dot (l_message x)
}.

(** The lines of the grammar. *)
Definition Grammar (line : jsstring) : Prop :=
  exists x, well_formed x /\ line = text x.

Definition date_text (x : line_parts) : jsstring :=
  l_month x ++ str "-" ++ l_day x.

Definition time_text (x : line_parts) : jsstring :=
  l_hour x ++ str ":" ++ l_minute x ++ str ":" ++ l_second x ++ str "." ++ l_millis x.

(** The entry the specification expects for the pieces. *)
Definition entry_of (currentYear : N) (x : line_parts) : LogcatEntry :=
  {| timestamp := showN currentYear ++ str "-" ++ date_text x ++ str "T" ++ time_text x;
     pid := Num (decimal (l_pid x));
     tid := Num (decimal (l_tid x));
     level := l_level x;
     tag := trim (l_tag x);
     message := trimStart (text_after_tag x) |}.

Definition scenario_log_line : jsstring :=
  str "01-10 12:34:56.789  1234  5678 D MyTag   : Hello world".

(** A line of the grammar whose message has colons of its own. *)
Definition colon_parts : line_parts :=
  {| l_month := str "01"; l_day := str "10"; l_ws1 := str " ";
     l_hour := str "12"; l_minute := str "34"; l_second := str "56";
     l_millis := str "789"; l_ws2 := str "  ";
     l_pid := str "1234"; l_ws3 := str "  "; l_tid := str "5678"; l_ws4 := str " ";
     l_level := E; l_ws5 := str " "; l_tag := str "Net Stack"; l_ws6 := str "   ";
     l_ws7 := str " "; l_message := str "GET http://host:8080/a: 200" |}.

(** Entries told apart by their pid. *)
Definition sample_entry (n : Z) : LogcatEntry :=
  {| timestamp := str "2026-01-10T12:34:56.789";
     pid := Num n; tid := Num n; level := I;
     tag := str "MyTag"; message := str "Hello world" |}.

(** What [addEntry] does to an entry that passes the filters. *)
Definition accept (p : LogcatTreeProvider.t) (e : LogcatEntry) : LogcatTreeProvider.t :=
  LogcatTreeProvider.refresh
    (LogcatTreeProvider.writeToOutput
       (LogcatTreeProvider.set_entries p
          (LogcatTreeProvider.push (LogcatTreeProvider.maxEntries p)
                                   (LogcatTreeProvider.entries p) e))
       e).

Definition settled {A} (p : AdbClient.settle A) : Prop := p <> AdbClient.Pending.

(** The two effects of the watchdog go together in every reachable
    state of a call. *)
Definition watchdog_inv (T : N) (c : AdbClient.call) : Prop :=
  if AdbClient.killed c then
    AdbClient.promise c = AdbClient.Rejected (AdbClient.TimeoutError T) /\
    AdbClient.signals c = [str "SIGTERM"] /\
    AdbClient.timer c = false
  else
    AdbClient.signals c = [] /\
    AdbClient.promise c <> AdbClient.Rejected (AdbClient.TimeoutError T) /\
    (AdbClient.timer c = true -> AdbClient.promise c = AdbClient.Pending).

(** A stream as the service builds it, and the run of C4: a first
    session receives an incomplete line, the stream is stopped and
    started again. *)
Definition default_stream : Logcat.LogcatStream :=
  Logcat.new {| Logcat.opt_adbPath := None; Logcat.opt_serial := None;
                Logcat.opt_minLevel := None; Logcat.opt_tags := None |}.

Definition dangling : jsstring :=
  str "01-10 12:34:56.789  1234  5678 D MyTag   : Hel".

Definition restarted : jsstring + Logcat.LogcatStream * list Logcat.effect :=
  match Logcat.start default_stream with
  | inl thrown => inl thrown
  | inr (t1, _) =>
      let t2 := fst (Logcat.handleData 2026 t1 dangling) in
      let t3 := fst (Logcat.stop t2) in
      Logcat.start t3
  end.

Definition pairs_ok (pairs : list (jsstring * jsstring)) : Prop :=
  Forall (fun wt => fst wt <> [] /\ blank (fst wt) /\ token (snd wt)) pairs.

(** The state of a match after the message part. *)
Definition after_message (st : mstate) (s : jsstring) : mstate :=
  close (consume (open (consume st (takeWhile is_space s))) (dropWhile is_space s)).

(** *** Chunks of bytes *)

(** A chunk that is a text by itself: decoded on its own it gives a
    string, so that no character of the stream is cut at its ends. *)
Definition whole (chunk : Buffer.t) : Prop :=
  Buffer.latin1 (Buffer.toString chunk) <> None.

(** The string a whole chunk is decoded to. *)
Definition text_of (chunk : Buffer.t) : jsstring :=
  match Buffer.latin1 (Buffer.toString chunk) with
  | Some s => s
  | None => []
  end.

(** The text of an ASCII literal as bytes. *)
Definition bytes (s : string) : Buffer.t :=
  map byte_of_ascii (list_ascii_of_string s).

(** A line whose message ends in an e with acute accent, two bytes in
    UTF-8, delivered in two chunks that part between those bytes. *)
Definition cut_head : Buffer.t :=
  bytes "01-10 12:34:56.789  1234  5678 D MyTag   : caf" ++ [Byte.xc3].

Definition cut_tail : Buffer.t := [Byte.xa9; Byte.x0a].

(** *** What a stream is to emit

    [Emits cy min ls evs]: [evs] are the events due for the complete
    lines [ls], in order.  A line of the grammar whose level is at least
    [min] gives one entry event, with the entry its pieces spell; a line
    of the grammar below [min] gives nothing; a line outside the grammar
    (a blank one, for instance) gives nothing. *)
Inductive Emits (cy : N) (min : LogLevel)
  : list jsstring -> list Logcat.event -> Prop :=
| Emits_nil : Emits cy min [] []
| Emits_entry (x : line_parts) (ls : list jsstring) (evs : list Logcat.event) :
    well_formed x -> rank min <= rank (l_level x) ->
    Emits cy min ls evs ->
    Emits cy min (text x :: ls) (Logcat.EntryEvent (entry_of cy x) :: evs)
| Emits_below (x : line_parts) (ls : list jsstring) (evs : list Logcat.event) :
    well_formed x -> rank (l_level x) < rank min ->
    Emits cy min ls evs ->
    Emits cy min (text x :: ls) evs
| Emits_other (line : jsstring) (ls : list jsstring) (evs : list Logcat.event) :
    ~ Grammar line ->
    Emits cy min ls evs ->
    Emits cy min (line :: ls) evs.

(** *** The subprocess of a call *)

(** What the program run as subprocess does with a termination signal:
    by default the signal ends it; a program that handles the signal
    carries on. *)
Inductive disposition :=
| Default
| Handled.

Definition ends (ev : AdbClient.event) : bool :=
  match ev with
  | AdbClient.ProcClose _ | AdbClient.ProcError _ => true
  | _ => false
  end.

(** The subprocess is left running when the events [evs] have been
    delivered and the call is in state [c]: it has neither closed nor
    failed to start, and no signal sent by the call has ended it. *)
Definition left_running (d : disposition) (evs : list AdbClient.event)
           (c : AdbClient.call) : bool :=
  negb (existsb ends evs) &&
  match d, AdbClient.signals c with
  | Default, _ :: _ => false
  | _, _ => true
  end.

End Spec.

(** ** Vocabulary for the further properties *)

Module Extra.
Import JS Regex Types Spec.

(** The two events that end a subprocess for its listeners. *)
Definition is_completion (ev : AdbClient.event) : Prop :=
  match ev with
  | AdbClient.ProcClose _ | AdbClient.ProcError _ => True
  | _ => False
  end.

(** What happens to a stream: the calls of its owner, and the close
    event of one of its processes, the [k]-th it spawned (from 0). *)
Inductive op :=
| DoStart
| DoStop
| DoClose (k : nat) (code : option Z).

(** A stream and the processes around it: how many it has spawned,
    which of them its field [process] holds, which were sent SIGTERM
    and which have closed. *)
Record session := {
  stream : Logcat.LogcatStream;
  started : nat;
  holds : option nat;
  signalled : list nat;
  exited : list nat
}.

Definition fresh (options : Logcat.LogcatOptions) : session :=
  {| stream := Logcat.new options; started := 0; holds := None;
     signalled := []; exited := [] |}.

(** A call of [start] that throws leaves everything as it was; the
    close listener of any process, the current one or an earlier one,
    sets the field [process] to null. *)
Definition apply_op (s : session) (o : op) : session :=
  match o with
  | DoStart =>
      match Logcat.start (stream s) with
      | inl _ => s
      | inr (t', _) =>
          {| stream := t'; started := Datatypes.S (started s);
             holds := Some (started s);
             signalled := signalled s; exited := exited s |}
      end
  | DoStop =>
      match Logcat.stop (stream s) with
      | (t', []) =>
          {| stream := t'; started := started s; holds := holds s;
             signalled := signalled s; exited := exited s |}
      | (t', _ :: _) =>
          {| stream := t'; started := started s; holds := None;
             signalled := match holds s with
                          | Some k => k :: signalled s
                          | None => signalled s
                          end;
             exited := exited s |}
      end
  | DoClose k code =>
      {| stream := fst (Logcat.on_close (stream s) code);
         started := started s; holds := None;
         signalled := signalled s; exited := k :: exited s |}
  end.

Definition run_ops (s : session) (ops : list op) : session :=
  fold_left apply_op ops s.

(** A process that was spawned and has neither been sent SIGTERM nor
    closed. *)
Definition alive (k : nat) (s : session) : Prop :=
  k < started s /\ ~ In k (signalled s) /\ ~ In k (exited s).

(** Every close event comes from a process spawned before, and is
    delivered while the stream holds that process or none: the close of
    a stopped process is not delivered after the next [start]. *)
Fixpoint timely (s : session) (ops : list op) : Prop :=
  match ops with
  | [] => True
  | o :: ops' =>
      match o with
      | DoClose k _ => k < started s /\ (holds s = None \/ holds s = Some k)
      | _ => True
      end /\
      timely (apply_op s o) ops'
  end.

(** What the session keeps true as long as close events are timely. *)
Definition orderly (s : session) : Prop :=
  (forall k, alive k s <-> holds s = Some k) /\
  (Logcat.process (stream s) = None <-> holds s = None) /\
  (forall k, In k (signalled s) -> k < started s) /\
  (forall k, In k (exited s) -> k < started s).

Definition spawns (effects : list Logcat.effect) : nat :=
  length (List.filter (fun e => match e with Logcat.Spawn _ => true | _ => false end) effects).

Definition kills (effects : list Logcat.effect) : nat :=
  length (List.filter (fun e => match e with Logcat.Kill _ _ => true | _ => false end) effects).

Definition live (t : Logcat.LogcatStream) : nat :=
  if Logcat.isRunning t then 1 else 0.

(** The filters of the log view as one test. *)
Definition passes (minLevel : LogLevel) (filter : option jsstring)
           (entry : LogcatEntry) : bool :=
  (rank minLevel <=? rank (level entry)) &&
  match filter with
  | None => true
  | Some f =>
      includes (toLowerCase (tag entry)) (toLowerCase f) ||
      includes (toLowerCase (message entry)) (toLowerCase f)
  end.

(** An entry of level D, below the minimum level I. *)
Definition debug_entry : LogcatEntry :=
  {| timestamp := str "2026-01-10T12:34:57.000";
     pid := Num 7; tid := Num 7; level := D;
     tag := str "Chatty"; message := str "tick" |}.

(** The property queries issued for one device of the listing. *)
Definition queries (d : Device) : list (list jsstring) :=
  if JS.eqb (state d) (str "device") then
    [ AdbClient.fullArgs [str "shell"; str "getprop"]
                         (Devices.for_serial (serial d));
      AdbClient.fullArgs [str "shell"; str "getprop ro.build.version.sdk"]
                         (Devices.for_serial (serial d));
      AdbClient.fullArgs [str "shell"; str "getprop ro.build.version.release"]
                         (Devices.for_serial (serial d)) ]
  else [].

Definition is_fulfilled {A} (r : AdbClient.settle A) : Prop :=
  match r with AdbClient.Fulfilled _ => True | _ => False end.

Definition settle_map {A B} (f : A -> B) (r : AdbClient.settle A) : AdbClient.settle B :=
  match r with
  | AdbClient.Fulfilled a => AdbClient.Fulfilled (f a)
  | AdbClient.Rejected e => AdbClient.Rejected e
  | AdbClient.Pending => AdbClient.Pending
  end.

(** The three commands of [takeScreenshot], as spawned. *)
Definition screenshot_commands (serial localPath : jsstring) : list (list jsstring) :=
  [ AdbClient.fullArgs [str "shell"; str "screencap -p " ++ DeviceActions.remotePath]
                       (Devices.for_serial serial);
    AdbClient.fullArgs [str "pull"; DeviceActions.remotePath; localPath]
                       (Devices.for_serial serial);
    AdbClient.fullArgs [str "shell"; str "rm " ++ DeviceActions.remotePath]
                       (Devices.for_serial serial) ].

Definition fulfilledb {A} (r : AdbClient.settle A) : bool :=
  match r with AdbClient.Fulfilled _ => true | _ => false end.

Definition install_options (serial : jsstring) : AdbClient.ExecOptions :=
  {| AdbClient.serial := Some serial; AdbClient.timeout := Some 120000%N |}.

(** One line of [getprop] output, and a whole output. *)
Definition prop_line (kv : jsstring * jsstring) : jsstring :=
  str "[" ++ fst kv ++ str "]: [" ++ snd kv ++ str "]".

Definition prop_lines (kvs : list (jsstring * jsstring)) : jsstring :=
  flat_map (fun kv => prop_line kv ++ [newline]) kvs.

(** Keys are non-empty; neither keys nor values hold a closing bracket. *)
Definition prop_ok (kv : jsstring * jsstring) : Prop :=
  all (is_not_char "]") (fst kv) /\ 1 <= length (fst kv) /\
  all (is_not_char "]") (snd kv).

(** The value of the last pair with the given key. *)
Definition last_value (key : jsstring) (kvs : list (jsstring * jsstring))
  : option jsstring :=
  fold_left (fun acc kv => if JS.eqb (fst kv) key then Some (snd kv) else acc)
            kvs None.

(** The pairs an assignment stores: every key but [__proto__]. *)
Definition stored (kvs : list (jsstring * jsstring)) : list (jsstring * jsstring) :=
  List.filter (fun kv => negb (JS.eqb (fst kv) (str "__proto__"))) kvs.

(** What reading [key] gives once the pairs have been assigned, in
    order, to an empty object. *)
Definition read_back (key : jsstring) (kvs : list (jsstring * jsstring))
  : Devices.lookup :=
  if JS.eqb key (str "__proto__") then Devices.Member
  else match last_value key kvs with
       | Some v => Devices.Value v
       | None => if Devices.inherited key then Devices.Member else Devices.Undefined
       end.

Definition banner : jsstring := str "Android Debug Bridge version ".

(** Empty, or beginning with a character outside the class. *)
Definition stops (p : ascii -> bool) (rest : jsstring) : Prop :=
  match rest with
  | [] => True
  | c :: _ => p c = false
  end.

(** Calls made on the service by the views. *)
Inductive service_op :=
| StartLogcat (adbPath : jsstring) (serial : option jsstring)
              (tags : option (list jsstring))
| StopLogcat.

Definition service_call (svc : AdbService.streams) (c : service_op)
  : jsstring + AdbService.streams * list Logcat.effect :=
  match c with
  | StartLogcat adbPath serial tags => AdbService.startLogcat svc adbPath serial tags
  | StopLogcat => inr (AdbService.stopLogcat svc)
  end.

(** A sequence of calls, up to the first that throws. *)
Fixpoint service_run (svc : AdbService.streams) (cs : list service_op)
  : jsstring + AdbService.streams * list Logcat.effect :=
  match cs with
  | [] => inr (svc, [])
  | c :: cs' =>
      match service_call svc c with
      | inl thrown => inl thrown
      | inr (svc1, e1) =>
          match service_run svc1 cs' with
          | inl thrown => inl thrown
          | inr (svc2, e2) => inr (svc2, e1 ++ e2)
          end
      end
  end.

Definition service_live (svc : AdbService.streams) : nat :=
  match AdbService.logcatStream svc with
  | Some t => live t
  | None => 0
  end.

Definition starts (cs : list service_op) : nat :=
  length (List.filter (fun c => match c with StartLogcat _ _ _ => true | _ => false end) cs).

(** The carriage return that precedes the newline in some outputs. *)
Definition CR : ascii := "013".

Definition with_CR (l : jsstring) : jsstring := l ++ [CR].

(** Patterns that do not ask for the end of the subject. *)
Definition open_ended (r : list item) : bool :=
  forallb (fun i => match i with Eos => false | _ => true end) r.

End Extra.

(* ================================================================== *)
(** * Part III.  Properties                                             *)
(* ================================================================== *)

(** ** Strings *)

Section StringFacts.
Import JS.

Lemma startsWith_spec (s p : jsstring) :
  startsWith s p = true <-> exists post, s = p ++ post.
Proof.
  revert s; induction p as [|x p IH]; intros s.
  - split; [intros _; now exists s | now destruct s].
  - destruct s as [|c s]; simpl.
    + split; [discriminate | intros [post H]; discriminate].
    + rewrite andb_true_iff, IH. split.
      * intros [Hc [post ->]]. apply Ascii.eqb_eq in Hc. subst. now exists post.
      * intros [post H]. injection H as -> ->. split.
        -- apply Ascii.eqb_refl.
        -- now exists post.
Qed.

Lemma includes_spec (s sub : jsstring) :
  includes s sub = true <-> Spec.Contains s sub.
Proof.
  unfold Spec.Contains. induction s as [|c s IH]; cbn [includes].
  - rewrite orb_false_r, startsWith_spec. split.
    + intros [post ->]. now exists [], post.
    + intros (pre & post & H). destruct pre; simpl in H.
      * now exists post.
      * discriminate.
  - rewrite orb_true_iff. split.
    + intros [H | H].
      * apply startsWith_spec in H as [post ->]. now exists [], post.
      * apply IH in H as (pre & post & ->). now exists (c :: pre), post.
    + intros (pre & post & H). destruct pre as [|x pre]; simpl in H.
      * left. apply startsWith_spec. now exists post.
      * right. injection H as -> ->. apply IH. now exists pre, post.
Qed.

End StringFacts.

(** ** The entry buffer and the filters of the log view *)

Section EntryBuffer.
Import JS Types LogcatTreeProvider Spec.

Lemma indexOf_levels (l : LogLevel) :
  indexOf levels l = Z.of_nat (rank l).
Proof. destruct l; reflexivity. Qed.

Lemma priority_rank (l : LogLevel) :
  Logcat.LOG_LEVEL_PRIORITY l = Z.of_nat (rank l).
Proof. destruct l; reflexivity. Qed.

Lemma text_mismatch_spec (f : option jsstring) (e : LogcatEntry) :
  text_mismatch f e = false <-> text_ok f e.
Proof.
  unfold text_mismatch, text_ok. destruct f as [f|]; [|tauto].
  destruct f as [|c f]; simpl truthy; cbv iota.
  - split; [intros _ | reflexivity]. left. now exists [], (toLowerCase (tag e)).
  - rewrite <- !includes_spec.
    destruct (includes (toLowerCase (tag e)) _), (includes (toLowerCase (message e)) _);
      simpl; intuition congruence.
Qed.

Lemma addEntry_retained (p : t) (e : LogcatEntry) :
  retained (minLevel p) (filter p) e -> addEntry p e = accept p e.
Proof.
  intros [Hl Ht]. unfold addEntry. rewrite !indexOf_levels.
  destruct (Z.ltb_spec (Z.of_nat (rank (level e))) (Z.of_nat (rank (minLevel p)))); [lia|].
  apply text_mismatch_spec in Ht. now rewrite Ht.
Qed.

Lemma addEntry_dropped (p : t) (e : LogcatEntry) :
  ~ retained (minLevel p) (filter p) e -> addEntry p e = p.
Proof.
  intros H. unfold addEntry. rewrite !indexOf_levels.
  destruct (Z.ltb_spec (Z.of_nat (rank (level e))) (Z.of_nat (rank (minLevel p)))); [reflexivity|].
  destruct (text_mismatch (filter p) e) eqn:Ht; [reflexivity|].
  exfalso. apply H. split; [lia | now apply text_mismatch_spec].
Qed.

Lemma lastn_length {A} (n : nat) (l : list A) :
  length (lastn n l) = Nat.min n (length l).
Proof. unfold lastn. rewrite length_skipn. lia. Qed.

Lemma lastn_all {A} (n : nat) (l : list A) :
  length l <= n -> lastn n l = l.
Proof. intros H. unfold lastn. now replace (length l - n) with 0 by lia. Qed.

Lemma lastn_app_lastn {A} (n : nat) (l l' : list A) :
  lastn n (lastn n l ++ l') = lastn n (l ++ l').
Proof.
  unfold lastn. rewrite !length_app, length_skipn.
  rewrite !skipn_app, length_skipn, skipn_skipn.
  f_equal; f_equal; lia.
Qed.

Lemma push_lastn (C : Z) (b : list LogcatEntry) (e : LogcatEntry) :
  (0 <= C)%Z -> length b <= Z.to_nat C ->
  push C b e = lastn (Z.to_nat C) (b ++ [e]).
Proof.
  intros HC Hb. unfold push, lastn. rewrite length_app. simpl length.
  destruct (Z.ltb_spec C (Z.of_nat (length b + 1))).
  - replace (length b + 1 - Z.to_nat C) with 1 by lia.
    now destruct (b ++ [e]).
  - now replace (length b + 1 - Z.to_nat C) with 0 by lia.
Qed.

Lemma push_all (C : Z) (b es : list LogcatEntry) :
  (0 <= C)%Z -> length b <= Z.to_nat C ->
  fold_left (push C) es b = lastn (Z.to_nat C) (b ++ es).
Proof.
  intros HC. revert b. induction es as [|e es IH]; intros b Hb; simpl.
  - rewrite app_nil_r. symmetry. now apply lastn_all.
  - rewrite IH.
    + rewrite push_lastn by assumption. rewrite lastn_app_lastn.
      now rewrite <- app_assoc.
    + rewrite push_lastn by assumption. rewrite lastn_length. lia.
Qed.

Lemma addEntries_retained (es : list LogcatEntry) : forall p : t,
  Forall (retained (minLevel p) (filter p)) es ->
  entries (addEntries p es) = fold_left (push (maxEntries p)) es (entries p).
Proof.
  unfold addEntries.
  induction es as [|e es IH]; intros p Hes; simpl; [reflexivity|].
  inversion Hes as [|? ? He Hes']; subst.
  rewrite (addEntry_retained _ He). now rewrite IH.
Qed.

Lemma retained_dec (m : LogLevel) (f : option jsstring) (e : LogcatEntry) :
  retained m f e \/ ~ retained m f e.
Proof.
  unfold retained.
  destruct (le_dec (rank m) (rank (level e))) as [Hl|Hl]; [|right; tauto].
  destruct (text_mismatch f e) eqn:Ht.
  - right. intros [_ H]. apply text_mismatch_spec in H. congruence.
  - left. split; [assumption | now apply text_mismatch_spec].
Qed.

(** C2.  Entry Buffer, bounded FIFO.  Take a log view with capacity
    [maxEntries p >= 0] whose buffer is within capacity (the empty
    buffer of a new view is), and any sequence [es] of entries that all
    pass its filters.  Then (1) after every prefix of [es] the buffer
    holds at most [maxEntries p] entries; (2) an insertion into a buffer
    below capacity appends, and an insertion into a full buffer appends
    and removes exactly the oldest entry; (3) at the end the buffer is
    the last [maxEntries p] elements of its old content followed by
    [es], in arrival order; so (4) a new view that received more than
    [maxEntries p] entries holds exactly the last [maxEntries p] of
    them. *)
Theorem entry_buffer_bounded_fifo (p : t) (es : list LogcatEntry) :
  (0 <= maxEntries p)%Z ->
  (Z.of_nat (length (entries p)) <= maxEntries p)%Z ->
  Forall (retained (minLevel p) (filter p)) es ->
  let C := Z.to_nat (maxEntries p) in
  (forall k, length (entries (addEntries p (firstn k es))) <= C) /\
  (forall e, retained (minLevel p) (filter p) e ->
     entries (addEntry p e) =
       if length (entries p) <? C then entries p ++ [e]
       else tl (entries p ++ [e])) /\
  entries (addEntries p es) = lastn C (entries p ++ es) /\
  (entries p = [] -> C < length es ->
     length (entries (addEntries p es)) = C /\
     entries (addEntries p es) = lastn C es).
Proof.
  intros HC Hb Hes C.
  assert (Hb' : length (entries p) <= C) by (unfold C; lia).
  assert (Hall : forall l, Forall (retained (minLevel p) (filter p)) l ->
            entries (addEntries p l) = lastn C (entries p ++ l)).
  { intros l Hl. rewrite addEntries_retained by assumption.
    now apply push_all. }
  repeat split.
  - intros k. rewrite Hall.
    + rewrite lastn_length. lia.
    + rewrite <- (firstn_skipn k es) in Hes. now apply Forall_app in Hes.
  - intros e He. rewrite (addEntry_retained _ He). simpl. unfold push.
    rewrite length_app. simpl length.
    destruct (Nat.ltb_spec (length (entries p)) C);
      destruct (Z.ltb_spec (maxEntries p) (Z.of_nat (length (entries p) + 1)));
      try reflexivity; unfold C in *; lia.
  - now apply Hall.
  - rewrite Hall by assumption. rewrite H. simpl. rewrite lastn_length. lia.
  - rewrite Hall by assumption. now rewrite H.
Qed.

Lemma entry_buffer_bounded_fifo_witness :
  (0 <= maxEntries (new 2))%Z /\
  (Z.of_nat (length (entries (new 2))) <= maxEntries (new 2))%Z /\
  Forall (retained (minLevel (new 2)) (filter (new 2)))
         [sample_entry 1; sample_entry 2; sample_entry 3] /\
  entries (addEntries (new 2) [sample_entry 1; sample_entry 2; sample_entry 3])
    = [sample_entry 2; sample_entry 3].
Proof.
  assert (H1 : (0 <= maxEntries (new 2))%Z) by (simpl; lia).
  assert (H2 : (Z.of_nat (length (entries (new 2))) <= maxEntries (new 2))%Z)
    by (simpl; lia).
  assert (H3 : Forall (retained (minLevel (new 2)) (filter (new 2)))
                      [sample_entry 1; sample_entry 2; sample_entry 3]).
  { repeat constructor; simpl; lia. }
  repeat apply conj; try assumption.
  exact (proj1 (proj2 (proj2
           (@entry_buffer_bounded_fifo (new 2)
              [sample_entry 1; sample_entry 2; sample_entry 3] H1 H2 H3)))).
Defined.

Lemma lastn_newest {A} (n : nat) (b : list A) (e : A) :
  0 < n -> exists older, lastn n (b ++ [e]) = older ++ [e].
Proof.
  intros Hn. unfold lastn. rewrite length_app. cbn [length].
  rewrite skipn_app.
  replace (length b + 1 - n - length b) with 0 by lia.
  now exists (skipn (length b + 1 - n) b).
Qed.

(** C6.  Filter pipeline.  For every entry and every configuration of
    the log view (minimum level, optional filter string), the entry
    buffer being within its capacity: the entry is written to the
    output and retained in the Entry Buffer, which then holds the last
    [maxEntries] of its former content followed by the entry, iff its
    level is at least the minimum on the scale V < D < I < W < E < F < S
    and (there is no filter string, or the lower-cased tag or the
    lower-cased message contains the lower-cased filter string); with a
    capacity of at least one the entry retained is the newest of the
    buffer.  An entry failing either test leaves the view exactly as it
    was, so nothing of it is kept for a later re-filtering, and setting
    a filter or a minimum level leaves the buffer as it is.  Upstream,
    the stream engine lets an entry through iff its level is at least
    the minimum level of the stream. *)
Theorem filter_pipeline (p : t) (e : LogcatEntry) :
  (0 <= maxEntries p)%Z ->
  (Z.of_nat (length (entries p)) <= maxEntries p)%Z ->
  ((entries (addEntry p e) = lastn (Z.to_nat (maxEntries p)) (entries p ++ [e]) /\
    written (addEntry p e) = written p ++ [e])
   <-> retained (minLevel p) (filter p) e) /\
  (retained (minLevel p) (filter p) e -> (0 < maxEntries p)%Z ->
   exists older, entries (addEntry p e) = older ++ [e]) /\
  (~ retained (minLevel p) (filter p) e -> addEntry p e = p) /\
  (forall (f : option jsstring) (l : LogLevel),
     entries (setFilter p f) = entries p /\ entries (setMinLevel p l) = entries p) /\
  (forall s : Logcat.LogcatStream,
     Logcat.shouldEmit s e = true <-> rank (Logcat.minLevel s) <= rank (level e)).
Proof.
  intros HC Hlen.
  assert (Hin : retained (minLevel p) (filter p) e ->
                entries (addEntry p e)
                = lastn (Z.to_nat (maxEntries p)) (entries p ++ [e])).
  { intros H. rewrite (addEntry_retained _ H). unfold accept.
    cbn [entries refresh writeToOutput set_entries].
    apply push_lastn; lia. }
  split; [split | split; [|split; [|split]]].
  - intros [_ Hw]. destruct (retained_dec (minLevel p) (filter p) e) as [H|H];
      [assumption|].
    rewrite (addEntry_dropped _ H) in Hw.
    apply (f_equal (@length _)) in Hw. rewrite length_app in Hw. simpl in Hw. lia.
  - intros H. split; [now apply Hin|]. now rewrite (addEntry_retained _ H).
  - intros H Hpos. rewrite (Hin H). apply lastn_newest. lia.
  - apply addEntry_dropped.
  - intros f l. split; reflexivity.
  - intros s. unfold Logcat.shouldEmit. rewrite !priority_rank.
    destruct (Z.ltb_spec (Z.of_nat (rank (level e))) (Z.of_nat (rank (Logcat.minLevel s))));
      split; try discriminate; try reflexivity; lia.
Qed.

(** The theorem at a full buffer of capacity two, with minimum level I
    and the filter "mytag": an entry of level I with tag "MyTag" is
    retained and evicts the oldest. *)
Lemma filter_pipeline_witness :
  (0 <= maxEntries (setFilter (setMinLevel
          (addEntries (new 2) [sample_entry 1; sample_entry 2]) I)
          (Some (str "mytag"))))%Z /\
  (Z.of_nat (length (entries (setFilter (setMinLevel
          (addEntries (new 2) [sample_entry 1; sample_entry 2]) I)
          (Some (str "mytag")))))
   <= maxEntries (setFilter (setMinLevel
          (addEntries (new 2) [sample_entry 1; sample_entry 2]) I)
          (Some (str "mytag"))))%Z /\
  entries (addEntry (setFilter (setMinLevel
          (addEntries (new 2) [sample_entry 1; sample_entry 2]) I)
          (Some (str "mytag"))) (sample_entry 3))
    = [sample_entry 2; sample_entry 3].
Proof.
  set (p := setFilter (setMinLevel
          (addEntries (new 2) [sample_entry 1; sample_entry 2]) I)
          (Some (str "mytag"))).
  assert (H1 : (0 <= maxEntries p)%Z) by (vm_compute; discriminate).
  assert (H2 : (Z.of_nat (length (entries p)) <= maxEntries p)%Z)
    by (vm_compute; discriminate).
  assert (H3 : retained (minLevel p) (filter p) (sample_entry 3)).
  { split; [vm_compute; lia|]. left. now exists [], []. }
  split; [exact H1|]. split; [exact H2|].
  exact (proj1 (proj2 (proj1 (@filter_pipeline p (sample_entry 3) H1 H2)) H3)).
Defined.

End EntryBuffer.

(** ** The command executor *)

Section Executor.
Import JS Types AdbClient Spec.

Variable T : N.

Lemma run_app (c : call) (evs1 evs2 : list event) :
  run T c (evs1 ++ evs2) = run T (run T c evs1) evs2.
Proof. apply fold_left_app. Qed.

Lemma run_data (evs : list event) : forall c : call,
  Forall is_data evs ->
  run T c evs =
    {| out := out c ++ stdout_of evs; err := err c ++ stderr_of evs;
       killed := killed c; timer := timer c; promise := promise c;
       signals := signals c |}.
Proof.
  induction evs as [|ev evs IH]; intros c Hd.
  - simpl. rewrite !app_nil_r. now destruct c.
  - inversion Hd as [|? ? Hev Hd']; subst. simpl.
    change (fold_left (step T) evs (step T c ev)) with (run T (step T c ev) evs).
    rewrite IH by assumption.
    destruct ev; simpl in Hev; try contradiction; simpl;
      now rewrite <- ?app_assoc, ?app_nil_r.
Qed.

Lemma step_settled (c : call) (ev : event) :
  settled (promise c) -> promise (step T c ev) = promise c.
Proof.
  unfold settled. intros H.
  destruct ev; simpl; try reflexivity;
    destruct (promise c) eqn:E; try congruence;
    destruct (timer c), (killed c); simpl; rewrite ?E; reflexivity.
Qed.

Lemma run_settled (evs : list event) : forall c : call,
  settled (promise c) -> promise (run T c evs) = promise c.
Proof.
  induction evs as [|ev evs IH]; intros c H; simpl; [reflexivity|].
  change (fold_left (step T) evs (step T c ev)) with (run T (step T c ev) evs).
  rewrite IH.
  - now apply step_settled.
  - unfold settled. now rewrite step_settled.
Qed.

Lemma watchdog_inv_step (c : call) (ev : event) :
  watchdog_inv T c -> watchdog_inv T (step T c ev).
Proof.
  unfold watchdog_inv. intros H.
  destruct ev; simpl; try assumption.
  - destruct (killed c) eqn:K.
    + destruct H as (Hp & Hs & Ht). now rewrite Hp.
    + destruct H as (Hs & Hp & Ht). repeat split; try assumption; try discriminate.
      destruct (promise c); simpl; congruence.
  - destruct (killed c) eqn:K.
    + destruct H as (Hp & Hs & Ht). now rewrite Hp.
    + destruct H as (Hs & Hp & Ht). repeat split; try assumption; try discriminate.
      destruct (promise c); simpl; congruence.
  - destruct (timer c) eqn:Tm; simpl; [|rewrite Tm; exact H].
    destruct (killed c) eqn:K.
    + destruct H as (_ & _ & Ht). discriminate.
    + destruct H as (Hs & _ & Hp). rewrite Hs, (Hp eq_refl). now simpl.
Qed.

Lemma watchdog_inv_run (evs : list event) : forall c : call,
  watchdog_inv T c -> watchdog_inv T (run T c evs).
Proof.
  induction evs as [|ev evs IH]; intros c H; simpl; [assumption|].
  apply IH. now apply watchdog_inv_step.
Qed.

Lemma watchdog_inv_spawned : watchdog_inv T spawned.
Proof. unfold watchdog_inv; simpl. repeat split; discriminate. Qed.

End Executor.

Section ExecutorClaims.
Import JS Types AdbClient Spec.

Lemma rejected_timeout_signals (T : N) (c : call) :
  watchdog_inv T c ->
  (promise c = Rejected (TimeoutError T) <-> signals c = [str "SIGTERM"]) /\
  (promise c <> Rejected (TimeoutError T) -> signals c = []).
Proof.
  unfold watchdog_inv. destruct (killed c).
  - intros (Hp & Hs & _). split; [tauto | congruence].
  - intros (Hs & Hp & _). split; [|tauto].
    split; [congruence | rewrite Hs; discriminate].
Qed.

Lemma ends_data (evs : list event) : Forall is_data evs -> existsb ends evs = false.
Proof.
  induction 1 as [|ev evs Hev _ IH]; [reflexivity|].
  cbn [existsb]. rewrite IH. now destruct ev.
Qed.

(** C3 (amended).  Timeout atomicity.  Take a call of [exec] with timeout [T]
    during which nothing but output arrives before the watchdog fires
    (the command does not complete within [T]).  Then (1) when the
    watchdog has run, the promise is rejected with the timeout error and
    SIGTERM has been sent to the subprocess; (2) whatever is delivered
    afterwards (the close of the killed process, late output, an error),
    the promise stays rejected with the timeout error, no result is
    returned, and no further signal is sent; (3) in every state that any
    sequence of events can reach, the promise is rejected with the
    timeout error exactly when SIGTERM has been sent, so that no
    observer sees one effect without the other; (4) [exec], as its
    callers see it, returns that rejection; (5) that one SIGTERM is all
    the call does about the subprocess: it neither waits for it to end
    nor sends anything more, so the subprocess is left running exactly
    when the program handles SIGTERM and has not ended by itself; with
    the default disposition it is not left running. *)
Theorem timeout_atomicity (T : N) (before after : list event) :
  Forall is_data before ->
  let fired := run T spawned (before ++ [TimerFired]) in
  (promise fired = Rejected (TimeoutError T) /\
   signals fired = [str "SIGTERM"]) /\
  (promise (run T fired after) = Rejected (TimeoutError T) /\
   signals (run T fired after) = [str "SIGTERM"]) /\
  (forall evs : list event,
     let c := run T spawned evs in
     (promise c = Rejected (TimeoutError T) <-> signals c = [str "SIGTERM"]) /\
     (promise c <> Rejected (TimeoutError T) -> signals c = [])) /\
  (forall (World : Type) (os : jsstring -> list jsstring -> World -> list event * World)
          (client : AdbClient) (args : list jsstring) (options : ExecOptions)
          (m : machine World) (w' : World),
     effective_timeout client options = T ->
     os (adbPath client) (fullArgs args options) (world m)
       = (before ++ TimerFired :: after, w') ->
     fst (exec os client args options m) = Rejected (TimeoutError T)) /\
  (forall d : disposition,
     left_running d (before ++ TimerFired :: after)
                  (run T spawned (before ++ TimerFired :: after)) = true
     <-> d = Handled /\ existsb ends after = false).
Proof.
  intros Hd fired.
  assert (Hf : promise fired = Rejected (TimeoutError T) /\
               signals fired = [str "SIGTERM"]).
  { unfold fired. rewrite run_app, (@run_data T before spawned Hd). now simpl. }
  assert (Ha : forall l, promise (run T fired l) = Rejected (TimeoutError T)).
  { intros l. rewrite run_settled; [apply Hf|].
    unfold settled. destruct Hf as [-> _]. discriminate. }
  assert (Hi : forall evs, watchdog_inv T (run T spawned evs)).
  { intros evs. apply watchdog_inv_run, watchdog_inv_spawned. }
  assert (Hsig : signals (run T fired after) = [str "SIGTERM"]).
  { pose proof (Ha after) as Hp. unfold fired in *. rewrite <- run_app in *.
    now apply (proj1 (@rejected_timeout_signals T _ (Hi _))). }
  split; [exact Hf|]. split; [|split; [|split]].
  - split; [apply Ha | exact Hsig].
  - intros evs c. apply (@rejected_timeout_signals T _ (Hi evs)).
  - intros World os client args options m w' HT Hos.
    unfold exec. rewrite Hos, HT. simpl fst.
    change (before ++ TimerFired :: after) with (before ++ [TimerFired] ++ after).
    rewrite app_assoc, run_app. apply Ha.
  - intros d. unfold left_running.
    change (before ++ TimerFired :: after) with (before ++ [TimerFired] ++ after).
    rewrite app_assoc, run_app. fold fired. rewrite Hsig.
    rewrite <- app_assoc, !existsb_app, (ends_data Hd). cbn [existsb ends orb].
    destruct d, (existsb ends after); cbn; split;
      try discriminate; try tauto; intros [? ?]; discriminate.
Qed.

Lemma timeout_atomicity_witness :
  Forall is_data [StdoutData (str "List of")] /\
  promise (run 30000 spawned
             ([StdoutData (str "List of")] ++ [TimerFired] ++ [ProcClose None]))
    = Rejected (TimeoutError 30000).
Proof.
  assert (Hd : Forall is_data [StdoutData (str "List of")])
    by (repeat constructor).
  split; [exact Hd|].
  destruct (@timeout_atomicity 30000 [StdoutData (str "List of")]
              [ProcClose None] Hd) as (_ & (Hp & _) & _).
  exact Hp.
Defined.

(** The claim as it stands has the subprocess not left running after
    the timeout.  A program that handles SIGTERM carries on: the call
    is rejected with the timeout error and has sent its one signal,
    nothing has closed, and the subprocess still writes. *)
Lemma timeout_atomicity_counterexample :
  promise (run 30000 spawned
             [StdoutData (str "working"); TimerFired; StdoutData (str "still working")])
    = Rejected (TimeoutError 30000) /\
  signals (run 30000 spawned
             [StdoutData (str "working"); TimerFired; StdoutData (str "still working")])
    = [str "SIGTERM"] /\
  left_running Handled
    [StdoutData (str "working"); TimerFired; StdoutData (str "still working")]
    (run 30000 spawned
       [StdoutData (str "working"); TimerFired; StdoutData (str "still working")])
    = true.
Proof. repeat split. Qed.

(** C9.  A null exit code is reported as 0.  If the subprocess closes
    with a null exit code (it was ended by a signal) after any amount of
    output and before the watchdog has fired, the promise of [exec] is
    fulfilled with [exitCode = 0] and the output collected so far: the
    very result of a run that exited with code 0.  Nothing delivered
    afterwards changes it, and [exec] returns it to its caller. *)
Theorem null_exit_code_is_zero (T : N) (before after : list event) :
  Forall is_data before ->
  let result := {| exitCode := 0;
                   stdout := stdout_of before;
                   stderr := stderr_of before |} in
  promise (run T spawned (before ++ ProcClose None :: after)) = Fulfilled result /\
  promise (run T spawned (before ++ ProcClose (Some 0%Z) :: after)) = Fulfilled result /\
  (forall (World : Type) (os : jsstring -> list jsstring -> World -> list event * World)
          (client : AdbClient) (args : list jsstring) (options : ExecOptions)
          (m : machine World) (w' : World),
     effective_timeout client options = T ->
     os (adbPath client) (fullArgs args options) (world m)
       = (before ++ ProcClose None :: after, w') ->
     fst (exec os client args options m) = Fulfilled result).
Proof.
  intros Hd result.
  assert (H : forall code,
            match code with Some n => n | None => 0%Z end = 0%Z ->
            promise (run T spawned (before ++ ProcClose code :: after))
              = Fulfilled result).
  { intros code Hc.
    change (before ++ ProcClose code :: after)
      with (before ++ [ProcClose code] ++ after).
    rewrite run_app, (@run_data T before spawned Hd), run_app.
    rewrite run_settled; simpl; rewrite Hc; [reflexivity | discriminate]. }
  split; [now apply H | split; [now apply H |]].
  intros World os client args options m w' HT Hos.
  unfold exec. rewrite Hos, HT. simpl fst. now apply H.
Qed.

Lemma null_exit_code_is_zero_witness :
  Forall is_data [StdoutData (str "partial"); StderrData (str "warn")] /\
  promise (run 30000 spawned
             ([StdoutData (str "partial"); StderrData (str "warn")]
                ++ ProcClose None :: []))
    = Fulfilled {| exitCode := 0; stdout := str "partial"; stderr := str "warn" |}.
Proof.
  assert (Hd : Forall is_data [StdoutData (str "partial"); StderrData (str "warn")])
    by (repeat constructor).
  split; [exact Hd|].
  destruct (@null_exit_code_is_zero 30000
              [StdoutData (str "partial"); StderrData (str "warn")] [] Hd)
    as (Hp & _).
  exact Hp.
Defined.

End ExecutorClaims.

(** ** Lines and chunks *)

Section Lines.
Import JS Spec.

Variable sep : ascii.

Lemma split_not_nil (s : jsstring) : split sep s <> [].
Proof.
  destruct s as [|c s]; simpl; [discriminate|].
  destruct (Ascii.eqb c sep); [discriminate|].
  destruct (split sep s); discriminate.
Qed.

Lemma split_no_sep (s : jsstring) : ~ In sep s -> split sep s = [s].
Proof.
  induction s as [|c s IH]; simpl; intros H; [reflexivity|].
  destruct (Ascii.eqb_spec c sep) as [->|Hc]; [tauto|].
  rewrite IH by tauto. reflexivity.
Qed.

Lemma split_line (l s : jsstring) :
  ~ In sep l -> split sep (l ++ sep :: s) = l :: split sep s.
Proof.
  induction l as [|c l IH]; simpl; intros H.
  - now rewrite Ascii.eqb_refl.
  - destruct (Ascii.eqb_spec c sep) as [->|Hc]; [tauto|].
    rewrite IH by tauto. reflexivity.
Qed.

Lemma split_pieces (s : jsstring) : Forall (fun l => ~ In sep l) (split sep s).
Proof.
  induction s as [|c s IH]; simpl.
  - repeat constructor. intros [].
  - destruct (Ascii.eqb_spec c sep) as [->|Hc].
    + constructor; [intros [] | assumption].
    + destruct (split sep s) as [|h t]; inversion IH; subst;
        constructor; try assumption; simpl; intuition congruence.
Qed.

End Lines.

Section Chunks.
Import JS Types Logcat Spec.

Lemma split_unlines (ls : list jsstring) (frag : jsstring) :
  Forall one_line ls -> one_line frag ->
  split newline (unlines ls ++ frag) = ls ++ [frag].
Proof.
  intros Hls Hf. induction Hls as [|l ls Hl Hls IH]; simpl.
  - now apply split_no_sep.
  - rewrite <- !app_assoc. simpl. rewrite split_line by assumption.
    now rewrite IH.
Qed.

(** Every text is, in exactly one way, a run of complete lines followed
    by a fragment without newline. *)
Lemma unlines_exists (s : jsstring) :
  exists ls frag, s = unlines ls ++ frag /\ Forall one_line ls /\ one_line frag.
Proof.
  induction s as [|c s (ls & frag & -> & Hls & Hf)].
  - exists [], []. repeat split; [constructor | intros []].
  - destruct (Ascii.eqb_spec c newline) as [->|Hc].
    + exists ([] :: ls), frag. repeat split; try assumption.
      constructor; [intros [] | assumption].
    + destruct ls as [|l ls].
      * exists [], (c :: frag). repeat split; [constructor|].
        simpl. unfold one_line in *. simpl in *. intuition congruence.
      * exists ((c :: l) :: ls), frag. inversion Hls; subst.
        repeat split; try assumption.
        constructor; [|assumption].
        unfold one_line in *. simpl. intuition congruence.
Qed.

Lemma unlines_unique (ls ls' : list jsstring) (frag frag' : jsstring) :
  Forall one_line ls -> one_line frag ->
  Forall one_line ls' -> one_line frag' ->
  unlines ls ++ frag = unlines ls' ++ frag' ->
  ls = ls' /\ frag = frag'.
Proof.
  intros H1 H2 H3 H4 E.
  apply (f_equal (split newline)) in E.
  rewrite !split_unlines in E by assumption.
  now apply app_inj_tail.
Qed.

Lemma unlines_app (ls1 ls2 : list jsstring) :
  unlines (ls1 ++ ls2) = unlines ls1 ++ unlines ls2.
Proof. apply flat_map_app. Qed.

Lemma count_unlines (ls : list jsstring) (frag : jsstring) :
  Forall one_line ls -> one_line frag ->
  count_occ ascii_dec (unlines ls ++ frag) newline = length ls.
Proof.
  intros Hls Hf. induction Hls as [|l ls Hl _ IH]; simpl.
  - now apply count_occ_not_In.
  - rewrite <- !app_assoc, !count_occ_app, <- count_occ_app. simpl.
    destruct (ascii_dec newline newline); [|congruence].
    rewrite IH. apply (count_occ_not_In ascii_dec) in Hl. now rewrite Hl.
Qed.

Lemma set_buffer_id (t : LogcatStream) : set_buffer t (buffer t) = t.
Proof. now destruct t. Qed.

Lemma handleData_unlines (cy : N) (t : LogcatStream) (data : jsstring)
      (ls : list jsstring) (frag : jsstring) :
  Forall one_line ls -> one_line frag ->
  buffer t ++ data = unlines ls ++ frag ->
  handleData cy t data = (set_buffer t frag, flat_map (handleLine cy t) ls).
Proof.
  intros Hls Hf E. unfold handleData. rewrite E, split_unlines by assumption.
  now rewrite last_last, removelast_last.
Qed.

(** The buffer never holds a newline once the data handler has run. *)
Lemma handleData_one_line (cy : N) (t : LogcatStream) (data : jsstring) :
  one_line (buffer (fst (handleData cy t data))).
Proof.
  unfold handleData. cbn [fst set_buffer buffer].
  pose proof (split_pieces "010" (buffer t ++ data)) as H.
  pose proof (split_not_nil "010" (buffer t ++ data)) as Hne.
  destruct (exists_last Hne) as (ls & frag & E). rewrite E in H |- *.
  rewrite last_last. apply Forall_app in H as [_ H]. now inversion H.
Qed.

Lemma feed_unlines (cy : N) (chunks : list jsstring) :
  forall (t : LogcatStream) (ls : list jsstring) (frag : jsstring),
  one_line (buffer t) ->
  Forall one_line ls -> one_line frag ->
  buffer t ++ concat chunks = unlines ls ++ frag ->
  feed cy t chunks = (set_buffer t frag, flat_map (handleLine cy t) ls).
Proof.
  induction chunks as [|data chunks IH]; intros t ls frag Hb Hls Hf E.
  - simpl in E. rewrite app_nil_r in E.
    destruct (@unlines_unique [] ls (buffer t) frag) as [<- <-];
      try assumption; [constructor|].
    simpl. now rewrite set_buffer_id.
  - simpl in E. rewrite app_assoc in E.
    destruct (unlines_exists (buffer t ++ data)) as (ls1 & frag1 & E1 & Hls1 & Hf1).
    destruct (unlines_exists (frag1 ++ concat chunks)) as (ls2 & frag2 & E2 & Hls2 & Hf2).
    assert (Eall : unlines ls ++ frag = unlines (ls1 ++ ls2) ++ frag2).
    { rewrite <- E, E1, unlines_app, <- !app_assoc. now rewrite E2. }
    apply unlines_unique in Eall as [-> ->]; try assumption;
      [|apply Forall_app; now split].
    cbn [feed]. rewrite (handleData_unlines cy t data Hls1 Hf1 E1).
    rewrite (IH (set_buffer t frag1) ls2 frag2); try assumption.
    now rewrite flat_map_app.
Qed.

End Chunks.

Section StreamClaims.
Import JS Types Logcat Spec.

(** C4 (the code departs from the claim).  After [stop()] followed by
    [start()] on the same stream the partial-line buffer still holds the
    fragment of the stopped session, and the first line of the new
    session is processed with that fragment in front of it: the entry
    emitted carries the pid and tag of the old fragment and a message
    made of both. *)
Theorem restart_keeps_partial_line :
  exists t : LogcatStream,
    restarted = inr (t, [Spawn {| command := str "adb";
                                  argv := [str "logcat"; str "-v"; str "threadtime"] |};
                         Emit StartEvent]) /\
    buffer t = dangling /\
    handleData 2026 t (str "01-10 12:35:00.000  4321  8765 I Other: fresh" ++ [newline])
    = (set_buffer t [],
       [EntryEvent
          {| timestamp := str "2026-01-10T12:34:56.789";
             pid := Num 1234;
             tid := Num 5678;
             level := D;
             tag := str "MyTag";
             message := str "Hel01-10 12:35:00.000  4321  8765 I Other: fresh" |}]).
Proof.
  eexists. split; [reflexivity|]. split; [reflexivity|]. vm_compute. reflexivity.
Qed.

(** The service never restarts a stream: each [startLogcat] builds a new
    one, whose buffer is empty. *)
Lemma startLogcat_fresh_buffer (svc svc' : AdbService.streams) (adbPath : jsstring)
      (serial : option jsstring) (tags : option (list jsstring))
      (effects : list effect) :
  AdbService.startLogcat svc adbPath serial tags = inr (svc', effects) ->
  exists t, AdbService.logcatStream svc' = Some t /\ buffer t = [] /\ isRunning t = true.
Proof.
  unfold AdbService.startLogcat. simpl. intros H. injection H as <- _.
  eexists. now repeat split.
Qed.

End StreamClaims.

(** ** The device listing *)

Section Tokenizer.
Import JS Spec.

Lemma dropWhile_all (p : ascii -> bool) (w s : jsstring) :
  Forall (fun c => p c = true) w -> dropWhile p (w ++ s) = dropWhile p s.
Proof.
  induction 1 as [|c w Hc Hw IH]; simpl; [reflexivity|]. now rewrite Hc.
Qed.

Lemma dropWhile_stop (p : ascii -> bool) (c : ascii) (s : jsstring) :
  p c = false -> dropWhile p (c :: s) = c :: s.
Proof. intros H. simpl. now rewrite H. Qed.

Lemma token_head (t : jsstring) :
  token t -> exists c t', t = c :: t' /\ is_space c = false.
Proof.
  intros [Hne Hall]. destruct t as [|c t']; [congruence|].
  inversion Hall; subst. now exists c, t'.
Qed.

Lemma token_last (t : jsstring) :
  token t -> exists t' c, t = t' ++ [c] /\ is_space c = false.
Proof.
  intros [Hne Hall]. destruct (exists_last Hne) as (t' & c & ->).
  apply Forall_app in Hall as [_ Hc]. inversion Hc; subst. now exists t', c.
Qed.

Lemma body_last (pairs : list (jsstring * jsstring)) : forall t0 : jsstring,
  token t0 -> pairs_ok pairs ->
  exists a c, t0 ++ glue pairs = a ++ [c] /\ is_space c = false.
Proof.
  induction pairs as [|[w t] pairs IH]; intros t0 Ht0 Hp; simpl.
  - rewrite app_nil_r. now apply token_last.
  - inversion Hp as [|? ? (_ & _ & Ht) Hp']; subst. simpl in Ht.
    destruct (IH t Ht Hp') as (a & c & E & Hc).
    exists (t0 ++ w ++ a), c. split; [|assumption].
    rewrite E. now rewrite <- !app_assoc.
Qed.

Lemma trim_blank (w : jsstring) : blank w -> trim w = [].
Proof.
  intros H. unfold trim, trimStart.
  rewrite <- (app_nil_r w), dropWhile_all by assumption. reflexivity.
Qed.

Lemma trim_body (w0 body wn : jsstring) :
  blank w0 -> blank wn ->
  (exists c b, body = c :: b /\ is_space c = false) ->
  (exists a c, body = a ++ [c] /\ is_space c = false) ->
  trim (w0 ++ body ++ wn) = body.
Proof.
  intros H0 Hn (c & b & E1 & Hc) (a & c' & E2 & Hc').
  unfold trim, trimStart, trimEnd.
  rewrite dropWhile_all by assumption.
  assert (Hs : dropWhile is_space (body ++ wn) = body ++ wn).
  { rewrite E1. simpl. now rewrite Hc. }
  rewrite Hs, rev_app_distr.
  rewrite dropWhile_all by (apply Forall_rev; assumption).
  rewrite E2, rev_app_distr. simpl app.
  rewrite dropWhile_stop by assumption.
  simpl. now rewrite rev_involutive.
Qed.

Lemma split_spaces_not_nil (s : jsstring) : split_spaces s <> [].
Proof.
  induction s as [|c s IH]; simpl; [discriminate|].
  destruct (is_space c).
  - destruct s as [|c' s']; [discriminate|].
    destruct (is_space c'); [assumption | discriminate].
  - destruct (split_spaces s); discriminate.
Qed.

Lemma split_spaces_token (t s : jsstring) :
  Forall (fun c => is_space c = false) t ->
  split_spaces (t ++ s) =
    match split_spaces s with
    | h :: r => (t ++ h) :: r
    | [] => [t]
    end.
Proof.
  pose proof (split_spaces_not_nil s) as Hne.
  induction 1 as [|c t Hc Ht IH]; simpl.
  - now destruct (split_spaces s).
  - rewrite Hc, IH. now destruct (split_spaces s).
Qed.

Lemma split_spaces_space (x : ascii) (s : jsstring) :
  is_space x = true ->
  split_spaces (x :: s) =
    match s with
    | c' :: _ => if is_space c' then split_spaces s else [] :: split_spaces s
    | [] => [] :: split_spaces s
    end.
Proof. intros H. destruct s; simpl; now rewrite H. Qed.

Lemma split_spaces_gap (w : jsstring) (c : ascii) (s : jsstring) :
  blank w -> w <> [] -> is_space c = false ->
  split_spaces (w ++ c :: s) = [] :: split_spaces (c :: s).
Proof.
  intros Hw Hne Hc. induction Hw as [|x w Hx Hw IH]; [congruence|].
  destruct w as [|y w].
  - simpl app. rewrite split_spaces_space by assumption. now rewrite Hc.
  - change ((x :: y :: w) ++ c :: s) with (x :: (y :: w) ++ c :: s).
    rewrite split_spaces_space by assumption.
    inversion Hw as [|? ? Hy _]; subst. cbn [app]. rewrite Hy.
    apply IH. discriminate.
Qed.

Lemma split_spaces_glue (pairs : list (jsstring * jsstring)) :
  pairs_ok pairs ->
  split_spaces (glue pairs) =
    match pairs with
    | [] => [[]]
    | _ :: _ => [] :: map snd pairs
    end.
Proof.
  induction 1 as [|[w t] pairs (Hne & Hw & Ht) Hp IH]; [reflexivity|].
  simpl in *. destruct (token_head Ht) as (c & t' & -> & Hc).
  change ((c :: t') ++ glue pairs) with (c :: (t' ++ glue pairs)).
  rewrite split_spaces_gap by assumption.
  change (c :: (t' ++ glue pairs)) with ((c :: t') ++ glue pairs).
  rewrite split_spaces_token by apply Ht.
  rewrite IH. destruct pairs; [now rewrite app_nil_r | now rewrite app_nil_r].
Qed.

Lemma split_spaces_trim (line : jsstring) (toks : list jsstring) :
  Tokens line toks ->
  split_spaces (trim line) =
    match toks with
    | [] => [[]]
    | _ :: _ => toks
    end.
Proof.
  intros [w Hw | w0 t0 pairs wn H0 Ht0 Hp Hn].
  - now rewrite trim_blank.
  - replace (w0 ++ t0 ++ glue pairs ++ wn) with (w0 ++ (t0 ++ glue pairs) ++ wn)
      by now rewrite <- !app_assoc.
    rewrite trim_body; try assumption.
    + rewrite split_spaces_token by apply Ht0.
      rewrite split_spaces_glue by assumption.
      destruct pairs; now rewrite app_nil_r.
    + destruct (token_head Ht0) as (c & t' & -> & Hc). now exists c, (t' ++ glue pairs).
    + now apply body_last.
Qed.

Lemma trim_tokens_truthy (line : jsstring) (toks : list jsstring) :
  Tokens line toks -> truthy (trim line) = match toks with [] => false | _ => true end.
Proof.
  intros [w Hw | w0 t0 pairs wn H0 Ht0 Hp Hn].
  - now rewrite trim_blank.
  - replace (w0 ++ t0 ++ glue pairs ++ wn) with (w0 ++ (t0 ++ glue pairs) ++ wn)
      by now rewrite <- !app_assoc.
    destruct (token_head Ht0) as (c & t' & -> & Hc).
    rewrite trim_body; try assumption; [reflexivity | |].
    + now exists c, (t' ++ glue pairs).
    + apply body_last; [|assumption]. split; [discriminate | apply Ht0].
Qed.

End Tokenizer.

Section DeviceClaims.
Import JS Types Devices Spec.

(** [split] by its first piece: the text before the first separator,
    then the pieces of what follows it. *)
Lemma split_first (sep : ascii) (s : jsstring) :
  split sep s =
    takeWhile (is_not_char sep) s ::
    match dropWhile (is_not_char sep) s with
    | [] => []
    | _ :: after => split sep after
    end.
Proof.
  induction s as [|c s IH]; [reflexivity|].
  cbn [split takeWhile dropWhile]. unfold is_not_char at 1 3.
  destruct (Ascii.eqb c sep); cbn [negb]; [reflexivity|].
  now rewrite IH.
Qed.

(** A token assigns the pair it denotes, and nothing else. *)
Lemma addProp_pair_of (props : Props) (tok : jsstring) :
  addProp props tok =
    match pair_of tok with
    | Some (key, value) => set props key value
    | None => props
    end.
Proof.
  unfold addProp, pair_of. rewrite (split_first ":" tok).
  destruct (dropWhile (is_not_char ":") tok) as [|c after].
  - now destruct (takeWhile (is_not_char ":") tok).
  - rewrite (split_first ":" after).
    destruct (takeWhile (is_not_char ":") tok) as [|k key];
      destruct (takeWhile (is_not_char ":") after) as [|v value]; reflexivity.
Qed.

Lemma field_own (props : Props) (key : jsstring) : field props key = own props key.
Proof.
  unfold field, get. destruct (own props key); [reflexivity|].
  now destruct (inherited key).
Qed.

(** For a name that [Object.prototype] does not supply, the optional
    field is what the object reads: the string assigned or [undefined].
    The names the sources read are such names. *)
Lemma field_plain (props : Props) (key : jsstring) :
  inherited key = false ->
  get props key = match field props key with
                  | Some v => Value v
                  | None => Undefined
                  end.
Proof.
  intros H. unfold field, get. destruct (own props key); [reflexivity|].
  now rewrite H.
Qed.

Lemma names_read_plain :
  Forall (fun key => inherited key = false)
         [str "model"; str "product"; str "device"; str "transport_id";
          str "ro.product.model"; str "ro.product.name"].
Proof. repeat constructor. Qed.

Lemma own_set (props : Props) (key value other : jsstring) :
  other <> str "__proto__" ->
  own (set props key value) other =
    if JS.eqb key other then Some value else own props other.
Proof.
  intros Hne. unfold set, JS.eqb.
  destruct (list_eq_dec ascii_dec key (str "__proto__")) as [->|_]; [|reflexivity].
  destruct (list_eq_dec ascii_dec (str "__proto__") other); congruence.
Qed.

(** The own property of a name after a run of tokens is the value of
    the last token that denotes a pair with that name. *)
Lemma own_tokens (key : jsstring) (toks : list jsstring) :
  key <> str "__proto__" ->
  forall props : Props,
  own (fold_left addProp toks props) key =
    fold_left (fun acc tok =>
                 match pair_of tok with
                 | Some (k, v) => if JS.eqb k key then Some v else acc
                 | None => acc
                 end)
              toks (own props key).
Proof.
  intros Hne. induction toks as [|tok toks IH]; intros props; [reflexivity|].
  cbn [fold_left]. rewrite IH. f_equal.
  rewrite addProp_pair_of. destruct (pair_of tok) as [[k v]|]; [|reflexivity].
  now apply own_set.
Qed.

Lemma field_tokens (key : jsstring) (toks : list jsstring) :
  key <> str "__proto__" ->
  field (fold_left addProp toks []) key = latest key toks.
Proof. intros Hne. rewrite field_own. now apply own_tokens. Qed.

Lemma parseDeviceLine_tokens (line : jsstring) (toks : list jsstring) :
  Tokens line toks ->
  parseDeviceLine line =
    match toks with
    | serial :: state :: rest => Some (device_of serial state rest)
    | _ => None
    end.
Proof.
  intros H. unfold parseDeviceLine. rewrite (split_spaces_trim H).
  destruct toks as [|serial [|state rest]]; try reflexivity.
  cbn [length Nat.ltb Nat.leb nth skipn]. unfold device_of.
  now rewrite !field_tokens by discriminate.
Qed.

Lemma devicesOfLine_tokens (line : jsstring) (toks : list jsstring) :
  startsWith line (str "List of devices") = false ->
  Tokens line toks ->
  devicesOfLine line =
    match toks with
    | serial :: state :: rest => [device_of serial state rest]
    | _ => []
    end.
Proof.
  intros Hh H. unfold devicesOfLine.
  rewrite Hh, (trim_tokens_truthy H), (parseDeviceLine_tokens H).
  destruct toks as [|serial [|state rest]]; reflexivity.
Qed.

Lemma addProp_pair (props : Props) (key value tail : jsstring) :
  no_colon key -> no_colon value ->
  tail = [] \/ (exists x, tail = ":"%char :: x) ->
  addProp props (key ++ ":"%char :: value ++ tail) =
    if truthy key && truthy value then set props key value else props.
Proof.
  intros Hk Hv Ht. unfold addProp. rewrite split_line by assumption.
  destruct Ht as [-> | [x ->]].
  - rewrite app_nil_r, split_no_sep by assumption. reflexivity.
  - rewrite split_line by assumption. reflexivity.
Qed.

Lemma addProp_no_colon (props : Props) (part : jsstring) :
  no_colon part -> addProp props part = props.
Proof. intros H. unfold addProp. now rewrite split_no_sep. Qed.

Lemma get_set (props : Props) (key value other : jsstring) :
  (key <> str "__proto__" -> get (set props key value) key = Value value) /\
  (other <> key -> get (set props key value) other = get props other) /\
  set props (str "__proto__") value = props.
Proof.
  unfold get. split; [|split].
  - intros Hne. rewrite (own_set _ _ _ Hne). unfold JS.eqb.
    destruct (list_eq_dec ascii_dec key key); congruence.
  - intros Hne. unfold set, JS.eqb.
    destruct (list_eq_dec ascii_dec key (str "__proto__")); [reflexivity|].
    cbn [own]. unfold JS.eqb.
    destruct (list_eq_dec ascii_dec key other); congruence.
  - reflexivity.
Qed.

Lemma isEmulator_spec (line : jsstring) (d : Device) :
  parseDeviceLine line = Some d ->
  (isEmulator d = true <->
   (exists x, Types.serial d = str "emulator-" ++ x) \/
   Contains (Types.serial d) (str ":5555")).
Proof.
  unfold parseDeviceLine.
  destruct (length (split_spaces (trim line)) <? 2); [discriminate|].
  intros H. injection H as <-. cbn [isEmulator Types.serial].
  now rewrite orb_true_iff, startsWith_spec, includes_spec.
Qed.

(** C7 (amended).  Device listing parse.  (1) The listing is read line
    by line.  (2) A line that starts with the header text, and a line of
    white space only, yield no device.  (3) Any other line made of the
    tokens [toks] yields, when it has at least two tokens, the device
    whose serial is the first token and whose state is the second, and
    whose [model], [product], [device] and [transport_id] are the values
    of the last remaining token that denotes a pair with that key (a
    token [key:value], followed or not by further colon-separated text,
    with neither part empty; any other token counts for nothing); with
    fewer than two tokens it yields none.  (4) In the code, a token that
    denotes a pair assigns it and any other token assigns nothing; an
    assignment is read back under its key and leaves the other keys
    alone, the key [__proto__] apart, whose assignment does nothing.
    (5) [isEmulator] holds iff the serial starts with [emulator-] or
    contains the text [:5555] anywhere: every serial that denotes the
    default wireless port is one, but so is a serial in which that text
    is followed by more.  (6) The scenario line yields an emulator with
    model [sdk_gphone64_arm64]. *)
Theorem device_listing_parse :
  (forall (ls : list jsstring) (frag : jsstring),
     Forall one_line ls -> one_line frag ->
     parseDevices (unlines ls ++ frag) = flat_map devicesOfLine (ls ++ [frag])) /\
  (forall line : jsstring,
     (exists x, line = str "List of devices" ++ x) \/ blank line ->
     devicesOfLine line = []) /\
  (forall (line : jsstring) (toks : list jsstring),
     startsWith line (str "List of devices") = false ->
     Tokens line toks ->
     devicesOfLine line =
       match toks with
       | serial :: state :: rest => [device_of serial state rest]
       | _ => []
       end) /\
  (forall (props : Props) (key value tail : jsstring),
     no_colon key -> no_colon value ->
     tail = [] \/ (exists x, tail = ":"%char :: x) ->
     addProp props (key ++ ":"%char :: value ++ tail) =
       if truthy key && truthy value then set props key value else props) /\
  (forall (props : Props) (part : jsstring),
     no_colon part -> addProp props part = props) /\
  (forall (props : Props) (key value other : jsstring),
     (key <> str "__proto__" -> get (set props key value) key = Value value) /\
     (other <> key -> get (set props key value) other = get props other) /\
     set props (str "__proto__") value = props) /\
  (forall (line : jsstring) (d : Device),
     parseDeviceLine line = Some d ->
     (isEmulator d = true <->
      (exists x, Types.serial d = str "emulator-" ++ x) \/
      Contains (Types.serial d) (str ":5555")) /\
     (default_wireless_port (Types.serial d) -> isEmulator d = true)) /\
  parseDeviceLine scenario_line =
    Some {| Types.serial := str "emulator-5554";
            Types.state := str "device";
            model := Some (str "sdk_gphone64_arm64");
            product := Some (str "sdk_gphone64_arm64");
            device := Some (str "emu64a");
            transportId := Some (str "1");
            isEmulator := true |}.
Proof.
  repeat apply conj.
  - intros ls frag Hls Hf. unfold parseDevices.
    f_equal. exact (split_unlines Hls Hf).
  - intros line [[x ->] | Hb]; unfold devicesOfLine.
    + assert (H : startsWith (str "List of devices" ++ x) (str "List of devices") = true)
        by (apply startsWith_spec; now exists x).
      now rewrite H.
    + rewrite (trim_blank Hb). simpl. now rewrite orb_true_r.
  - apply devicesOfLine_tokens.
  - apply addProp_pair.
  - apply addProp_no_colon.
  - apply get_set.
  - intros line d H. split; [now apply isEmulator_spec with (line := line)|].
    intros [host Hs]. apply (isEmulator_spec line H). right.
    exists host, []. now rewrite app_nil_r.
  - reflexivity.
Qed.

(** The claim as it stands would have [isEmulator] decided by the
    emulator prefix and the default wireless port.  A device reached on
    port 55551 is neither, and is reported as an emulator. *)
Lemma device_listing_parse_counterexample :
  option_map isEmulator (parseDeviceLine (str "192.168.0.10:55551 device")) = Some true /\
  option_map Types.serial (parseDeviceLine (str "192.168.0.10:55551 device"))
    = Some (str "192.168.0.10:55551") /\
  ~ ((exists x, str "192.168.0.10:55551" = str "emulator-" ++ x) \/
     default_wireless_port (str "192.168.0.10:55551")).
Proof.
  split; [reflexivity|]. split; [reflexivity|].
  intros [[x H] | [host H]]; [discriminate|].
  apply (f_equal (@rev ascii)) in H. rewrite rev_app_distr in H.
  vm_compute in H. discriminate.
Qed.

(** C10.  The state is passed through.  For every listing line with at
    least two tokens the parser returns a device whose serial is the
    first token and whose state is the second token as it stands,
    whatever its text: no token is rejected or mapped to another
    state. *)
Theorem device_state_verbatim (line serial state : jsstring) (rest : list jsstring) :
  Tokens line (serial :: state :: rest) ->
  exists d : Device,
    parseDeviceLine line = Some d /\
    Types.state d = state /\
    Types.serial d = serial.
Proof.
  intros H. rewrite (parseDeviceLine_tokens H).
  exists (device_of serial state rest). now repeat split.
Qed.

Lemma device_state_verbatim_witness :
  Tokens (str "0a388e93 frobnicating usb:1-1") [str "0a388e93"; str "frobnicating"; str "usb:1-1"] /\
  exists d : Device,
    parseDeviceLine (str "0a388e93 frobnicating usb:1-1") = Some d /\
    Types.state d = str "frobnicating" /\
    Types.serial d = str "0a388e93".
Proof.
  assert (H : Tokens (str "0a388e93 frobnicating usb:1-1")
                     [str "0a388e93"; str "frobnicating"; str "usb:1-1"]).
  { apply (@Tokens_some [] (str "0a388e93")
             [(str " ", str "frobnicating"); (str " ", str "usb:1-1")] []).
    - constructor.
    - split; [discriminate | repeat constructor].
    - repeat constructor; discriminate.
    - constructor. }
  split; [exact H|].
  exact (device_state_verbatim H).
Defined.

End DeviceClaims.

(** ** Resolution of the device properties *)

Section Resolution.
Import JS Types AdbClient AdbService Spec.

Variable World : Type.
Variable os : jsstring -> list jsstring -> World -> list event * World.

(** A device that is not ready gets the basic fields at once, and no
    command is issued. *)
Lemma resolve_not_ready (client : AdbClient) (d : Device) (m : machine World) :
  state d <> str "device" ->
  resolveDevice os client d m = (Fulfilled (basicInfo d), m).
Proof.
  intros H. unfold resolveDevice, JS.eqb.
  destruct (list_eq_dec ascii_dec (state d) (str "device")); [contradiction|].
  reflexivity.
Qed.

(** A ready device for which one of the three queries is rejected gets
    the basic fields as well; the three commands have been issued. *)
Lemma resolve_rejected (client : AdbClient) (d : Device) (m : machine World) :
  state d = str "device" ->
  let '(r1, m1) := Devices.getDeviceName os client (Types.serial d) m in
  let '(r2, m2) := Devices.getApiLevel os client (Types.serial d) m1 in
  let '(r3, m3) := Devices.getAndroidVersion os client (Types.serial d) m2 in
  is_rejected r1 \/ is_rejected r2 \/ is_rejected r3 ->
  resolveDevice os client d m = (Fulfilled (basicInfo d), m3).
Proof.
  intros H. unfold resolveDevice, JS.eqb.
  destruct (list_eq_dec ascii_dec (state d) (str "device")); [|contradiction].
  cbn [negb]. unfold try_catch, bind at 1, all3.
  destruct (Devices.getDeviceName os client (Types.serial d) m) as [r1 m1].
  destruct (Devices.getApiLevel os client (Types.serial d) m1) as [r2 m2].
  destruct (Devices.getAndroidVersion os client (Types.serial d) m2) as [r3 m3].
  intros Hr. destruct r1, r2, r3; simpl in Hr; try tauto; reflexivity.
Qed.

Lemma basicInfo_fields (d : Device) :
  apiLevel (basicInfo d) = Num 0 /\
  androidVersion (basicInfo d) = str "Unknown" /\
  name (basicInfo d) = match model d with Some m => m | None => Types.serial d end.
Proof. now repeat split. Qed.

End Resolution.

Section ResolutionClaim.
Import JS Types AdbClient AdbService Spec.

(** C8 (the code departs from the claim).  The listing shows a ready
    device, and each of the three queries ends with exit code 1 and
    nothing on its standard output.  [exec] fulfils its promise all the
    same, so the listing succeeds with the three query results: the API
    level is [parseInt] of the empty text, NaN, which is neither an
    integer nor 0; the version is the empty text and the name the
    serial, not the model. *)
Theorem api_level_nan_when_query_prints_nothing :
  getDevices offline_os default_client boot =
    (Fulfilled
       [ {| base := {| Types.serial := str "emulator-5554";
                       Types.state := str "device";
                       model := Some (str "sdk_gphone64_arm64");
                       product := Some (str "sdk_gphone64_arm64");
                       device := Some (str "emu64a");
                       transportId := Some (str "1");
                       isEmulator := true |};
            name := str "emulator-5554";
            apiLevel := NaN;
            androidVersion := [] |} ],
     {| world := tt;
        issued :=
          [ [str "devices"; str "-l"];
            [str "-s"; str "emulator-5554"; str "shell"; str "getprop"];
            [str "-s"; str "emulator-5554"; str "shell";
             str "getprop ro.build.version.sdk"];
            [str "-s"; str "emulator-5554"; str "shell";
             str "getprop ro.build.version.release"] ] |}).
Proof. vm_compute. reflexivity. Qed.

End ResolutionClaim.

(** ** The matcher and the language of a pattern *)

Ltac splits := repeat match goal with |- _ /\ _ => split end.

Section Matcher.
Import JS Regex Spec.

Section Rep.
Variable R : Type.
Variable p : ascii -> bool.
Variable k : jsstring -> jsstring -> option R.

Lemma rep_exact_complete (pre : jsstring) : forall (post taken : jsstring),
  all p pre ->
  rep_exact p k (length pre) taken (pre ++ post) = k (taken ++ pre) post.
Proof.
  induction pre as [|c pre IH]; intros post taken Hp; simpl.
  - now rewrite (app_nil_r taken).
  - inversion Hp as [|? ? Hc Hp']; subst. rewrite Hc, IH by assumption.
    now rewrite <- app_assoc.
Qed.

Lemma rep_exact_sound (n : nat) : forall (taken s : jsstring) (r : R),
  rep_exact p k n taken s = Some r ->
  exists pre post,
    s = pre ++ post /\ all p pre /\ length pre = n /\ k (taken ++ pre) post = Some r.
Proof.
  induction n as [|n IH]; intros taken s r H; simpl in H.
  - exists [], s. rewrite (app_nil_r taken). repeat split; [constructor | assumption].
  - destruct s as [|c s]; [discriminate|].
    destruct (p c) eqn:Hc; [|discriminate].
    apply IH in H as (pre & post & -> & Hp & Hl & Hk).
    exists (c :: pre), post. rewrite <- app_assoc in Hk.
    splits; [reflexivity | now constructor | simpl; now rewrite Hl | assumption].
Qed.

Lemma rep_greedy_sound (s : jsstring) : forall (min : nat) (taken : jsstring) (r : R),
  rep_greedy p k min taken s = Some r ->
  exists pre post,
    s = pre ++ post /\ all p pre /\ min <= length pre /\ k (taken ++ pre) post = Some r.
Proof.
  induction s as [|c s IH]; intros min taken r H; simpl in H.
  - destruct min; [|discriminate].
    exists [], []. rewrite (app_nil_r taken).
    splits; [reflexivity | constructor | simpl; lia | assumption].
  - assert (Hhere : match min with 0 => k taken (c :: s) | Datatypes.S _ => None end = Some r ->
              exists pre post, c :: s = pre ++ post /\ all p pre /\
                min <= length pre /\ k (taken ++ pre) post = Some r).
    { destruct min; [|discriminate]. intros Hk.
      exists [], (c :: s). rewrite (app_nil_r taken).
      splits; [reflexivity | constructor | simpl; lia | assumption]. }
    destruct (p c) eqn:Hc; [|now apply Hhere].
    destruct (rep_greedy p k (pred min) (taken ++ [c]) s) as [r'|] eqn:E;
      [|now apply Hhere].
    injection H as ->.
    apply IH in E as (pre & post & -> & Hp & Hl & Hk).
    exists (c :: pre), post. rewrite <- app_assoc in Hk.
    splits; [reflexivity | now constructor | simpl; lia | assumption].
Qed.

Lemma rep_greedy_complete (pre : jsstring) : forall (post taken : jsstring) (min : nat),
  all p pre -> min <= length pre ->
  k (taken ++ pre) post <> None ->
  rep_greedy p k min taken (pre ++ post) <> None.
Proof.
  induction pre as [|c pre IH]; intros post taken min Hp Hl Hk.
  - simpl in Hl. replace min with 0 by lia. rewrite (app_nil_r taken) in Hk.
    destruct post as [|c s]; simpl; [assumption|].
    destruct (p c); [|assumption].
    destruct (rep_greedy p k 0 (taken ++ [c]) s); [discriminate | assumption].
  - inversion Hp as [|? ? Hc Hp']; subst. simpl. rewrite Hc.
    specialize (IH post (taken ++ [c]) (pred min) Hp').
    rewrite <- app_assoc in IH. simpl in Hl.
    destruct (rep_greedy p k (pred min) (taken ++ [c]) (pre ++ post));
      [discriminate|].
    exfalso. apply IH; [lia | assumption | reflexivity].
Qed.

Lemma rep_lazy_sound (s : jsstring) : forall (min : nat) (taken : jsstring) (r : R),
  rep_lazy p k min taken s = Some r ->
  exists pre post,
    s = pre ++ post /\ all p pre /\ min <= length pre /\ k (taken ++ pre) post = Some r.
Proof.
  induction s as [|c s IH]; intros min taken r H; simpl in H.
  - destruct min; [|discriminate].
    destruct (k taken []) eqn:Hk; [|discriminate]. injection H as ->.
    exists [], []. rewrite (app_nil_r taken).
    splits; [reflexivity | constructor | simpl; lia | assumption].
  - destruct (match min with 0 => k taken (c :: s) | Datatypes.S _ => None end) as [r'|] eqn:Hk.
    + injection H as ->. destruct min; [|discriminate].
      exists [], (c :: s). rewrite (app_nil_r taken).
      splits; [reflexivity | constructor | simpl; lia | assumption].
    + destruct (p c) eqn:Hc; [|discriminate].
      apply IH in H as (pre & post & -> & Hp & Hl & Hk').
      exists (c :: pre), post. rewrite <- app_assoc in Hk'.
      splits; [reflexivity | now constructor | simpl; lia | assumption].
Qed.

Lemma rep_lazy_complete (pre : jsstring) : forall (post taken : jsstring) (min : nat),
  all p pre -> min <= length pre ->
  k (taken ++ pre) post <> None ->
  rep_lazy p k min taken (pre ++ post) <> None.
Proof.
  induction pre as [|c pre IH]; intros post taken min Hp Hl Hk.
  - simpl in Hl. replace min with 0 by lia. rewrite (app_nil_r taken) in Hk.
    simpl. destruct post as [|c s]; simpl;
      destruct (k taken _); [discriminate | contradiction | discriminate | contradiction].
  - inversion Hp as [|? ? Hc Hp']; subst. simpl.
    destruct (match min with 0 => k taken (c :: pre ++ post) | Datatypes.S _ => None end);
      [discriminate|].
    rewrite Hc. apply IH; [assumption | simpl in Hl; lia |].
    now rewrite <- app_assoc.
Qed.

Lemma rep_sound (q : quant) (s : jsstring) (r : R) :
  rep p k q s = Some r ->
  exists pre post,
    s = pre ++ post /\ all p pre /\ quant_ok q (length pre) /\ k pre post = Some r.
Proof.
  destruct q as [n|min|min]; simpl; intros H.
  - now apply rep_exact_sound in H.
  - now apply rep_greedy_sound in H.
  - now apply rep_lazy_sound in H.
Qed.

Lemma rep_complete (q : quant) (pre post : jsstring) :
  all p pre -> quant_ok q (length pre) ->
  k pre post <> None ->
  rep p k q (pre ++ post) <> None.
Proof.
  destruct q as [n|min|min]; simpl; intros Hp Hq Hk.
  - subst n. now rewrite rep_exact_complete.
  - now apply rep_greedy_complete.
  - now apply rep_lazy_complete.
Qed.

End Rep.

Lemma exec_sound (r1 r2 : list item) :
  forall (st : mstate) (s : jsstring) (res : mstate * jsstring),
  exec (r1 ++ r2) st s = Some res ->
  exists st1 s1, Matches r1 st s st1 s1 /\ exec r2 st1 s1 = Some res.
Proof.
  induction r1 as [|it r1 IH]; intros st s res H.
  - now exists st, s.
  - destruct it as [| | | |p q]; simpl in H |- *.
    + destruct (pos st) eqn:Hp; [|discriminate].
      apply IH in H as (st1 & s1 & HM & HE). now exists st1, s1.
    + destruct s; [|discriminate].
      apply IH in H as (st1 & s1 & HM & HE). now exists st1, s1.
    + now apply IH.
    + now apply IH.
    + apply rep_sound in H as (pre & post & -> & Hp & Hq & Hk).
      apply IH in Hk as (st1 & s1 & HM & HE).
      exists st1, s1. split; [|assumption]. exists pre, post. now splits.
Qed.

Lemma exec_complete (r1 r2 : list item) :
  forall (st : mstate) (s : jsstring) (st1 : mstate) (s1 : jsstring),
  Matches r1 st s st1 s1 ->
  exec r2 st1 s1 <> None ->
  exec (r1 ++ r2) st s <> None.
Proof.
  induction r1 as [|it r1 IH]; intros st s st1 s1 HM HE.
  - destruct HM as [-> ->]. assumption.
  - destruct it as [| | | |p q]; simpl in HM |- *.
    + destruct HM as [-> HM]. now apply (IH _ _ _ _ HM).
    + destruct HM as [-> HM]. now apply (IH _ _ _ _ HM).
    + now apply (IH _ _ _ _ HM).
    + now apply (IH _ _ _ _ HM).
    + destruct HM as (pre & post & -> & Hp & Hq & HM).
      apply rep_complete; try assumption. now apply (IH _ _ _ _ HM).
Qed.

Lemma Matches_app (r1 r2 : list item) :
  forall (st : mstate) (s : jsstring) (st1 : mstate) (s1 : jsstring)
         (st2 : mstate) (s2 : jsstring),
  Matches r1 st s st1 s1 -> Matches r2 st1 s1 st2 s2 ->
  Matches (r1 ++ r2) st s st2 s2.
Proof.
  induction r1 as [|it r1 IH]; intros st s st1 s1 st2 s2 H1 H2.
  - destruct H1 as [-> ->]. assumption.
  - destruct it as [| | | |p q]; simpl in H1 |- *.
    + destruct H1 as [Hp H1]. split; [assumption | now apply (IH _ _ _ _ _ _ H1)].
    + destruct H1 as [Hp H1]. split; [assumption | now apply (IH _ _ _ _ _ _ H1)].
    + now apply (IH _ _ _ _ _ _ H1).
    + now apply (IH _ _ _ _ _ _ H1).
    + destruct H1 as (pre & post & -> & Hp & Hq & H1).
      exists pre, post. splits; try assumption; [reflexivity|].
      now apply (IH _ _ _ _ _ _ H1).
Qed.

(** A pattern anchored at the beginning is tried at index 0 only. *)
Lemma search_anchored (r : list item) (s : jsstring) : forall n : nat,
  search (Bos :: r) (Datatypes.S n) s = None.
Proof.
  induction s as [|c s IH]; intros n; simpl; [reflexivity|]. apply IH.
Qed.

Lemma match_anchored (r : list item) (s : jsstring) :
  match_ (Bos :: r) s = option_map (fun res => caps (fst res)) (exec (Bos :: r) (init 0) s).
Proof.
  unfold match_. destruct s as [|c s]; cbn [search].
  - now destruct (exec (Bos :: r) (init 0) []) as [[st rest]|].
  - destruct (exec (Bos :: r) (init 0) (c :: s)) as [[st rest]|]; [reflexivity|].
    now rewrite search_anchored.
Qed.

End Matcher.

Section Determinism.
Import JS Regex Spec.

Lemma first_class_sound (r : list item) :
  forall (q : ascii -> bool) (st : mstate) (s : jsstring) (st' : mstate) (s' : jsstring),
  first_class r = Some q -> Matches r st s st' s' ->
  exists c t, s = c :: t /\ q c = true.
Proof.
  assert (Hrun : forall (p : ascii -> bool) (pre post : jsstring) (n : nat),
            all p pre -> Datatypes.S n <= length pre ->
            exists c t, pre ++ post = c :: t /\ p c = true).
  { intros p pre post n Hp Hl. destruct pre as [|c pre]; [simpl in Hl; lia|].
    inversion Hp; subst. now exists c, (pre ++ post). }
  induction r as [|it r IH]; intros q st s st' s' Hf HM; [discriminate|].
  destruct it as [| | | |p [n|n|n]]; simpl in Hf, HM; try discriminate.
  - eapply IH; eauto.
  - eapply IH; eauto.
  - destruct n; [discriminate|]. injection Hf as <-.
    destruct HM as (pre & post & -> & Hp & Hq & _).
    apply (Hrun p pre post n); [assumption | simpl in Hq; lia].
  - destruct n; [discriminate|]. injection Hf as <-.
    destruct HM as (pre & post & -> & Hp & Hq & _).
    apply (Hrun p pre post n); [assumption | simpl in Hq; lia].
  - destruct n; [discriminate|]. injection Hf as <-.
    destruct HM as (pre & post & -> & Hp & Hq & _).
    apply (Hrun p pre post n); [assumption | simpl in Hq; lia].
Qed.

Lemma run_unique (p q : ascii -> bool) (pre : jsstring) :
  forall (pre' post post' : jsstring),
  disjoint p q ->
  all p pre -> all p pre' ->
  (exists c t, post = c :: t /\ q c = true) ->
  (exists c t, post' = c :: t /\ q c = true) ->
  pre ++ post = pre' ++ post' ->
  pre = pre' /\ post = post'.
Proof.
  induction pre as [|x pre IH]; intros pre' post post' Hd Hp Hp' Hq Hq' E.
  - destruct pre' as [|y pre']; [now split|]. exfalso.
    destruct Hq as (c & t & -> & Hc). simpl in E. injection E as -> _.
    inversion Hp'; subst. eapply Hd; eauto.
  - destruct pre' as [|y pre'].
    + exfalso. destruct Hq' as (c & t & -> & Hc). simpl in E. injection E as -> _.
      inversion Hp; subst. eapply Hd; eauto.
    + simpl in E. injection E as -> E.
      inversion Hp; inversion Hp'; subst.
      destruct (IH pre' post post') as [-> ->]; auto.
Qed.

Lemma exact_unique (pre pre' post post' : jsstring) :
  length pre = length pre' ->
  pre ++ post = pre' ++ post' ->
  pre = pre' /\ post = post'.
Proof.
  revert pre'. induction pre as [|x pre IH]; intros [|y pre'] Hl E;
    try discriminate; [now split|].
  simpl in E. injection E as -> E. injection Hl as Hl.
  destruct (IH pre' Hl E) as [-> ->]. now split.
Qed.

Lemma det_unique (r : list item) :
  Det r ->
  forall (st : mstate) (s : jsstring) (st1 st2 : mstate) (s1 s2 : jsstring),
  Matches r st s st1 s1 -> Matches r st s st2 s2 ->
  st1 = st2 /\ s1 = s2.
Proof.
  induction 1 as [|r _ IH|r _ IH|r _ IH|r _ IH|p n r _ IH
                  |p min q r Hf Hd _ IH|p min q r Hf Hd _ IH];
    intros st s st1 st2 s1 s2 H1 H2; simpl in H1, H2.
  - destruct H1 as [-> ->], H2 as [-> ->]. now split.
  - destruct H1 as [_ H1], H2 as [_ H2]. eapply IH; eauto.
  - destruct H1 as [_ H1], H2 as [_ H2]. eapply IH; eauto.
  - eapply IH; eauto.
  - eapply IH; eauto.
  - destruct H1 as (pre & post & -> & Hp & Hq & H1).
    destruct H2 as (pre' & post' & E & Hp' & Hq' & H2).
    simpl in Hq, Hq'.
    destruct (@exact_unique pre pre' post post') as [<- <-]; [congruence | assumption |].
    eapply IH; eauto.
  - destruct H1 as (pre & post & -> & Hp & Hq & H1).
    destruct H2 as (pre' & post' & E & Hp' & Hq' & H2).
    destruct (@run_unique p q pre pre' post post') as [<- <-]; try assumption.
    + eapply first_class_sound; eauto.
    + eapply first_class_sound; eauto.
    + eapply IH; eauto.
  - destruct H1 as (pre & post & -> & Hp & Hq & H1).
    destruct H2 as (pre' & post' & E & Hp' & Hq' & H2).
    destruct (@run_unique p q pre pre' post post') as [<- <-]; try assumption.
    + eapply first_class_sound; eauto.
    + eapply first_class_sound; eauto.
    + eapply IH; eauto.
Qed.

Ltac by_cases_on_char :=
  let c := fresh "c" in
  intros c; destruct c as [[] [] [] [] [] [] [] []]; cbv; discriminate.

Lemma space_not_digit : disjoint is_space is_digit.
Proof. by_cases_on_char. Qed.

Lemma digit_not_space : disjoint is_digit is_space.
Proof. by_cases_on_char. Qed.

Lemma space_not_level : disjoint is_space Logcat.is_level.
Proof. by_cases_on_char. Qed.

Lemma regex_head_det : Det Logcat.regex_head.
Proof.
  unfold Logcat.regex_head.
  repeat first
    [ apply Det_nil | apply Det_Bos | apply Det_Open | apply Det_Close
    | apply Det_Exactly
    | apply (@Det_Greedy is_space 1 is_digit);
        [reflexivity | exact space_not_digit |]
    | apply (@Det_Greedy is_space 1 Logcat.is_level);
        [reflexivity | exact space_not_level |]
    | apply (@Det_Greedy is_digit 1 is_space);
        [reflexivity | exact digit_not_space |] ].
Qed.

End Determinism.

Section PropertyScan.
Import JS Regex Devices Spec.

Lemma Matches_suffix (r : list item) :
  forall (st : mstate) (s : jsstring) (st' : mstate) (s' : jsstring),
  Matches r st s st' s' -> exists consumed, s = consumed ++ s'.
Proof.
  induction r as [|it r IH]; intros st s st' s' H.
  - destruct H as [_ ->]. now exists [].
  - destruct it as [| | | |p q]; simpl in H.
    + destruct H as [_ H]. eapply IH; eauto.
    + destruct H as [_ H]. eapply IH; eauto.
    + eapply IH; eauto.
    + eapply IH; eauto.
    + destruct H as (pre & post & -> & _ & _ & H).
      apply IH in H as [consumed ->]. exists (pre ++ consumed).
      now rewrite app_assoc.
Qed.

Lemma Matches_one_shorter (p : ascii -> bool) (r : list item)
      (st : mstate) (s : jsstring) (st' : mstate) (s' : jsstring) :
  Matches (Cls p (Exactly 1) :: r) st s st' s' -> length s' < length s.
Proof.
  cbn [Matches]. intros (pre & post & -> & _ & Hl & HM).
  apply Matches_suffix in HM as [consumed ->].
  simpl in Hl. rewrite !length_app. lia.
Qed.

(** A match of the property pattern consumes at least its opening
    bracket. *)
Lemma search_prop_shorter (s : jsstring) :
  forall (start : nat) (groups : list jsstring) (rest : jsstring),
  search prop_regex start s = Some (groups, rest) ->
  length rest < length s.
Proof.
  assert (Hexec : forall st s' st' rest,
            exec prop_regex st s' = Some (st', rest) -> length rest < length s').
  { intros st s' st' rest H.
    rewrite <- (app_nil_r prop_regex) in H.
    apply exec_sound in H as (st1 & s1 & HM & E).
    simpl in E. injection E as -> ->.
    unfold prop_regex in HM. now apply Matches_one_shorter in HM. }
  induction s as [|c s IH]; intros start groups rest H; cbn [search] in H.
  - destruct (exec prop_regex (init start) []) as [[st r]|] eqn:E; [|discriminate].
    injection H as _ <-. now apply Hexec in E.
  - destruct (exec prop_regex (init start) (c :: s)) as [[st r]|] eqn:E.
    + injection H as _ <-. now apply Hexec in E.
    + apply IH in H. simpl. lia.
Qed.

(** The rounds allotted to the scan of the properties are never used
    up: any larger allotment gives the same result. *)
Lemma scanProps_enough (n : nat) :
  forall (m start : nat) (s : jsstring) (props : Props),
  length s <= n -> length s <= m ->
  scanProps n start s props = scanProps m start s props.
Proof.
  induction n as [|n IH]; intros m start s props Hn Hm.
  - destruct s; [|simpl in Hn; lia]. now destruct m.
  - destruct m as [|m].
    + destruct s; [|simpl in Hm; lia]. reflexivity.
    + cbn [scanProps].
      destruct (search prop_regex start s) as [[groups rest]|] eqn:E; [|reflexivity].
      apply search_prop_shorter in E.
      destruct groups as [|key [|value [|x groups]]]; try reflexivity.
      apply IH; lia.
Qed.

End PropertyScan.

Section GreedyTail.
Import JS Regex Spec.

Variable R : Type.
Variable p : ascii -> bool.

Lemma rep_greedy_ext (k k' : jsstring -> jsstring -> option R) :
  (forall t r, k t r = k' t r) ->
  forall (s : jsstring) (min : nat) (taken : jsstring),
  rep_greedy p k min taken s = rep_greedy p k' min taken s.
Proof.
  intros E. induction s as [|c s IH]; intros min taken; simpl.
  - now rewrite E.
  - rewrite IH, E. reflexivity.
Qed.

(** A greedy class followed by something that only matches at the end
    of the subject takes the whole rest or fails. *)
Lemma greedy_to_end (k : jsstring -> jsstring -> option R) :
  (forall t c r, k t (c :: r) = None) ->
  forall (s taken : jsstring),
  rep_greedy p k 0 taken s = if forallb p s then k (taken ++ s) [] else None.
Proof.
  intros Hk. induction s as [|c s IH]; intros taken; simpl.
  - now rewrite app_nil_r.
  - rewrite Hk. destruct (p c); [|reflexivity]. simpl.
    rewrite IH, <- app_assoc. simpl.
    destruct (forallb p s); [|reflexivity].
    now destruct (k (taken ++ c :: s) []).
Qed.

Lemma good_dropWhile (good : jsstring -> bool) :
  (forall c r, good (c :: r) = true -> good r = true) ->
  forall s, good s = true -> good (dropWhile p s) = true.
Proof.
  intros Hg. induction s as [|c s IH]; intros H; simpl; [assumption|].
  destruct (p c); [|assumption]. apply IH. now apply (Hg c).
Qed.

(** A greedy class followed by a test that every suffix of a good rest
    passes takes the longest run of its class. *)
Lemma greedy_longest (good : jsstring -> bool) (f : jsstring -> jsstring -> R) :
  (forall c r, good (c :: r) = true -> good r = true) ->
  forall (s taken : jsstring),
  rep_greedy p (fun t r => if good r then Some (f t r) else None) 0 taken s =
    if good (dropWhile p s)
    then Some (f (taken ++ takeWhile p s) (dropWhile p s))
    else None.
Proof.
  intros Hg. induction s as [|c s IH]; intros taken; simpl.
  - now rewrite app_nil_r.
  - destruct (p c) eqn:Hc.
    + rewrite IH, <- app_assoc. simpl.
      destruct (good (dropWhile p s)) eqn:G; [reflexivity|].
      destruct (good (c :: s)) eqn:G'; [|reflexivity].
      apply Hg in G'. apply (good_dropWhile good Hg) in G'. congruence.
    + now rewrite app_nil_r.
Qed.

End GreedyTail.

Section MessagePart.
Import JS Regex Spec.

Lemma forallb_tail (p : ascii -> bool) (c : ascii) (r : jsstring) :
  forallb p (c :: r) = true -> forallb p r = true.
Proof. simpl. now intros [_ H]%andb_true_iff. Qed.

(** The message part of the pattern: white space is skipped, and the
    rest of the line is the message provided it has no line
    terminator. *)
Lemma exec_regex_message (st : mstate) (s : jsstring) :
  exec Logcat.regex_message st s =
    if forallb is_dot (trimStart s)
    then Some (after_message st s, [])
    else None.
Proof.
  unfold Logcat.regex_message, trimStart. cbn [exec rep].
  rewrite (@rep_greedy_ext (mstate * jsstring) is_space _
             (fun t r => if forallb is_dot r
                         then Some (close (consume (open (consume st t)) r), [])
                         else None)).
  - rewrite (@greedy_longest (mstate * jsstring) is_space (forallb is_dot)
               (fun t r => (close (consume (open (consume st t)) r), []))
               (@forallb_tail is_dot)).
    reflexivity.
  - intros t r. rewrite greedy_to_end by reflexivity. reflexivity.
Qed.

End MessagePart.

(** ** The line parser *)

Section TrimFacts.
Import JS Spec.

Lemma dropWhile_app (p : ascii -> bool) (s b : jsstring) :
  dropWhile p (s ++ b) =
    match dropWhile p s with
    | [] => dropWhile p b
    | c :: r => (c :: r) ++ b
    end.
Proof.
  induction s as [|c s IH]; simpl; [now destruct (dropWhile p b)|].
  destruct (p c); [assumption | reflexivity].
Qed.

Lemma dropWhile_blank (p : ascii -> bool) (w : jsstring) :
  all p w -> dropWhile p w = [].
Proof. intros H. rewrite <- (app_nil_r w). now rewrite dropWhile_all. Qed.

Lemma dropWhile_shape (p : ascii -> bool) (s : jsstring) :
  exists w, s = w ++ dropWhile p s /\ all p w /\
            (dropWhile p s = [] \/ exists c r, dropWhile p s = c :: r /\ p c = false).
Proof.
  induction s as [|c s (w & E & Hw & Hs)]; simpl.
  - exists []. repeat split; [constructor | now left].
  - destruct (p c) eqn:Hc.
    + exists (c :: w). simpl. rewrite <- E. repeat split; [now constructor | assumption].
    + exists []. repeat split; [constructor | right; now exists c, s].
Qed.

Lemma takeWhile_dropWhile (p : ascii -> bool) (s : jsstring) :
  s = takeWhile p s ++ dropWhile p s /\ all p (takeWhile p s).
Proof.
  induction s as [|c s [E H]]; simpl; [split; [reflexivity | constructor]|].
  destruct (p c) eqn:Hc; simpl.
  - split; [now rewrite <- E | now constructor].
  - split; [reflexivity | constructor].
Qed.

Lemma trimEnd_blank (a w : jsstring) : blank w -> trimEnd (a ++ w) = trimEnd a.
Proof.
  intros H. unfold trimEnd. rewrite rev_app_distr.
  rewrite dropWhile_all; [reflexivity | now apply Forall_rev].
Qed.

Lemma trim_pad (a s b : jsstring) : blank a -> blank b -> trim (a ++ s ++ b) = trim s.
Proof.
  intros Ha Hb. unfold trim, trimStart.
  rewrite dropWhile_all by assumption. rewrite dropWhile_app.
  destruct (dropWhile is_space s) as [|c r].
  - now rewrite dropWhile_blank.
  - now apply trimEnd_blank.
Qed.

(** The result of [trim] is empty, or begins and ends with a character
    that is not white space. *)
Lemma trim_shape (s : jsstring) :
  trim s = [] \/
  ((exists c b, trim s = c :: b /\ is_space c = false) /\
   (exists a c, trim s = a ++ [c] /\ is_space c = false)).
Proof.
  unfold trim, trimStart, trimEnd.
  destruct (dropWhile_shape is_space s) as (w & _ & _ & Hu).
  set (u := dropWhile is_space s) in *.
  destruct (dropWhile_shape is_space (rev u)) as (w' & E' & Hw' & Hd).
  set (d := dropWhile is_space (rev u)) in *.
  destruct Hd as [-> | (c & r & Ed & Hc)]; [now left|]. right.
  rewrite Ed. simpl. split; [|now exists (rev r), c].
  apply (f_equal (@rev _)) in E'. rewrite rev_involutive, rev_app_distr, Ed in E'.
  simpl in E'.
  destruct Hu as [Hu | (c0 & r0 & Hu & Hc0)].
  - rewrite Hu in E'. destruct (rev r); discriminate.
  - rewrite Hu in E'. destruct (rev r) as [|y t] eqn:Er; simpl in E' |- *.
    + injection E' as -> _. now exists c, [].
    + injection E' as -> _. now exists y, (t ++ [c]).
Qed.

Lemma trim_idempotent (s : jsstring) : trim (trim s) = trim s.
Proof.
  destruct (trim_shape s) as [-> | [Hh Hl]]; [reflexivity|].
  rewrite <- (app_nil_r (trim s)) at 1.
  change (trim s ++ []) with ([] ++ trim s ++ []).
  apply trim_body; try assumption; constructor.
Qed.

Lemma split_at_first (c : ascii) (a a' b b' : jsstring) :
  ~ In c a -> ~ In c a' ->
  a ++ c :: b = a' ++ c :: b' ->
  a = a' /\ b = b'.
Proof.
  intros Ha Ha' E. pose proof E as E'.
  apply (f_equal (split c)) in E'. rewrite !split_line in E' by assumption.
  injection E' as -> _. split; [reflexivity|].
  apply app_inv_head in E. now injection E.
Qed.

Lemma all_space_no_colon (w : jsstring) : all is_space w -> no_colon w.
Proof.
  unfold no_colon. induction 1 as [|c w Hc _ IH]; [intros []|].
  intros [E | H]; [subst c; discriminate | tauto].
Qed.

Lemma all_not_colon (t : jsstring) : all (is_not_char ":") t -> no_colon t.
Proof.
  unfold no_colon. induction 1 as [|c w Hc _ IH]; [intros []|].
  intros [E | H]; [subst c; discriminate | tauto].
Qed.

Lemma no_colon_app (a b : jsstring) : no_colon a -> no_colon b -> no_colon (a ++ b).
Proof. unfold no_colon. intros Ha Hb H. apply in_app_or in H. tauto. Qed.

Lemma parseInt_number (s : jsstring) : number s -> parseInt s = Num (decimal s).
Proof.
  intros [Hd Hl]. destruct s as [|c s]; [simpl in Hl; lia|].
  inversion Hd as [|? ? Hc Hs]; subst.
  assert (Htake : forall t, all is_digit t -> takeWhile is_digit t = t).
  { induction 1 as [|x t Hx _ IH]; simpl; [reflexivity|]. now rewrite Hx, IH. }
  assert (Hsp : is_space c = false).
  { destruct (is_space c) eqn:E; [|reflexivity].
    exfalso. now apply (digit_not_space c). }
  unfold parseInt, trimStart. rewrite dropWhile_stop by assumption.
  assert (Hsign : c <> "-"%char /\ c <> "+"%char).
  { split; intros ->; discriminate. }
  destruct Hsign as [Hm Hp].
  assert (E : forall (A : Type) (x y z : A),
            match c with "+"%char => x | "-"%char => y | _ => z end = z).
  { intros A x y z.
    destruct c as [[] [] [] [] [] [] [] []]; try reflexivity; congruence. }
  rewrite E. rewrite (Htake (c :: s) Hd). reflexivity.
Qed.

End TrimFacts.

Section LineParser.
Import JS Regex Types Logcat Spec.

Lemma match_regex (line : jsstring) :
  match_ regex line =
    option_map (fun res => caps (fst res)) (exec regex (init 0) line).
Proof. exact (match_anchored (tl regex) line). Qed.

Lemma all_char (c : ascii) : all (is_char c) [c].
Proof. repeat constructor. unfold is_char. apply Ascii.eqb_refl. Qed.

Lemma all_level (l : LogLevel) : all is_level [level_char l].
Proof. destruct l; repeat constructor. Qed.

Lemma level_of_level_char (l : LogLevel) : level_of_char (level_char l) = Some l.
Proof. now destruct l. Qed.

Ltac class_step :=
  eexists; eexists; split; [reflexivity | split; [| split]].

Ltac use_wf x :=
  first [ apply all_char | apply all_level | reflexivity | apply Nat.le_0_l
        | apply (wf_month x) | apply (wf_day x) | apply (wf_ws1 x)
        | apply (wf_hour x) | apply (wf_minute x) | apply (wf_second x)
        | apply (wf_millis x) | apply (wf_ws2 x) | apply (wf_pid x)
        | apply (wf_ws3 x) | apply (wf_tid x) | apply (wf_ws4 x)
        | apply (wf_ws5 x) | apply (wf_tag x) | apply (wf_ws6 x) ].

(** The pieces of a well-formed line are a match of the head of the
    pattern, and fill its first five groups. *)
Lemma head_matches (x : line_parts) :
  well_formed x ->
  exists st1,
    Matches regex_head (init 0) (text x) st1 (text_after_level x) /\
    caps st1 = [date_text x; time_text x; l_pid x; l_tid x; [level_char (l_level x)]] /\
    cur st1 = None.
Proof.
  intros Hx. eexists. split.
  - unfold regex_head, text. cbn [Matches].
    split; [reflexivity|].
    do 17 (class_step; [use_wf Hx | use_wf Hx |]).
    split; reflexivity.
  - cbn. unfold date_text, time_text. split; [|reflexivity].
    now rewrite <- !app_assoc.
Qed.

Lemma tag_matches (x : line_parts) (st1 : mstate) :
  well_formed x ->
  exists st2,
    Matches regex_tag st1 (text_after_level x) st2 (text_after_tag x).
Proof.
  intros Hx. eexists.
  unfold regex_tag, text_after_level. cbn [Matches].
  do 4 (class_step; [use_wf Hx | use_wf Hx |]).
  split; reflexivity.
Qed.

Lemma char_run (c : ascii) (pre : jsstring) :
  all (is_char c) pre -> length pre = 1 -> pre = [c].
Proof.
  intros Hp Hl. destruct pre as [|y [|z pre]]; try discriminate.
  inversion Hp as [|? ? Hy _]; subst. apply Ascii.eqb_eq in Hy. now subst.
Qed.

Lemma all_forallb (p : ascii -> bool) (s : jsstring) :
  all p s <-> forallb p s = true.
Proof.
  unfold all. rewrite forallb_forall, Forall_forall. reflexivity.
Qed.

Lemma all_dropWhile (p q : ascii -> bool) (s : jsstring) :
  all q s -> all q (dropWhile p s).
Proof.
  induction 1 as [|c s Hc Hs IH]; simpl; [constructor|].
  destruct (p c); [assumption | now constructor].
Qed.

Lemma message_is_dot (x : line_parts) :
  well_formed x -> forallb is_dot (trimStart (text_after_tag x)) = true.
Proof.
  intros Hx. apply all_forallb. unfold text_after_tag, trimStart.
  rewrite dropWhile_all by apply (wf_ws7 Hx).
  apply all_dropWhile, (wf_message Hx).
Qed.

(** Any match of the tag part on a well-formed line stops at the same
    colon and captures the tag up to surrounding white space. *)
Lemma tag_unique (x : line_parts) (st1 st2 : mstate) (s2 : jsstring) :
  well_formed x -> cur st1 = None ->
  Matches regex_tag st1 (text_after_level x) st2 s2 ->
  s2 = text_after_tag x /\
  exists tg, caps st2 = caps st1 ++ [tg] /\ trim tg = trim (l_tag x).
Proof.
  intros Hx Hcur HM. unfold regex_tag, text_after_level in HM. cbn [Matches] in HM.
  destruct HM as (w5 & r1 & E1 & Hw5 & _ & tg & r2 & -> & Htg & _ &
                  w6 & r3 & -> & Hw6 & _ & col & r4 & -> & Hcol & Lcol & -> & ->).
  apply (char_run Hcol) in Lcol. subst col.
  assert (E : (l_ws5 x ++ l_tag x ++ l_ws6 x) ++ ":"%char :: text_after_tag x
              = (w5 ++ tg ++ w6) ++ ":"%char :: r4).
  { rewrite <- !app_assoc. exact E1. }
  apply split_at_first in E as [E ->].
  - split; [reflexivity|]. exists tg. split.
    + destruct st1 as [p cs cu]. simpl in Hcur. subst cu. reflexivity.
    + rewrite <- (@trim_pad w5 tg w6), <- E by assumption.
      apply trim_pad; [apply (wf_ws5 Hx) | apply (wf_ws6 Hx)].
  - repeat apply no_colon_app.
    + apply all_space_no_colon, (wf_ws5 Hx).
    + apply all_not_colon, (wf_tag Hx).
    + apply all_space_no_colon, (wf_ws6 Hx).
  - repeat apply no_colon_app;
      [now apply all_space_no_colon | now apply all_not_colon
       | now apply all_space_no_colon].
Qed.

(** Every line of the grammar is parsed, into the entry its pieces
    spell. *)
Lemma parse_text (cy : N) (x : line_parts) :
  well_formed x -> parseLogcatLine cy (text x) = Some (entry_of cy x).
Proof.
  intros Hx.
  destruct (head_matches Hx) as (st1 & HM1 & Hcaps1 & Hcur1).
  destruct (tag_matches st1 Hx) as (st2 & HM2).
  pose proof (message_is_dot Hx) as Hdot.
  assert (Hex : exec regex (init 0) (text x) <> None).
  { unfold regex. rewrite app_assoc.
    eapply exec_complete.
    - eapply Matches_app; [exact HM1 | exact HM2].
    - rewrite exec_regex_message, Hdot. discriminate. }
  destruct (exec regex (init 0) (text x)) as [res|] eqn:E0; [|congruence].
  pose proof E0 as E. unfold regex in E.
  apply exec_sound in E as (st1' & s1' & HM1' & E).
  destruct (@det_unique _ regex_head_det _ _ _ _ _ _ HM1' HM1) as [-> ->].
  apply exec_sound in E as (st2' & s2' & HM2' & E).
  destruct (@tag_unique x st1 st2' s2' Hx Hcur1 HM2') as (-> & tg & Hcaps2 & Htrim).
  rewrite exec_regex_message, Hdot in E. injection E as <-.
  unfold parseLogcatLine. rewrite match_regex, E0.
  cbn [option_map fst after_message close consume open cur caps].
  rewrite Hcaps2, Hcaps1. cbn [app].
  rewrite level_of_level_char. unfold entry_of.
  rewrite !parseInt_number by (apply (wf_pid Hx) || apply (wf_tid Hx)).
  now rewrite Htrim.
Qed.

Lemma level_of_char_inv (c : ascii) (l : LogLevel) :
  level_of_char c = Some l -> c = level_char l.
Proof.
  destruct c as [[] [] [] [] [] [] [] []]; simpl; intros H;
    try discriminate; injection H as <-; reflexivity.
Qed.

Lemma level_run (pre : jsstring) :
  all is_level pre -> length pre = 1 -> exists l, pre = [level_char l].
Proof.
  intros Hp Hl. destruct pre as [|c [|z pre]]; try discriminate.
  inversion Hp as [|? ? Hc _]; subst. unfold is_level in Hc.
  destruct (level_of_char c) as [l|] eqn:E; [|discriminate].
  exists l. now rewrite (level_of_char_inv c E).
Qed.

(** Whatever is parsed is a line of the grammar. *)
Lemma parse_grammar (cy : N) (line : jsstring) (e : LogcatEntry) :
  parseLogcatLine cy line = Some e -> Grammar line.
Proof.
  unfold parseLogcatLine. rewrite match_regex.
  destruct (exec regex (init 0) line) as [res|] eqn:E; [|discriminate].
  intros _. unfold regex in E. rewrite app_assoc in E.
  apply exec_sound in E as (st2 & s2 & HM & E).
  rewrite exec_regex_message in E.
  destruct (forallb is_dot (trimStart s2)) eqn:Hmsg; [|discriminate]. clear E.
  unfold regex_head, regex_tag in HM. cbn [app Matches] in HM.
  destruct HM as (_ & mo & r0 & -> & Hmo & Lmo &
                  dash & r1 & -> & Hdash & Ldash &
                  da & r2 & -> & Hda & Lda &
                  w1 & r3 & -> & Hw1 & Lw1 &
                  hh & r4 & -> & Hhh & Lhh &
                  c1 & r5 & -> & Hc1 & Lc1 &
                  mi & r6 & -> & Hmi & Lmi &
                  c2 & r7 & -> & Hc2 & Lc2 &
                  ss & r8 & -> & Hss & Lss &
                  dot & r9 & -> & Hdot & Ldot &
                  ms & r10 & -> & Hms & Lms &
                  w2 & r11 & -> & Hw2 & Lw2 &
                  pid & r12 & -> & Hpid & Lpid &
                  w3 & r13 & -> & Hw3 & Lw3 &
                  tid & r14 & -> & Htid & Ltid &
                  w4 & r15 & -> & Hw4 & Lw4 &
                  lv & r16 & -> & Hlv & Llv &
                  w5 & r17 & -> & Hw5 & Lw5 &
                  tg & r18 & -> & Htg & Ltg &
                  w6 & r19 & -> & Hw6 & Lw6 &
                  col & r20 & -> & Hcol & Lcol &
                  _ & ->).
  cbn [quant_ok] in *.
  apply (char_run Hdash) in Ldash. apply (char_run Hc1) in Lc1.
  apply (char_run Hc2) in Lc2. apply (char_run Hdot) in Ldot.
  apply (char_run Hcol) in Lcol.
  destruct (level_run Hlv Llv) as [l ->]. subst.
  destruct (takeWhile_dropWhile is_space r20) as [Es Hs].
  exists {| l_month := mo; l_day := da; l_ws1 := w1;
            l_hour := hh; l_minute := mi; l_second := ss; l_millis := ms;
            l_ws2 := w2; l_pid := pid; l_ws3 := w3; l_tid := tid; l_ws4 := w4;
            l_level := l; l_ws5 := w5; l_tag := tg; l_ws6 := w6;
            l_ws7 := takeWhile is_space r20;
            l_message := dropWhile is_space r20 |}.
  split.
  - constructor; cbn; try (split; assumption); try assumption.
    now apply all_forallb.
  - unfold text, text_after_level, text_after_tag. cbn.
    now rewrite <- Es.
Qed.

End LineParser.

Section LineParserClaim.
Import JS Regex Types Logcat Spec.

(** C5.  The line parser is total and, for a given current year,
    deterministic (it is a function).  (1) Every line of the grammar
    MM-DD HH:MM:SS.mmm PID TID LEVEL TAG: MESSAGE, with LEVEL one of the
    seven level letters, is parsed into the entry spelled by its pieces:
    pid and tid are the decimal values, the level is the letter, the tag
    is the tag text trimmed (so it has no surrounding white space), and
    the message is everything after the colon that ends the tag, colons
    included, less the white space that follows that colon.  (2) Every
    other string is answered with null: there is no third outcome.
    (3) The scenario line yields pid 1234, tid 5678, level D, tag
    "MyTag" and message "Hello world". *)
Theorem parseLine_total (cy : N) :
  (forall x : line_parts,
     well_formed x ->
     parseLogcatLine cy (text x) = Some (entry_of cy x) /\
     trim (tag (entry_of cy x)) = tag (entry_of cy x) /\
     (exists w, all is_space w /\
                l_ws7 x ++ l_message x = w ++ message (entry_of cy x))) /\
  (forall line : jsstring,
     ~ Grammar line -> parseLogcatLine cy line = None) /\
  (forall (line : jsstring) (e : LogcatEntry),
     parseLogcatLine cy line = Some e -> Grammar line) /\
  parseLogcatLine cy scenario_log_line =
    Some {| timestamp := showN cy ++ str "-01-10T12:34:56.789";
            pid := Num 1234;
            tid := Num 5678;
            level := D;
            tag := str "MyTag";
            message := str "Hello world" |}.
Proof.
  split; [|split; [|split]].
  - intros x Hx. split; [now apply parse_text|]. split.
    + apply trim_idempotent.
    + exists (takeWhile is_space (l_ws7 x ++ l_message x)).
      destruct (takeWhile_dropWhile is_space (l_ws7 x ++ l_message x)) as [E H].
      split; [exact H | exact E].
  - intros line Hn. destruct (parseLogcatLine cy line) as [e|] eqn:E; [|reflexivity].
    exfalso. apply Hn. exact (parse_grammar cy line E).
  - apply parse_grammar.
  - reflexivity.
Qed.

Lemma colon_parts_well_formed : well_formed colon_parts.
Proof.
  constructor; cbn; repeat split; repeat constructor.
Qed.

(** The theorem at a line whose message holds three colons: they are
    all in the entry. *)
Lemma parseLine_total_witness :
  well_formed colon_parts /\
  parseLogcatLine 2026
    (str "01-10 12:34:56.789  1234  5678 E Net Stack   : GET http://host:8080/a: 200")
  = Some {| timestamp := str "2026-01-10T12:34:56.789";
            pid := Num 1234;
            tid := Num 5678;
            level := E;
            tag := str "Net Stack";
            message := str "GET http://host:8080/a: 200" |}.
Proof.
  split; [exact colon_parts_well_formed|].
  exact (proj1 (proj1 (parseLine_total 2026) colon_parts colon_parts_well_formed)).
Defined.

End LineParserClaim.

(** ** Chunks of bytes and what they make the stream emit *)

Section Decoding.
Import JS Buffer Spec.

Lemma latin1_app (a b : list N) :
  latin1 (a ++ b) =
    match latin1 a, latin1 b with
    | Some x, Some y => Some (x ++ y)
    | _, _ => None
    end.
Proof.
  induction a as [|u a IH]; simpl.
  - now destruct (latin1 b).
  - destruct (u <? 256)%N; [|reflexivity]. rewrite IH.
    destruct (latin1 a); [|reflexivity]. now destruct (latin1 b).
Qed.

(** With no character under way the decoder is as good as new. *)
Lemma decode_idle (st : decoder) (bs : list N) :
  needed st = 0 -> decode st bs = decode idle bs.
Proof.
  intros H. destruct bs as [|b bs]; cbn [decode].
  - now rewrite H.
  - unfold step. now rewrite H.
Qed.

(** A text without replacement character leaves no character under
    way, so that decoding goes on as from the start. *)
Lemma decode_app (b2 : list N) (b1 : list N) : forall st : decoder,
  latin1 (flat_map units (decode st b1)) <> None ->
  decode st (b1 ++ b2) = decode st b1 ++ decode idle b2.
Proof.
  induction b1 as [|b b1 IH]; intros st H.
  - cbn [app decode] in *. destruct (needed st) eqn:E.
    + now apply decode_idle.
    + exfalso. apply H. reflexivity.
  - cbn [app decode] in *. destruct (step st b) as [out st'].
    rewrite <- app_assoc. f_equal. apply IH.
    rewrite flat_map_app, latin1_app in H.
    destruct (latin1 (flat_map units (decode st' b1))); [discriminate|].
    exfalso. apply H. now destruct (latin1 (flat_map units out)).
Qed.

Lemma toString_app (c1 c2 : Buffer.t) :
  whole c1 -> toString (c1 ++ c2) = toString c1 ++ toString c2.
Proof.
  intros H. unfold toString. rewrite map_app, decode_app, flat_map_app; auto.
Qed.

Lemma whole_text (c : Buffer.t) :
  whole c -> latin1 (toString c) = Some (text_of c).
Proof.
  unfold whole, text_of. now destruct (latin1 (toString c)).
Qed.

(** Chunks that are whole decode, one by one, to the pieces of the text
    their concatenation decodes to. *)
Lemma whole_concat (chunks : list Buffer.t) :
  Forall whole chunks ->
  latin1 (toString (concat chunks)) = Some (concat (map text_of chunks)).
Proof.
  induction 1 as [|c chunks Hc _ IH]; [reflexivity|].
  cbn [concat map]. rewrite toString_app, latin1_app by assumption.
  now rewrite (whole_text Hc), IH.
Qed.

End Decoding.

Section Emission.
Import JS Types Logcat Spec.

Lemma trimEnd_not_nil (c : ascii) (s : jsstring) :
  is_space c = false -> trimEnd (c :: s) <> [].
Proof.
  intros Hc. unfold trimEnd. cbn [rev]. rewrite dropWhile_app.
  destruct (dropWhile is_space (rev s)) as [|y r].
  - simpl. rewrite Hc. discriminate.
  - intros H. apply (f_equal (@length _)) in H.
    rewrite length_rev, length_app in H. simpl in H. lia.
Qed.

(** A line of the grammar is not blank: it begins with a digit. *)
Lemma grammar_not_blank (x : line_parts) : well_formed x -> trim (text x) <> [].
Proof.
  intros Hx. destruct (wf_month Hx) as [Hd Hl]. unfold text.
  destruct (l_month x) as [|d m]; [discriminate|].
  inversion Hd as [|? ? Hdig _]; subst.
  assert (Hs : is_space d = false).
  { destruct (is_space d) eqn:E; [|reflexivity].
    exfalso. exact (space_not_digit d E Hdig). }
  unfold trim, trimStart. cbn [app dropWhile]. rewrite Hs.
  now apply trimEnd_not_nil.
Qed.

Lemma entry_of_text (cy : N) (x x' : line_parts) :
  well_formed x -> well_formed x' -> text x = text x' ->
  entry_of cy x = entry_of cy x'.
Proof.
  intros Hx Hx' E. pose proof (parse_text cy Hx) as H. rewrite E in H.
  rewrite (parse_text cy Hx') in H. congruence.
Qed.

(** The body of the loop, line by line, emits what is due. *)
Lemma handleLine_Emits (cy : N) (t : LogcatStream) (ls : list jsstring) :
  Emits cy (minLevel t) ls (flat_map (handleLine cy t) ls).
Proof.
  induction ls as [|line ls IH]; [constructor|].
  cbn [flat_map]. unfold handleLine at 1.
  destruct (trim line) as [|c r] eqn:Et.
  - apply Emits_other; [|exact IH].
    intros (x & Hx & ->). now apply (grammar_not_blank Hx).
  - destruct (parseLogcatLine cy line) as [e|] eqn:Ep.
    + destruct (parse_grammar _ _ Ep) as (x & Hx & ->).
      rewrite (parse_text cy Hx) in Ep. injection Ep as <-.
      unfold shouldEmit. rewrite !priority_rank. cbn [level entry_of].
      destruct (Z.ltb_spec (Z.of_nat (rank (l_level x)))
                           (Z.of_nat (rank (minLevel t)))).
      * apply Emits_below; [assumption | lia | exact IH].
      * apply Emits_entry; [assumption | lia | exact IH].
    + apply Emits_other; [|exact IH].
      intros (x & Hx & ->). now rewrite (parse_text cy Hx) in Ep.
Qed.

(** What is due is determined by the lines. *)
Lemma Emits_unique (cy : N) (min : LogLevel) (ls : list jsstring)
      (evs evs' : list event) :
  Emits cy min ls evs -> Emits cy min ls evs' -> evs' = evs.
Proof.
  intros H. revert evs'.
  induction H as [|x ls evs Hx Hr _ IH|x ls evs Hx Hr _ IH|line ls evs Hn _ IH];
    intros evs' H'.
  - now inversion H'.
  - inversion H' as [|x' ? evs0 Hx' Hr' H0 E|x' ? evs0 Hx' Hr' H0 E|? ? evs0 Hn' H0]; subst.
    + rewrite (entry_of_text cy Hx' Hx E). f_equal. now apply IH.
    + exfalso. pose proof (entry_of_text cy Hx' Hx E) as Ee.
      apply (f_equal level) in Ee. cbn [level entry_of] in Ee. rewrite Ee in Hr'. lia.
    + exfalso. apply Hn'. now exists x.
  - inversion H' as [|x' ? evs0 Hx' Hr' H0 E|x' ? evs0 Hx' Hr' H0 E|? ? evs0 Hn' H0]; subst.
    + exfalso. pose proof (entry_of_text cy Hx' Hx E) as Ee.
      apply (f_equal level) in Ee. cbn [level entry_of] in Ee. rewrite Ee in Hr'. lia.
    + now apply IH.
    + exfalso. apply Hn'. now exists x.
  - inversion H' as [|x' ? evs0 Hx' Hr' H0 E|x' ? evs0 Hx' Hr' H0 E|? ? evs0 Hn' H0]; subst.
    + exfalso. apply Hn. now exists x'.
    + exfalso. apply Hn. now exists x'.
    + now apply IH.
Qed.

Lemma receive_feed (cy : N) (chunks : list Buffer.t) : forall t : LogcatStream,
  Forall whole chunks ->
  receive cy t chunks = Some (feed cy t (map text_of chunks)).
Proof.
  induction chunks as [|c chunks IH]; intros t H; [reflexivity|].
  inversion H as [|? ? Hc Hcs]; subst.
  cbn [receive map feed]. unfold on_stdout. rewrite (whole_text Hc).
  destruct (handleData cy t (text_of c)) as [t1 out1].
  rewrite (IH t1 Hcs). now destruct (feed cy t1 (map text_of chunks)).
Qed.

End Emission.

Section ChunkClaim.
Import JS Types Logcat Spec.

(** C1 (amended).  Chunk split-invariance.  Take a stream whose
    partial-line buffer holds no newline (as after construction and
    after every call of the data handler).  The listener of the standard
    output decodes every chunk on its own before it is handled.
    (1) Two sequences of chunks of bytes with the same concatenation, in
    which every chunk is a text by itself (no chunk ends or begins
    inside a character, and its text is a string of this development),
    leave the stream in the same state and emit the same events in the
    same order; they are handled as the sequence of their texts.  (2) For the data handler, which takes text, two
    sequences of chunks with the same concatenation leave the same state
    and emit the same events.  (3) If the buffer followed by the
    concatenation of the chunks is the complete lines [ls], each ended
    by its newline, followed by a fragment [frag] without newline, then
    exactly the lines [ls] are processed, in order, each by the loop
    body of the data handler, and the events emitted are the ones due
    for [ls] and no others: one entry event for every line of the
    threadtime grammar whose level is at least the minimum level, with
    the entry its pieces spell, and nothing for any other line; [frag]
    is what the buffer retains for the next chunk, and the number of
    lines processed is the number of newlines received.  (4) Such a
    decomposition always exists.  The current year, which the parser
    reads from the clock, is the same throughout. *)
Theorem chunk_split_invariance (cy : N) (t : LogcatStream) :
  one_line (buffer t) ->
  (forall chunks1 chunks2 : list Buffer.t,
     Forall whole chunks1 -> Forall whole chunks2 ->
     concat chunks1 = concat chunks2 ->
     receive cy t chunks1 = receive cy t chunks2 /\
     receive cy t chunks1 = Some (feed cy t (map text_of chunks1))) /\
  (forall chunks1 chunks2 : list jsstring,
     concat chunks1 = concat chunks2 ->
     feed cy t chunks1 = feed cy t chunks2) /\
  (forall (chunks ls : list jsstring) (frag : jsstring),
     Forall one_line ls -> one_line frag ->
     buffer t ++ concat chunks = unlines ls ++ frag ->
     feed cy t chunks = (set_buffer t frag, flat_map (handleLine cy t) ls) /\
     Emits cy (minLevel t) ls (snd (feed cy t chunks)) /\
     (forall evs, Emits cy (minLevel t) ls evs -> evs = snd (feed cy t chunks)) /\
     one_line (buffer (fst (feed cy t chunks))) /\
     length ls = count_occ ascii_dec (buffer t ++ concat chunks) newline) /\
  (forall chunks : list jsstring,
     exists ls frag,
       Forall one_line ls /\ one_line frag /\
       buffer t ++ concat chunks = unlines ls ++ frag).
Proof.
  intros Hb.
  assert (Hs : forall chunks1 chunks2 : list jsstring,
            concat chunks1 = concat chunks2 ->
            feed cy t chunks1 = feed cy t chunks2).
  { intros chunks1 chunks2 E.
    destruct (unlines_exists (buffer t ++ concat chunks1))
      as (ls & frag & E1 & Hls & Hf).
    rewrite (@feed_unlines cy chunks1 t ls frag) by assumption.
    rewrite E in E1.
    now rewrite (@feed_unlines cy chunks2 t ls frag) by assumption. }
  split; [|split; [exact Hs | split]].
  - intros chunks1 chunks2 H1 H2 E.
    rewrite (@receive_feed cy chunks1 t H1), (@receive_feed cy chunks2 t H2).
    split; [|reflexivity]. f_equal. apply Hs.
    pose proof (whole_concat H1) as E1. rewrite E, (whole_concat H2) in E1.
    now injection E1.
  - intros chunks ls frag Hls Hf E.
    rewrite (@feed_unlines cy chunks t ls frag) by assumption.
    cbn [fst snd]. split; [reflexivity|]. split; [apply handleLine_Emits|].
    split; [|split; [exact Hf|]].
    + intros evs He. exact (Emits_unique (handleLine_Emits cy t ls) He).
    + rewrite E. symmetry. now apply count_unlines.
  - intros chunks.
    destruct (unlines_exists (buffer t ++ concat chunks))
      as (ls & frag & E1 & Hls & Hf).
    now exists ls, frag.
Qed.

(** The theorem at a line delivered in two chunks, then in three with
    other split points: the same entry is emitted and the same fragment
    kept. *)
Lemma chunk_split_invariance_witness :
  one_line (buffer default_stream) /\
  receive 2026 default_stream
       [bytes "01-10 12:34:56.789  1234  5678 D MyTag   : Hel";
        bytes "lo world" ++ [Byte.x0a] ++ bytes "01-10 12:3"]
  = receive 2026 default_stream
       [bytes "01-10 12:34:56.789  1234  5678 D MyTag   : Hello world" ++ [Byte.x0a];
        bytes "01-10 "; bytes "12:3"] /\
  receive 2026 default_stream
       [bytes "01-10 12:34:56.789  1234  5678 D MyTag   : Hel";
        bytes "lo world" ++ [Byte.x0a] ++ bytes "01-10 12:3"]
  = Some (set_buffer default_stream (str "01-10 12:3"),
          [EntryEvent {| timestamp := str "2026-01-10T12:34:56.789";
                         pid := Num 1234; tid := Num 5678; level := D;
                         tag := str "MyTag"; message := str "Hello world" |}]).
Proof.
  assert (H : one_line (buffer default_stream)) by (intros []).
  split; [exact H|].
  assert (W : forall c : Buffer.t,
            Buffer.latin1 (Buffer.toString c) <> None -> whole c) by (intros c Hc; exact Hc).
  destruct (proj1 (@chunk_split_invariance 2026 default_stream H)
              [bytes "01-10 12:34:56.789  1234  5678 D MyTag   : Hel";
               bytes "lo world" ++ [Byte.x0a] ++ bytes "01-10 12:3"]
              [bytes "01-10 12:34:56.789  1234  5678 D MyTag   : Hello world"
                 ++ [Byte.x0a];
               bytes "01-10 "; bytes "12:3"]) as [E1 E2].
  - repeat constructor; apply W; vm_compute; discriminate.
  - repeat constructor; apply W; vm_compute; discriminate.
  - reflexivity.
  - split; [exact E1|]. rewrite E2. vm_compute. reflexivity.
Defined.

(** The claim as it stands has the same entries for every two sequences
    of chunks with the same concatenation.  A chunk boundary inside a
    character breaks it: delivered whole, the line gives the entry with
    the message [caf] and e with acute accent; delivered in two chunks
    that part the two bytes of that letter, each chunk is decoded with a
    replacement character U+FFFD where its half of the letter stood, so
    the text that reaches the data handler, and with it the message of
    the entry, is another one. *)
Lemma chunk_split_invariance_counterexample :
  concat [cut_head; cut_tail] = concat [cut_head ++ cut_tail] /\
  receive 2026 default_stream [cut_head ++ cut_tail] =
    Some (default_stream,
          [EntryEvent {| timestamp := str "2026-01-10T12:34:56.789";
                         pid := Num 1234; tid := Num 5678; level := D;
                         tag := str "MyTag";
                         message := str "caf" ++ ["233"%char] |}]) /\
  Buffer.toString (cut_head ++ cut_tail) =
    Buffer.toString (bytes "01-10 12:34:56.789  1234  5678 D MyTag   : caf")
    ++ [233%N; 10%N] /\
  Buffer.toString cut_head ++ Buffer.toString cut_tail =
    Buffer.toString (bytes "01-10 12:34:56.789  1234  5678 D MyTag   : caf")
    ++ [Buffer.replacement; Buffer.replacement; 10%N] /\
  receive 2026 default_stream [cut_head; cut_tail]
    <> receive 2026 default_stream [cut_head ++ cut_tail].
Proof.
  split; [reflexivity|]. split; [vm_compute; reflexivity|].
  split; [vm_compute; reflexivity|]. split; [vm_compute; reflexivity|].
  vm_compute. discriminate.
Qed.

End ChunkClaim.

(* ================================================================== *)
(** * Part IV.  Further properties of the code                          *)
(* ================================================================== *)

(** ** The command executor, continued *)

Section ExecutorMore.
Import JS Types AdbClient Spec Extra.

(** X1.  An exit code is a result, not a failure: when the subprocess
    closes with code [n] after any amount of output and before the
    watchdog has fired, the promise of [exec] is fulfilled with that
    code and all the output received, in arrival order, whatever [n]
    is; nothing delivered later changes it. *)
Theorem exec_passes_exit_code (T : N) (before after : list event) (n : Z) :
  Forall is_data before ->
  promise (run T spawned (before ++ ProcClose (Some n) :: after)) =
    Fulfilled {| exitCode := n;
                 stdout := stdout_of before;
                 stderr := stderr_of before |}.
Proof.
  intros Hd.
  change (before ++ ProcClose (Some n) :: after)
    with (before ++ [ProcClose (Some n)] ++ after).
  rewrite run_app, (@run_data T before spawned Hd), run_app.
  rewrite run_settled; simpl; [reflexivity | discriminate].
Qed.

Lemma exec_passes_exit_code_witness :
  Forall is_data [StderrData (str "adb: device offline")] /\
  promise (run 30000 spawned
             ([StderrData (str "adb: device offline")] ++ ProcClose (Some 1%Z) :: []))
    = Fulfilled {| exitCode := 1; stdout := [];
                   stderr := str "adb: device offline" |}.
Proof.
  assert (Hd : Forall is_data [StderrData (str "adb: device offline")])
    by (repeat constructor).
  split; [exact Hd|].
  exact (@exec_passes_exit_code 30000 _ [] 1%Z Hd).
Defined.

Lemma quiet_step (T : N) (c : call) (ev : event) :
  killed c = false /\ timer c = false /\ signals c = [] ->
  killed (step T c ev) = false /\ timer (step T c ev) = false /\
  signals (step T c ev) = [].
Proof.
  intros (Hk & Ht & Hs). destruct ev; simpl; rewrite ?Ht; auto.
Qed.

Lemma quiet_run (T : N) (evs : list event) : forall c : call,
  killed c = false /\ timer c = false /\ signals c = [] ->
  killed (run T c evs) = false /\ timer (run T c evs) = false /\
  signals (run T c evs) = [].
Proof.
  induction evs as [|ev evs IH]; intros c H; [exact H|].
  simpl. apply IH. now apply quiet_step.
Qed.

(** X2.  Once the subprocess has closed or failed to start, the
    watchdog is disarmed for good: whatever is delivered afterwards, no
    signal is ever sent and the call is never reported as timed out. *)
Theorem no_signal_after_completion (T : N) (before after : list event) (ev : event) :
  Forall is_data before -> is_completion ev ->
  let c := run T spawned (before ++ ev :: after) in
  signals c = [] /\ killed c = false /\
  promise c <> Rejected (TimeoutError T) /\
  promise c = promise (run T spawned (before ++ [ev])).
Proof.
  intros Hd Hev c. unfold c.
  change (before ++ ev :: after) with (before ++ [ev] ++ after).
  rewrite app_assoc, run_app.
  set (c1 := run T spawned (before ++ [ev])).
  assert (Hq : killed c1 = false /\ timer c1 = false /\ signals c1 = []).
  { unfold c1. rewrite run_app, (@run_data T before spawned Hd).
    destruct ev; simpl in Hev; try contradiction; now simpl. }
  assert (Hs : settled (promise c1)).
  { unfold c1, settled. rewrite run_app, (@run_data T before spawned Hd).
    destruct ev; simpl in Hev; try contradiction; simpl; discriminate. }
  destruct (quiet_run T after c1 Hq) as (Hk & _ & Hsig).
  rewrite (run_settled T after c1 Hs).
  repeat apply conj; try assumption; try reflexivity.
  pose proof (watchdog_inv_run T (before ++ [ev]) spawned (watchdog_inv_spawned T)) as Hi.
  fold c1 in Hi. unfold watchdog_inv in Hi.
  destruct Hq as (Hk1 & _ & _). rewrite Hk1 in Hi. apply Hi.
Qed.

Lemma no_signal_after_completion_witness :
  Forall is_data [StdoutData (str "ok")] /\
  is_completion (ProcClose (Some 0%Z)) /\
  signals (run 30000 spawned
             ([StdoutData (str "ok")] ++ ProcClose (Some 0%Z) :: [TimerFired]))
    = [].
Proof.
  assert (Hd : Forall is_data [StdoutData (str "ok")]) by (repeat constructor).
  split; [exact Hd|]. split; [exact Logic.I|].
  exact (proj1 (@no_signal_after_completion 30000 [StdoutData (str "ok")] [TimerFired]
                  (ProcClose (Some 0%Z)) Hd Logic.I)).
Defined.

End ExecutorMore.

(** ** The one-shot logcat helpers *)

Section LogcatToolsFacts.
Import JS Types AdbClient LogcatTools Spec Extra.

Lemma clear_data (evs : list event) (p : settle unit) :
  Forall is_data evs -> fold_left clear_step evs p = p.
Proof.
  intros H. revert p. induction H as [|ev evs Hev _ IH]; intros p; [reflexivity|].
  simpl. rewrite IH. destruct ev; simpl in Hev; try contradiction; reflexivity.
Qed.

Lemma clear_settled (evs : list event) : forall p : settle unit,
  settled p -> fold_left clear_step evs p = p.
Proof.
  induction evs as [|ev evs IH]; intros p Hp; [reflexivity|].
  simpl. assert (E : clear_step p ev = p).
  { unfold settled in Hp. destruct p; try congruence;
      destruct ev as [| |[[| |]|]| |]; reflexivity. }
  rewrite E. now apply IH.
Qed.

(** X3.  [clearLogcat] has no timeout and reads no output: while only
    output arrives its promise stays pending; the first [close] decides,
    and it fulfils the promise only for the exit code 0.  Any other
    code, and the null code of a process ended by a signal, reject it
    with a message that names the code. *)
Theorem clearLogcat_outcome (before after : list event) (code : option Z) :
  Forall is_data before ->
  clearLogcat before = Pending /\
  clearLogcat (before ++ ProcClose code :: after) =
    match code with
    | Some 0%Z => Fulfilled tt
    | _ => Rejected (ProcessError
                       (str "Failed to clear logcat (exit code "
                        ++ showCode code ++ str ")"))
    end.
Proof.
  intros Hd. unfold clearLogcat. split; [now apply clear_data|].
  rewrite fold_left_app, (clear_data Pending Hd). simpl.
  rewrite clear_settled; [now destruct code as [[| |]|] |].
  unfold settled. destruct code as [[| |]|]; discriminate.
Qed.

Lemma clearLogcat_outcome_witness :
  Forall is_data [StderrData (str "warning")] /\
  clearLogcat ([StderrData (str "warning")] ++ ProcClose None :: []) =
    Rejected (ProcessError (str "Failed to clear logcat (exit code null)")).
Proof.
  assert (Hd : Forall is_data [StderrData (str "warning")]) by (repeat constructor).
  split; [exact Hd|].
  exact (proj2 (@clearLogcat_outcome [StderrData (str "warning")] [] None Hd)).
Defined.

Lemma get_data (evs : list event) : forall d : dump,
  Forall is_data evs ->
  fold_left get_step evs d =
    {| output := output d ++ stdout_of evs; result := result d |}.
Proof.
  induction evs as [|ev evs IH]; intros d Hd.
  - simpl. rewrite app_nil_r. now destruct d.
  - inversion Hd as [|? ? Hev Hd']; subst. simpl. rewrite IH by assumption.
    destruct ev; simpl in Hev; try contradiction; simpl;
      now rewrite <- ?app_assoc.
Qed.

Lemma get_settled (evs : list event) : forall d : dump,
  settled (result d) -> result (fold_left get_step evs d) = result d.
Proof.
  induction evs as [|ev evs IH]; intros d Hd; [reflexivity|].
  simpl. assert (E : result (get_step d ev) = result d).
  { unfold settled in Hd. destruct ev; simpl; try reflexivity;
      destruct (result d); simpl; congruence. }
  rewrite IH; [exact E | unfold settled; now rewrite E].
Qed.

(** X4.  [getLogcat] returns what the subprocess wrote to its standard
    output before it closed, in arrival order, whatever its exit code,
    and ignores its standard error; late events change nothing. *)
Theorem getLogcat_outcome (before after : list event) (code : option Z) :
  Forall is_data before ->
  getLogcat (before ++ ProcClose code :: after) = Fulfilled (stdout_of before).
Proof.
  intros Hd. unfold getLogcat.
  rewrite fold_left_app, (get_data _ Hd). simpl.
  rewrite get_settled; simpl; [reflexivity | discriminate].
Qed.

Lemma getLogcat_outcome_witness :
  Forall is_data [StdoutData (str "a"); StderrData (str "x"); StdoutData (str "b")] /\
  getLogcat ([StdoutData (str "a"); StderrData (str "x"); StdoutData (str "b")]
               ++ ProcClose (Some 1%Z) :: []) = Fulfilled (str "ab").
Proof.
  assert (Hd : Forall is_data
                 [StdoutData (str "a"); StderrData (str "x"); StdoutData (str "b")])
    by (repeat constructor).
  split; [exact Hd|].
  exact (@getLogcat_outcome _ [] (Some 1%Z) Hd).
Defined.

End LogcatToolsFacts.

(** ** The life cycle of a stream *)

Section StreamLifeCycle.
Import JS Types Logcat Spec Extra.

Lemma count_app (f : effect -> bool) (a b : list effect) :
  length (List.filter f (a ++ b)) = length (List.filter f a) + length (List.filter f b).
Proof. now rewrite filter_app, length_app. Qed.

Lemma orderly_fresh (options : LogcatOptions) : orderly (fresh options).
Proof.
  unfold orderly, alive, fresh. cbn. split; [|split; [|split]].
  - intros k. split; [intros (Hk & _); lia | discriminate].
  - split; reflexivity.
  - intros k [].
  - intros k [].
Qed.

Lemma orderly_step (s : session) (o : op) :
  orderly s ->
  match o with
  | DoClose k _ => k < started s /\ (holds s = None \/ holds s = Some k)
  | _ => True
  end ->
  orderly (apply_op s o).
Proof.
  intros Hord Ho. pose proof Hord as (Ha & Hp & Hs & He).
  destruct o as [| |k0 code]; cbn [apply_op].
  - unfold start. destruct (process (stream s)) as [p|] eqn:Ep.
    + exact Hord.
    + assert (Hh : holds s = None) by now apply Hp.
      unfold orderly, alive.
      cbn [stream started holds signalled exited set_process process].
      split; [|split; [|split]].
      * intros k. split.
        -- intros (Hk & Hks & Hke).
           destruct (Nat.eq_dec k (started s)) as [->|Hne]; [reflexivity|].
           exfalso. assert (Hal : alive k s) by (unfold alive; repeat split; auto; lia).
           apply Ha in Hal. congruence.
        -- intros Hk. injection Hk as <-. split; [lia|]. split.
           ++ intros Hin. apply Hs in Hin. lia.
           ++ intros Hin. apply He in Hin. lia.
      * split; discriminate.
      * intros k Hin. apply Hs in Hin. lia.
      * intros k Hin. apply He in Hin. lia.
  - unfold stop. destruct (process (stream s)) as [p|] eqn:Ep.
    + destruct (holds s) as [k0|] eqn:Eh.
      * unfold orderly, alive.
        cbn [stream started holds signalled exited set_process process].
        split; [|split; [|split]].
        -- intros k. split; [|discriminate].
           intros (Hk & Hks & Hke). exfalso.
           assert (Hal : alive k s).
           { unfold alive. repeat split; auto. intros Hin. apply Hks. now right. }
           apply Ha in Hal. injection Hal as ->. apply Hks. now left.
        -- split; reflexivity.
        -- intros k [<-|Hin]; [|now apply Hs].
           now apply (proj2 (Ha k0) eq_refl).
        -- exact He.
      * exfalso. assert (Hn : Some p = None) by (now apply Hp).
        discriminate.
    + destruct s as [t n h sg ex]. exact Hord.
  - destruct Ho as (Hk0 & Hh).
    unfold orderly, alive, on_close.
    cbn [fst stream started holds signalled exited set_process process].
    split; [|split; [|split]].
    + intros k. split; [|discriminate].
      intros (Hk & Hks & Hke). exfalso.
      assert (Hal : alive k s).
      { unfold alive. repeat split; auto. intros Hin. apply Hke. now right. }
      apply Ha in Hal. destruct Hh as [Hh|Hh]; [congruence|].
      rewrite Hh in Hal. injection Hal as ->. apply Hke. now left.
    + split; reflexivity.
    + exact Hs.
    + intros k [<-|Hin]; [assumption | now apply He].
Qed.

Lemma orderly_run (ops : list op) : forall s : session,
  orderly s -> timely s ops -> orderly (run_ops s ops).
Proof.
  induction ops as [|o ops IH]; intros s Hs Ht; [exact Hs|].
  destruct Ht as [Ho Ht]. cbn [run_ops fold_left]. apply IH; [|exact Ht].
  now apply orderly_step.
Qed.

(** X5.  One subprocess per stream, while close events are timely.
    Take a new stream and any sequence of [start] calls, [stop] calls
    and close events of its processes in which every close event is
    delivered while the stream holds that process or none.  Then the
    processes spawned that have neither been sent SIGTERM nor closed are
    exactly the one the stream holds, if it holds one, and the stream is
    running exactly then.  The condition is needed: the close listener
    of every process sets the field to null, so the close of a stopped
    process that is delivered after the next [start] makes the stream
    forget the process it holds, and a further [start] spawns another
    one beside it. *)
Theorem stream_single_process (options : LogcatOptions) (ops : list op) :
  timely (fresh options) ops ->
  (forall k, alive k (run_ops (fresh options) ops)
             <-> holds (run_ops (fresh options) ops) = Some k) /\
  (isRunning (stream (run_ops (fresh options) ops)) = true
   <-> holds (run_ops (fresh options) ops) <> None) /\
  (alive 1 (run_ops (fresh options)
              [DoStart; DoStop; DoStart; DoClose 0 None; DoStart]) /\
   alive 2 (run_ops (fresh options)
              [DoStart; DoStop; DoStart; DoClose 0 None; DoStart])).
Proof.
  intros Ht.
  destruct (orderly_run ops (orderly_fresh options) Ht) as (Ha & Hp & _).
  split; [exact Ha|]. split.
  - unfold isRunning.
    destruct (process (stream (run_ops (fresh options) ops))) eqn:E.
    + split; [|reflexivity]. intros _ Hn. apply Hp in Hn. discriminate.
    + split; [discriminate|]. intros Hn. exfalso. apply Hn. now apply Hp.
  - unfold alive. cbn. repeat split; try lia; intros [H|H]; try lia; destruct H.
Qed.

(** The theorem at a stream that is started, stopped, sees the close of
    its first process and is started again: the second process is the
    one alive, and the first is not. *)
Lemma stream_single_process_witness :
  timely (fresh {| opt_adbPath := None; opt_serial := None;
                   opt_minLevel := None; opt_tags := None |})
         [DoStart; DoStop; DoClose 0 None; DoStart] /\
  alive 1 (run_ops (fresh {| opt_adbPath := None; opt_serial := None;
                             opt_minLevel := None; opt_tags := None |})
             [DoStart; DoStop; DoClose 0 None; DoStart]) /\
  ~ alive 0 (run_ops (fresh {| opt_adbPath := None; opt_serial := None;
                               opt_minLevel := None; opt_tags := None |})
               [DoStart; DoStop; DoClose 0 None; DoStart]).
Proof.
  assert (H : timely (fresh {| opt_adbPath := None; opt_serial := None;
                               opt_minLevel := None; opt_tags := None |})
                     [DoStart; DoStop; DoClose 0 None; DoStart]).
  { cbn. repeat split; auto. }
  split; [exact H|].
  pose proof (proj1 (@stream_single_process _ _ H)) as Ha.
  split.
  - apply (proj2 (Ha 1)). reflexivity.
  - intros H0. apply (proj1 (Ha 0)) in H0. discriminate.
Defined.

(** X6.  A running stream refuses [start] and is left untouched, and
    [stop] is idempotent: a second [stop] changes nothing and sends no
    signal. *)
Theorem start_twice_stop_twice (t : LogcatStream) :
  (isRunning t = true ->
     start t = inl (str "Logcat stream already running")) /\
  (isRunning t = false ->
     exists t' p, start t = inr (t', [Spawn p; Emit StartEvent]) /\
                  process t' = Some p /\ buffer t' = buffer t /\
                  command p = adbPath t) /\
  stop (fst (stop t)) = (fst (stop t), []) /\
  isRunning (fst (stop t)) = false.
Proof.
  unfold isRunning, start, stop. destruct (process t) eqn:E; simpl.
  - repeat split; intros; try discriminate; reflexivity.
  - rewrite E. repeat split; intros; try discriminate.
    eexists. eexists. repeat split.
Qed.

End StreamLifeCycle.

(** ** The log view over any sequence of entries *)

Section ViewMore.
Import JS Types LogcatTreeProvider Spec Extra.

Lemma passes_retained (m : LogLevel) (f : option jsstring) (e : LogcatEntry) :
  passes m f e = true <-> retained m f e.
Proof.
  unfold passes, retained, text_ok. rewrite andb_true_iff, Nat.leb_le.
  destruct f as [f|]; [|tauto].
  now rewrite orb_true_iff, !includes_spec.
Qed.

Lemma addEntry_passes (p : t) (e : LogcatEntry) :
  addEntry p e = if passes (minLevel p) (filter p) e then accept p e else p.
Proof.
  destruct (passes (minLevel p) (filter p) e) eqn:E.
  - apply addEntry_retained. now apply passes_retained.
  - apply addEntry_dropped. intros H. apply passes_retained in H. congruence.
Qed.

Lemma addEntries_fields (es : list LogcatEntry) : forall p : t,
  let keep := List.filter (passes (minLevel p) (filter p)) es in
  entries (addEntries p es) = fold_left (push (maxEntries p)) keep (entries p) /\
  written (addEntries p es) = written p ++ keep /\
  refreshes (addEntries p es) = refreshes p + length keep /\
  maxEntries (addEntries p es) = maxEntries p /\
  minLevel (addEntries p es) = minLevel p /\
  filter (addEntries p es) = filter p.
Proof.
  unfold addEntries.
  induction es as [|e es IH]; intros p; simpl.
  - rewrite app_nil_r. repeat split. lia.
  - rewrite addEntry_passes.
    destruct (passes (minLevel p) (filter p) e) eqn:E.
    + destruct (IH (accept p e)) as (H1 & H2 & H3 & H4 & H5 & H6).
      cbn [minLevel filter maxEntries accept refresh writeToOutput set_entries] in *.
      rewrite H1, H2, H3, H4, H5, H6. simpl.
      rewrite <- app_assoc. repeat split. lia.
    + apply IH.
Qed.

(** X7.  Over any sequence of entries, accepted or not: the Entry Buffer
    ends as the last [maxEntries] of its old content followed by the
    entries that pass the filters, in arrival order; the output channel
    has received every entry that passed, none of them evicted; the
    tree was refreshed once per entry that passed; and the
    configuration is untouched. *)
Theorem view_after_any_sequence (p : t) (es : list LogcatEntry) :
  (0 <= maxEntries p)%Z ->
  (Z.of_nat (length (entries p)) <= maxEntries p)%Z ->
  let keep := List.filter (passes (minLevel p) (filter p)) es in
  entries (addEntries p es) = lastn (Z.to_nat (maxEntries p)) (entries p ++ keep) /\
  written (addEntries p es) = written p ++ keep /\
  refreshes (addEntries p es) = refreshes p + length keep /\
  (forall e, In e keep <-> In e es /\ retained (minLevel p) (filter p) e).
Proof.
  intros HC Hb keep.
  destruct (addEntries_fields es p) as (H1 & H2 & H3 & _).
  fold keep in H1, H2, H3. rewrite H1, H2, H3.
  repeat apply conj; try reflexivity.
  - apply push_all; [assumption | lia].
  - intros e. unfold keep. now rewrite filter_In, passes_retained.
Qed.

(** The theorem at a view of capacity two and minimum level I that is
    sent three entries of level I and one of level D: the three are
    written, the one is dropped, and the buffer keeps the last two. *)
Lemma view_after_any_sequence_witness :
  (0 <= maxEntries (setMinLevel (new 2) I))%Z /\
  (Z.of_nat (length (entries (setMinLevel (new 2) I)))
   <= maxEntries (setMinLevel (new 2) I))%Z /\
  entries (addEntries (setMinLevel (new 2) I)
             [sample_entry 1; debug_entry; sample_entry 2; sample_entry 3])
    = [sample_entry 2; sample_entry 3] /\
  written (addEntries (setMinLevel (new 2) I)
             [sample_entry 1; debug_entry; sample_entry 2; sample_entry 3])
    = [sample_entry 1; sample_entry 2; sample_entry 3] /\
  refreshes (addEntries (setMinLevel (new 2) I)
               [sample_entry 1; debug_entry; sample_entry 2; sample_entry 3])
    = 4.
Proof.
  assert (H1 : (0 <= maxEntries (setMinLevel (new 2) I))%Z) by (simpl; lia).
  assert (H2 : (Z.of_nat (length (entries (setMinLevel (new 2) I)))
                <= maxEntries (setMinLevel (new 2) I))%Z) by (simpl; lia).
  split; [exact H1|]. split; [exact H2|].
  destruct (@view_after_any_sequence (setMinLevel (new 2) I)
              [sample_entry 1; debug_entry; sample_entry 2; sample_entry 3] H1 H2)
    as (He & Hw & Hr & _).
  split; [exact He|]. split; [exact Hw | exact Hr].
Defined.

End ViewMore.

(** ** Asynchronous calls and the commands they issue *)

Section AsyncFacts.
Import JS Types AdbClient Spec Extra.

Variable World : Type.
Variable os : jsstring -> list jsstring -> World -> list event * World.

Lemma exec_issued (c : AdbClient) (args : list jsstring) (o : ExecOptions)
      (m : machine World) :
  issued (snd (exec os c args o m)) = issued m ++ [fullArgs args o].
Proof.
  unfold exec. now destruct (os (adbPath c) (fullArgs args o) (world m)).
Qed.

Lemma shell_issued (c : AdbClient) (command : jsstring) (o : ExecOptions)
      (m : machine World) :
  issued (snd (shell os c command o m)) = issued m ++ [fullArgs [str "shell"; command] o].
Proof. apply exec_issued. Qed.

Lemma bind_ret {A B} (x : Async World A) (f : A -> B) (m : machine World) :
  bind x (fun a => ret (f a)) m = (settle_map f (fst (x m)), snd (x m)).
Proof. unfold bind, ret. now destruct (x m) as [[|a|e] m']. Qed.

Lemma bind_unfold {A B} (x : Async World A) (k : A -> Async World B) (m : machine World) :
  bind x k m =
    match x m with
    | (Fulfilled a, m') => k a m'
    | (Rejected e, m') => (Rejected e, m')
    | (Pending, m') => (Pending, m')
    end.
Proof. reflexivity. Qed.

Lemma bind_issue {A B} (x : Async World A) (k : A -> Async World B) (m : machine World) :
  ~ is_fulfilled (fst (x m)) ->
  snd (bind x k m) = snd (x m) /\ ~ is_fulfilled (fst (bind x k m)).
Proof.
  unfold bind. destruct (x m) as [[|a|e] m']; simpl; tauto.
Qed.

End AsyncFacts.

(** ** The device listing with its details *)

Section ListingMore.
Import JS Types AdbClient AdbService Spec Extra.

Variable World : Type.
Variable os : jsstring -> list jsstring -> World -> list event * World.

Lemma query_issued {B} (c : AdbClient) (command : jsstring) (serial : jsstring)
      (f : AdbResult -> B) (m : machine World) :
  issued (snd (bind (shell os c command (Devices.for_serial serial))
                    (fun r => ret (f r)) m))
  = issued m ++ [fullArgs [str "shell"; command] (Devices.for_serial serial)].
Proof. rewrite bind_ret. apply exec_issued. Qed.

Lemma getDeviceName_issued (c : AdbClient) (serial : jsstring) (m : machine World) :
  issued (snd (Devices.getDeviceName os c serial m))
  = issued m ++ [fullArgs [str "shell"; str "getprop"] (Devices.for_serial serial)].
Proof.
  unfold Devices.getDeviceName, Devices.getDeviceProps.
  rewrite bind_ret. cbn [snd]. apply query_issued.
Qed.

(** One device: the queries issued, and what can come back. *)
Lemma resolveDevice_shape (c : AdbClient) (d : Device) (m : machine World) :
  issued (snd (resolveDevice os c d m)) = issued m ++ queries d /\
  (forall e, fst (resolveDevice os c d m) <> Rejected e) /\
  (forall info, fst (resolveDevice os c d m) = Fulfilled info ->
     base info = d /\
     (state d <> str "device" -> info = basicInfo d)).
Proof.
  unfold resolveDevice, queries.
  destruct (JS.eqb (state d) (str "device")) eqn:Hs; cbn [negb].
  - unfold try_catch, bind, all3. cbv beta.
    pose proof (getDeviceName_issued c (Types.serial d) m) as I1.
    destruct (Devices.getDeviceName os c (Types.serial d) m) as [r1 m1].
    pose proof (query_issued c (str "getprop ro.build.version.sdk") (Types.serial d)
                  (fun r => parseInt (trim (stdout r))) m1) as I2.
    change (bind _ _ m1) with (Devices.getApiLevel os c (Types.serial d) m1) in I2.
    cbv beta in I2.
    destruct (Devices.getApiLevel os c (Types.serial d) m1) as [r2 m2].
    pose proof (query_issued c (str "getprop ro.build.version.release") (Types.serial d)
                  (fun r => trim (stdout r)) m2) as I3.
    change (bind _ _ m2) with (Devices.getAndroidVersion os c (Types.serial d) m2) in I3.
    destruct (Devices.getAndroidVersion os c (Types.serial d) m2) as [r3 m3].
    cbn [snd] in I1, I2, I3.
    assert (HI : issued m3 = issued m ++
              [fullArgs [str "shell"; str "getprop"] (Devices.for_serial (Types.serial d));
               fullArgs [str "shell"; str "getprop ro.build.version.sdk"]
                        (Devices.for_serial (Types.serial d));
               fullArgs [str "shell"; str "getprop ro.build.version.release"]
                        (Devices.for_serial (Types.serial d))]).
    { rewrite I3, I2, I1, <- !app_assoc. reflexivity. }
    assert (Hne : state d <> str "device" -> False).
    { intros Hn. unfold JS.eqb in Hs.
      destruct (list_eq_dec ascii_dec (state d) (str "device")); congruence. }
    destruct r1 as [|x1|e1], r2 as [|x2|e2], r3 as [|x3|e3]; cbn;
      (split; [exact HI|]); (split; [intros e; discriminate|]);
      intros info Hi; try discriminate; injection Hi as <-;
      (split; [reflexivity | intros Hn; destruct (Hne Hn)]).
  - cbn. rewrite app_nil_r. split; [reflexivity|].
    split; [intros e; discriminate|].
    intros info Hi. injection Hi as <-. now split.
Qed.

Lemma resolveAll_shape (c : AdbClient) (devices : list Device) :
  forall m : machine World,
  (forall e, fst (resolveAll os c devices m) <> Rejected e) /\
  (forall infos, fst (resolveAll os c devices m) = Fulfilled infos ->
     map base infos = devices /\
     issued (snd (resolveAll os c devices m)) = issued m ++ flat_map queries devices /\
     Forall (fun info => state (base info) <> str "device" ->
                         info = basicInfo (base info)) infos).
Proof.
  induction devices as [|d devices IH]; intros m.
  - cbn. split; [intros e; discriminate|].
    intros infos H. injection H as <-. rewrite app_nil_r. repeat split. constructor.
  - cbn [resolveAll flat_map]. rewrite (bind_unfold (resolveDevice os c d)).
    destruct (resolveDevice_shape c d m) as (HI & HR & HF).
    destruct (resolveDevice os c d m) as [[|info|e] m1]; cbn [fst snd] in *.
    + split; [intros e; discriminate | intros infos H; discriminate].
    + destruct (HF info eq_refl) as [Hb Hbasic]. rewrite bind_ret.
      destruct (IH m1) as (IR & IF).
      destruct (resolveAll os c devices m1) as [[|infos|e] m2]; cbn [fst snd settle_map] in *.
      * split; [intros e; discriminate | intros infos H; discriminate].
      * split; [intros e; discriminate|].
        intros infos' H. injection H as <-.
        destruct (IF infos eq_refl) as (Hm & Hi & Hall).
        cbn [map]. rewrite Hb, Hm, Hi, HI, <- app_assoc.
        repeat split. constructor; [|assumption].
        rewrite Hb. exact Hbasic.
      * exfalso. now apply (IR e).
    + exfalso. now apply (HR e).
Qed.

(** X8.  Details never fail the listing.  When [getDevices] of the
    service returns, its list has one entry per device of the parsed
    listing, in the same order and around the same [Device]; each device
    that is not ready carries the basic values; the commands issued are
    the listing command followed, for each ready device in turn, by its
    three property queries, and by nothing for the others.  Once the
    listing command is fulfilled the call cannot be rejected, whatever
    the queries do. *)
Theorem getDevices_follows_listing (c : AdbClient) (m : machine World) :
  (forall infos,
     fst (getDevices os c m) = Fulfilled infos ->
     exists listing,
       fst (exec os c [str "devices"; str "-l"] no_options m) = Fulfilled listing /\
       map base infos = Devices.parseDevices (stdout listing) /\
       issued (snd (getDevices os c m)) =
         issued m ++ [str "devices"; str "-l"]
                  :: flat_map queries (Devices.parseDevices (stdout listing)) /\
       Forall (fun info => state (base info) <> str "device" ->
                           info = basicInfo (base info)) infos) /\
  (forall e,
     fst (getDevices os c m) = Rejected e <->
     fst (exec os c [str "devices"; str "-l"] no_options m) = Rejected e).
Proof.
  unfold getDevices. rewrite !bind_unfold.
  unfold Devices.getDevices. rewrite !bind_ret.
  pose proof (exec_issued os c [str "devices"; str "-l"] no_options m) as HI.
  destruct (exec os c [str "devices"; str "-l"] no_options m) as [[|listing|e0] m1];
    cbn [fst snd settle_map] in *.
  - split; [intros infos H; discriminate | intros e; cbn; split; discriminate].
  - destruct (resolveAll_shape c (Devices.parseDevices (stdout listing)) m1) as (HR & HF).
    split.
    + intros infos H. exists listing. destruct (HF infos H) as (Hm & Hi & Hall).
      repeat split; try assumption.
      rewrite Hi, HI, <- app_assoc. reflexivity.
    + intros e. split; [intros H; now apply HR in H | discriminate].
  - split; [intros infos H; discriminate |].
    intros e; cbn; split; intros H; injection H as ->; reflexivity.
Qed.

End ListingMore.

(** ** Actions on a device *)

Section ActionFacts.
Import JS Types AdbClient DeviceActions Spec Extra.

Variable World : Type.
Variable os : jsstring -> list jsstring -> World -> list event * World.

(** X9.  [takeScreenshot] runs its three commands strictly one after
    the other and stops at the first that does not come back: the
    commands issued are a prefix of screencap, pull, rm; the pull is
    issued only after the screencap is fulfilled and the removal only
    after the pull is; the call is fulfilled exactly when all three
    are.  An exit code plays no part, since [exec] fulfils on any. *)
Theorem takeScreenshot_sequence (c : AdbClient) (serial localPath : jsstring)
        (m : machine World) :
  let '(r1, m1) := shell os c (str "screencap -p " ++ remotePath)
                         (Devices.for_serial serial) m in
  let '(r2, m2) := exec os c [str "pull"; remotePath; localPath]
                        (Devices.for_serial serial) m1 in
  let '(r3, m3) := shell os c (str "rm " ++ remotePath)
                         (Devices.for_serial serial) m2 in
  let k := if fulfilledb r1 then if fulfilledb r2 then 3 else 2 else 1 in
  issued (snd (takeScreenshot os c serial localPath m))
    = issued m ++ firstn k (screenshot_commands serial localPath) /\
  fulfilledb (fst (takeScreenshot os c serial localPath m))
    = fulfilledb r1 && fulfilledb r2 && fulfilledb r3.
Proof.
  unfold takeScreenshot.
  pose proof (shell_issued os c (str "screencap -p " ++ remotePath)
                (Devices.for_serial serial) m) as I1.
  rewrite bind_unfold.
  destruct (shell os c (str "screencap -p " ++ remotePath)
                  (Devices.for_serial serial) m) as [r1 m1].
  pose proof (exec_issued os c [str "pull"; remotePath; localPath]
                (Devices.for_serial serial) m1) as I2.
  destruct (exec os c [str "pull"; remotePath; localPath]
                 (Devices.for_serial serial) m1) as [r2 m2] eqn:E2.
  pose proof (shell_issued os c (str "rm " ++ remotePath)
                (Devices.for_serial serial) m2) as I3.
  destruct (shell os c (str "rm " ++ remotePath) (Devices.for_serial serial) m2)
    as [r3 m3] eqn:E3.
  cbn [snd] in I1, I2, I3. unfold screenshot_commands.
  destruct r1 as [|x1|e1]; cbn [fulfilledb firstn andb fst snd];
    try (split; [exact I1 | reflexivity]).
  rewrite bind_unfold, E2.
  destruct r2 as [|x2|e2]; cbn [fulfilledb firstn andb fst snd];
    try (split; [rewrite I2, I1, <- app_assoc; reflexivity | reflexivity]).
  rewrite bind_unfold, E3.
  destruct r3 as [|x3|e3]; cbn [fulfilledb firstn andb fst snd ret];
    (split; [rewrite I3, I2, I1, <- !app_assoc; reflexivity | reflexivity]).
Qed.

(** X10.  [installApk] goes by the text of the output alone: it is
    fulfilled iff the install command comes back with "Success"
    somewhere in its standard output, whatever the exit code; a command
    that comes back without it is rejected with both outputs in the
    message, one that is rejected passes its error on, and the watchdog
    of this call is set to 120000 ms whatever the default of the
    client. *)
Theorem installApk_success (c : AdbClient) (serial apkPath : jsstring)
        (options : InstallOptions) (m : machine World) :
  let run := exec os c (install_args apkPath options) (install_options serial) m in
  (fst (installApk os c serial apkPath options m) = Fulfilled tt <->
   exists r, fst run = Fulfilled r /\ Contains (stdout r) (str "Success")) /\
  (forall r, fst run = Fulfilled r -> ~ Contains (stdout r) (str "Success") ->
     fst (installApk os c serial apkPath options m) =
       Rejected (ProcessError (str "Failed to install APK: " ++ stdout r
                               ++ str " " ++ stderr r))) /\
  (forall e, fst run = Rejected e ->
     fst (installApk os c serial apkPath options m) = Rejected e) /\
  effective_timeout c (install_options serial) = 120000%N.
Proof.
  intros run. unfold installApk. fold (install_options serial). rewrite bind_unfold.
  fold run. destruct run as [[|r|e] m1]; cbn [fst snd].
  - repeat split; try discriminate. intros (r & H & _). discriminate.
  - destruct (includes (stdout r) (str "Success")) eqn:Hi; cbn [negb];
      unfold throw, ret; cbn [fst].
    + apply includes_spec in Hi. repeat split; try discriminate.
      * intros _. now exists r.
      * intros r' H Hn. injection H as <-. contradiction.
    + assert (Hn : ~ Contains (stdout r) (str "Success")).
      { intros H. apply includes_spec in H. congruence. }
      repeat split; try discriminate.
      * intros (r' & H & Hc). injection H as <-. contradiction.
      * intros r' H _. injection H as <-. reflexivity.
  - repeat split; try discriminate.
    + intros (r & H & _). discriminate.
    + intros e' H. injection H as ->. reflexivity.
Qed.

End ActionFacts.

(** ** Patterns that match in one way only *)

Section DetExec.
Import JS Regex Spec Extra.

Lemma exec_det_app (r1 r2 : list item) (st : mstate) (s : jsstring)
      (st1 : mstate) (s1 : jsstring) :
  Det r1 -> Matches r1 st s st1 s1 ->
  exec (r1 ++ r2) st s = exec r2 st1 s1.
Proof.
  intros Hd HM.
  destruct (exec (r1 ++ r2) st s) as [res|] eqn:E.
  - apply exec_sound in E as (st1' & s1' & HM' & E).
    destruct (@det_unique _ Hd _ _ _ _ _ _ HM' HM) as [-> ->]. now symmetry.
  - destruct (exec r2 st1 s1) as [res|] eqn:E2; [|reflexivity].
    exfalso. apply (@exec_complete r1 r2 st s st1 s1 HM); [congruence | exact E].
Qed.

Lemma exec_det (r : list item) (st : mstate) (s : jsstring)
      (st1 : mstate) (s1 : jsstring) :
  Det r -> Matches r st s st1 s1 -> exec r st s = Some (st1, s1).
Proof.
  intros Hd HM. rewrite <- (app_nil_r r).
  now rewrite (@exec_det_app r [] st s st1 s1 Hd HM).
Qed.

Lemma not_char_disjoint (x : ascii) : disjoint (is_not_char x) (is_char x).
Proof.
  intros c H1 H2. unfold is_not_char, is_char in *. rewrite H2 in H1. discriminate.
Qed.

Lemma search_found (r : list item) (s : jsstring) (start : nat)
      (st : mstate) (rest : jsstring) :
  exec r (init start) s = Some (st, rest) ->
  search r start s = Some (caps st, rest).
Proof. intros E. destruct s; cbn [search]; now rewrite E. Qed.

Lemma search_skip (r : list item) (c : ascii) (s : jsstring) (start : nat) :
  exec r (init start) (c :: s) = None ->
  search r start (c :: s) = search r (Datatypes.S start) s.
Proof. intros E. cbn [search]. now rewrite E. Qed.

End DetExec.

(** ** The property table *)

Section PropertyTable.
Import JS Regex Types Devices Spec Extra.

Lemma prop_regex_det : Det prop_regex.
Proof.
  unfold prop_regex.
  repeat first
    [ apply Det_nil | apply Det_Open | apply Det_Close | apply Det_Exactly
    | apply (@Det_Greedy (is_not_char "]") _ (is_char "]"));
        [reflexivity | apply not_char_disjoint |] ].
Qed.

Lemma exec_prop_line (kv : jsstring * jsstring) (rest : jsstring) (start : nat) :
  prop_ok kv ->
  exists st, exec prop_regex (init start) (prop_line kv ++ rest) = Some (st, rest) /\
             caps st = [fst kv; snd kv].
Proof.
  intros (Hk & Lk & Hv). eexists. split.
  - apply exec_det; [exact prop_regex_det|].
    unfold prop_regex, prop_line.
    replace (str "]: [") with (str "]" ++ str ":" ++ str " " ++ str "[") by reflexivity.
    rewrite <- !app_assoc. cbn [Matches].
    repeat (eexists; eexists; split; [reflexivity | split; [| split]]);
      try apply all_char; try reflexivity; try assumption; try apply Nat.le_0_l.
    split; reflexivity.
  - reflexivity.
Qed.

Lemma search_prop_line (kv : jsstring * jsstring) (rest : jsstring) (start : nat) :
  prop_ok kv ->
  search prop_regex start (prop_line kv ++ rest) = Some ([fst kv; snd kv], rest).
Proof.
  intros H. destruct (exec_prop_line rest start H) as (st & E & Hc).
  rewrite (@search_found _ _ _ _ _ E). now rewrite Hc.
Qed.

Lemma scan_prop_lines (kvs : list (jsstring * jsstring)) :
  forall (n start : nat) (lead : jsstring) (props : Props),
  Forall prop_ok kvs ->
  lead = [] \/ lead = [newline] ->
  length (lead ++ prop_lines kvs) <= n ->
  scanProps n start (lead ++ prop_lines kvs) props = rev (stored kvs) ++ props.
Proof.
  induction kvs as [|kv kvs IH]; intros n start lead props Hok Hlead Hn.
  - destruct Hlead as [-> | ->]; destruct n; reflexivity.
  - inversion Hok as [|? ? Hkv Hok']; subst.
    cbn [prop_lines flat_map] in *. fold (prop_lines kvs) in *.
    assert (Hs : forall st0,
              search prop_regex st0 (lead ++ (prop_line kv ++ [newline]) ++ prop_lines kvs)
              = Some ([fst kv; snd kv], [newline] ++ prop_lines kvs)).
    { intros st0. destruct Hlead as [-> | ->].
      - cbn [app]. rewrite <- app_assoc. now apply search_prop_line.
      - change ([newline] ++ (prop_line kv ++ [newline]) ++ prop_lines kvs)
          with (newline :: ((prop_line kv ++ [newline]) ++ prop_lines kvs)).
        rewrite search_skip by reflexivity.
        rewrite <- app_assoc. now apply search_prop_line. }
    destruct n as [|n].
    + exfalso. destruct Hlead as [-> | ->]; simpl in Hn; lia.
    + cbn [scanProps]. rewrite Hs.
      rewrite (IH n _ [newline] (set props (fst kv) (snd kv)) Hok' (or_intror eq_refl)).
      * unfold set, stored. cbn [List.filter].
        destruct (JS.eqb (fst kv) (str "__proto__")); cbn [negb]; [reflexivity|].
        cbn [rev]. rewrite <- app_assoc. now destruct kv.
      * rewrite !length_app in Hn. rewrite length_app.
        unfold prop_line in Hn. simpl in Hn. simpl. lia.
Qed.

Lemma own_rev (key : jsstring) (kvs : list (jsstring * jsstring)) :
  forall props : Props,
  own (rev kvs ++ props) key =
    match last_value key kvs with
    | Some v => Some v
    | None => own props key
    end.
Proof.
  unfold last_value.
  induction kvs as [|[k v] kvs IH] using rev_ind; intros props; [reflexivity|].
  rewrite rev_app_distr, fold_left_app. simpl.
  destruct (JS.eqb k key); [reflexivity | apply IH].
Qed.

Lemma last_value_stored (key : jsstring) (kvs : list (jsstring * jsstring)) :
  last_value key (stored kvs) =
    if JS.eqb key (str "__proto__") then None else last_value key kvs.
Proof.
  unfold last_value, stored.
  induction kvs as [|[k v] kvs IH] using rev_ind.
  - simpl. now destruct (JS.eqb key (str "__proto__")).
  - rewrite filter_app, !fold_left_app. cbn [List.filter fst snd fold_left].
    unfold JS.eqb in *.
    destruct (list_eq_dec ascii_dec k (str "__proto__")) as [->|Hk]; cbn [negb fold_left].
    + rewrite IH.
      destruct (list_eq_dec ascii_dec key (str "__proto__")) as [->|Hne].
      * reflexivity.
      * destruct (list_eq_dec ascii_dec (str "__proto__") key); congruence.
    + cbn [fst snd]. rewrite IH.
      destruct (list_eq_dec ascii_dec k key) as [->|Hne]; [|reflexivity].
      destruct (list_eq_dec ascii_dec key (str "__proto__")); congruence.
Qed.

(** X11.  Round trip of the property table.  A [getprop] output made of
    lines "[key]: [value]", with non-empty keys and no closing bracket
    inside a key or a value, is read back pair by pair into the object,
    the key [__proto__] apart, whose assignment does nothing.  Reading
    a key then gives the value of its last line; for a key without line
    it gives the member of [Object.prototype] of that name if there is
    one and [undefined] otherwise, and [__proto__] always reads as the
    prototype.  For the names that are not names of the prototype, as
    the ones the sources read, the optional field is the value of the
    last line, if any. *)
Theorem props_round_trip (kvs : list (jsstring * jsstring)) :
  Forall prop_ok kvs ->
  parseProps (prop_lines kvs) = rev (stored kvs) /\
  (forall key, get (parseProps (prop_lines kvs)) key = read_back key kvs) /\
  (forall key, inherited key = false ->
     field (parseProps (prop_lines kvs)) key = last_value key kvs) /\
  (forall key, last_value key kvs = None <-> ~ In key (map fst kvs)).
Proof.
  intros Hok.
  assert (E : parseProps (prop_lines kvs) = rev (stored kvs)).
  { unfold parseProps.
    pose proof (@scan_prop_lines kvs (length (prop_lines kvs)) 0 [] [] Hok
                  (or_introl eq_refl)) as H.
    cbn [app] in H. rewrite H; [apply app_nil_r | apply Nat.le_refl]. }
  assert (O : forall key, own (parseProps (prop_lines kvs)) key =
                          if JS.eqb key (str "__proto__") then None
                          else last_value key kvs).
  { intros key. rewrite E, <- (app_nil_r (rev (stored kvs))), own_rev.
    rewrite last_value_stored.
    destruct (JS.eqb key (str "__proto__")); [reflexivity|].
    now destruct (last_value key kvs). }
  split; [exact E|]. split; [|split].
  - intros key. unfold get, read_back. rewrite O.
    unfold JS.eqb. destruct (list_eq_dec ascii_dec key (str "__proto__")) as [->|_];
      reflexivity.
  - intros key Hkey. unfold field, get. rewrite O.
    unfold JS.eqb. destruct (list_eq_dec ascii_dec key (str "__proto__")) as [->|_].
    + discriminate.
    + destruct (last_value key kvs); [reflexivity|]. now rewrite Hkey.
  - intros key. unfold last_value. clear.
    induction kvs as [|[k v] kvs IH] using rev_ind; [simpl; tauto|].
    rewrite fold_left_app, map_app, in_app_iff. simpl. unfold JS.eqb.
    destruct (list_eq_dec ascii_dec k key) as [->|Hne].
    + split; [discriminate | tauto].
    + rewrite IH. tauto.
Qed.

Lemma props_round_trip_witness :
  Forall prop_ok [(str "ro.product.model", str "Pixel 7");
                  (str "__proto__", str "x");
                  (str "ro.product.model", str "Pixel 7a")] /\
  get (parseProps (prop_lines [(str "ro.product.model", str "Pixel 7");
                               (str "__proto__", str "x");
                               (str "ro.product.model", str "Pixel 7a")]))
      (str "ro.product.model") = Value (str "Pixel 7a") /\
  get (parseProps (prop_lines [(str "ro.product.model", str "Pixel 7");
                               (str "__proto__", str "x");
                               (str "ro.product.model", str "Pixel 7a")]))
      (str "__proto__") = Member.
Proof.
  assert (H : Forall prop_ok [(str "ro.product.model", str "Pixel 7");
                              (str "__proto__", str "x");
                              (str "ro.product.model", str "Pixel 7a")]).
  { repeat constructor. }
  split; [exact H|]. split.
  - exact (proj1 (proj2 (props_round_trip H)) (str "ro.product.model")).
  - exact (proj1 (proj2 (props_round_trip H)) (str "__proto__")).
Defined.

End PropertyTable.

(** ** The version of the bridge *)

Section VersionText.
Import JS Regex Types AdbCommands Spec Extra.

Lemma lit_det (l : jsstring) : Det (lit l).
Proof. induction l; simpl; constructor; assumption. Qed.

Lemma lit_matches (l : jsstring) : forall (st : mstate) (s : jsstring),
  cur st = None ->
  Matches (lit l) st (l ++ s) (MState (pos st + length l) (caps st) None) s.
Proof.
  induction l as [|c l IH]; intros st s Hc.
  - simpl. rewrite Nat.add_0_r. destruct st; simpl in *. now subst.
  - cbn [lit map Matches]. exists [c], (l ++ s).
    split; [reflexivity|]. split; [apply all_char|]. split; [reflexivity|].
    specialize (IH (consume st [c]) s).
    unfold consume in IH at 1 2 3. cbn [pos caps cur length] in IH.
    rewrite Hc in IH. cbn [option_map] in IH.
    replace (pos st + length (c :: l)) with (pos st + 1 + length l) by (simpl; lia).
    unfold consume. rewrite Hc. now apply IH.
Qed.

Lemma lit_matches_inv (l : jsstring) :
  forall (st : mstate) (s : jsstring) (st' : mstate) (s' : jsstring),
  Matches (lit l) st s st' s' -> s = l ++ s'.
Proof.
  induction l as [|c l IH]; intros st s st' s' H.
  - now destruct H as [_ ->].
  - cbn [lit map Matches] in H. destruct H as (pre & post & -> & Hp & Hl & H).
    simpl in Hl. rewrite (char_run Hp Hl). simpl. f_equal. now apply IH in H.
Qed.

Lemma search_sound (r : list item) (s : jsstring) :
  forall (start : nat) (groups : list jsstring) (rest : jsstring),
  search r start s = Some (groups, rest) ->
  exists pre s' n st, s = pre ++ s' /\ exec r (init n) s' = Some (st, rest).
Proof.
  induction s as [|c s IH]; intros start groups rest H; cbn [search] in H.
  - destruct (exec r (init start) []) as [[st rest']|] eqn:E; [|discriminate].
    injection H as _ <-. now exists [], [], start, st.
  - destruct (exec r (init start) (c :: s)) as [[st rest']|] eqn:E.
    + injection H as _ <-. now exists [], (c :: s), start, st.
    + apply IH in H as (pre & s' & n & st & -> & E').
      now exists (c :: pre), s', n, st.
Qed.

Lemma takeWhile_stop (p : ascii -> bool) (v rest : jsstring) :
  all p v -> stops p rest ->
  takeWhile p (v ++ rest) = v /\ dropWhile p (v ++ rest) = rest.
Proof.
  intros Hv Hr. induction Hv as [|c v Hc _ IH]; simpl.
  - destruct rest as [|c r]; [now split|]. simpl in Hr. simpl. now rewrite Hr.
  - rewrite Hc. destruct IH as [-> ->]. now split.
Qed.

Lemma greedy_always (R : Type) (p : ascii -> bool) (f : jsstring -> jsstring -> R) :
  forall (s taken : jsstring),
  rep_greedy p (fun t r => Some (f t r)) 0 taken s =
    Some (f (taken ++ takeWhile p s) (dropWhile p s)).
Proof.
  induction s as [|c s IH]; intros taken; simpl.
  - now rewrite (app_nil_r taken).
  - destruct (p c) eqn:Hc; [|now rewrite (app_nil_r taken)].
    rewrite IH, <- app_assoc. reflexivity.
Qed.

Lemma exec_version (start : nat) (v rest : jsstring) :
  all is_version_char v -> 1 <= length v -> stops is_version_char rest ->
  exists st, exec version_regex (init start) (banner ++ v ++ rest) = Some (st, rest) /\
             caps st = [v].
Proof.
  intros Hv Hl Hr. unfold version_regex.
  rewrite (@exec_det_app (lit banner) _ _ _ _ _ (lit_det banner)
             (@lit_matches banner (init start) (v ++ rest) eq_refl)).
  destruct v as [|c v]; [simpl in Hl; lia|].
  inversion Hv as [|? ? Hc Hv']; subst.
  cbn [exec rep app rep_greedy pred]. rewrite Hc.
  rewrite (@greedy_always _ is_version_char
             (fun t r => (close (consume (open (MState (pos (init start) + length banner)
                                                       (caps (init start)) None)) t), r))).
  destruct (takeWhile_stop rest Hv' Hr) as [-> ->].
  eexists. split; reflexivity.
Qed.

(** X12.  [version] reads the number that follows the banner "Android
    Debug Bridge version ": for an output that starts with the banner
    and a run of digits and dots, it returns exactly that run, up to the
    first other character; an output that does not hold the banner at
    all gives "unknown" and no failure. *)
Theorem version_text :
  (forall v rest : jsstring,
     all is_version_char v -> 1 <= length v -> stops is_version_char rest ->
     parseVersion (banner ++ v ++ rest) = v) /\
  (forall stdout : jsstring,
     ~ Contains stdout banner -> parseVersion stdout = str "unknown").
Proof.
  split.
  - intros v rest Hv Hl Hr. unfold parseVersion, match_.
    destruct (@exec_version 0 v rest Hv Hl Hr) as (st & E & Hc).
    rewrite (@search_found _ _ _ _ _ E), Hc. reflexivity.
  - intros stdout Hn. unfold parseVersion, match_.
    destruct (search version_regex 0 stdout) as [[groups rest]|] eqn:E; [|reflexivity].
    exfalso. apply Hn.
    apply search_sound in E as (pre & s' & n & st & -> & E).
    unfold version_regex in E. apply exec_sound in E as (st1 & s1 & HM & _).
    apply lit_matches_inv in HM. subst s'. now exists pre, s1.
Qed.

End VersionText.

(** ** The log stream of the service *)

Section ServiceStream.
Import JS Types Logcat Spec Extra.

Lemma service_call_balance (svc : AdbService.streams) (c : service_op) :
  exists svc' effs,
    service_call svc c = inr (svc', effs) /\
    spawns effs + service_live svc = kills effs + service_live svc' /\
    spawns effs = starts [c].
Proof.
  destruct svc as [[t|]]; destruct c as [adbPath serial tags|];
    unfold service_call, AdbService.startLogcat, AdbService.stopLogcat,
           service_live, live, isRunning, stop;
    cbn [AdbService.logcatStream]; try destruct (process t) as [p|];
    cbn; eexists; eexists; (split; [reflexivity|]); split; reflexivity.
Qed.

(** X13.  The service keeps at most one log process.  Whatever the
    order of its [startLogcat] and [stopLogcat] calls, no call throws
    (a [startLogcat] never meets "Logcat stream already running"), every
    [startLogcat] spawns exactly one process, and the processes spawned
    and not killed are exactly the one of the current stream, if any:
    the previous process is killed before the next is spawned. *)
Theorem service_single_process (cs : list service_op) :
  forall svc : AdbService.streams,
  exists svc' effs,
    service_run svc cs = inr (svc', effs) /\
    spawns effs + service_live svc = kills effs + service_live svc' /\
    spawns effs = starts cs.
Proof.
  induction cs as [|c cs IH]; intros svc.
  - exists svc, []. repeat split.
  - destruct (service_call_balance svc c) as (svc1 & e1 & E1 & B1 & S1).
    destruct (IH svc1) as (svc2 & e2 & E2 & B2 & S2).
    exists svc2, (e1 ++ e2). cbn [service_run]. rewrite E1, E2.
    split; [reflexivity|].
    unfold spawns, kills, starts in *. rewrite !count_app.
    cbn [List.filter] in *. destruct c; cbn [length] in *; lia.
Qed.

End ServiceStream.

(** ** What a stream emits *)

Section StreamOutput.
Import JS Types Logcat Spec Extra.

Lemma handleLine_events (cy : N) (t : LogcatStream) (line : jsstring) (ev : event) :
  In ev (handleLine cy t line) ->
  exists e, ev = EntryEvent e /\ parseLogcatLine cy line = Some e /\
            rank (minLevel t) <= rank (level e).
Proof.
  unfold handleLine, shouldEmit. destruct (trim line); [intros []|].
  destruct (parseLogcatLine cy line) as [e|]; [|intros []].
  rewrite !priority_rank.
  destruct (Z.ltb_spec (Z.of_nat (rank (level e))) (Z.of_nat (rank (minLevel t))));
    [intros []|].
  intros [<-|[]]. exists e. repeat split. lia.
Qed.

Lemma handleData_events (cy : N) (t : LogcatStream) (data : jsstring) (ev : event) :
  In ev (snd (handleData cy t data)) ->
  exists e line, ev = EntryEvent e /\ parseLogcatLine cy line = Some e /\
                 rank (minLevel t) <= rank (level e).
Proof.
  unfold handleData. cbn [snd]. intros (line & _ & H)%in_flat_map.
  apply handleLine_events in H as (e & H). now exists e, line.
Qed.

Lemma handleData_minLevel (cy : N) (t : LogcatStream) (data : jsstring) :
  minLevel (fst (handleData cy t data)) = minLevel t.
Proof. reflexivity. Qed.

(** X14.  Whatever arrives on the standard output, in whatever chunks,
    a stream emits nothing but entries: each one is the parse of some
    line, and none is below the minimum level of the stream. *)
Theorem stream_emits_only_allowed_entries (cy : N) (chunks : list jsstring) :
  forall (t : LogcatStream) (ev : event),
  In ev (snd (feed cy t chunks)) ->
  exists e line, ev = EntryEvent e /\ parseLogcatLine cy line = Some e /\
                 rank (minLevel t) <= rank (level e).
Proof.
  induction chunks as [|data chunks IH]; intros t ev H; [destruct H|].
  cbn [feed] in H.
  pose proof (@handleData_events cy t data ev) as H1.
  pose proof (handleData_minLevel cy t data) as Hm.
  destruct (handleData cy t data) as [t1 out1]. cbn [fst snd] in *.
  specialize (IH t1 ev).
  destruct (feed cy t1 chunks) as [t2 out2]. cbn [snd] in *.
  apply in_app_or in H as [H|H]; [now apply H1|].
  rewrite <- Hm. now apply IH.
Qed.

End StreamOutput.

Section StreamOutputWitness.
Import JS Types Logcat Spec Extra.

Lemma stream_emits_only_allowed_entries_witness :
  In (EntryEvent (entry_of 2026 colon_parts))
     (snd (feed 2026 default_stream [text colon_parts ++ [newline]])) /\
  exists e line,
    EntryEvent (entry_of 2026 colon_parts) = EntryEvent e /\
    parseLogcatLine 2026 line = Some e /\
    rank (minLevel default_stream) <= rank (level e).
Proof.
  assert (H : In (EntryEvent (entry_of 2026 colon_parts))
                 (snd (feed 2026 default_stream [text colon_parts ++ [newline]]))).
  { vm_compute. left. reflexivity. }
  split; [exact H|].
  exact (@stream_emits_only_allowed_entries 2026 _ default_stream _ H).
Defined.

End StreamOutputWitness.

(** ** Lines that end in a carriage return *)

Section CarriageReturn.
Import JS Regex Types Logcat Spec Extra.

Lemma Matches_frame (r : list item) :
  open_ended r = true ->
  forall (st : mstate) (s : jsstring) (st' : mstate) (s' z : jsstring),
  Matches r st s st' s' -> Matches r st (s ++ z) st' (s' ++ z).
Proof.
  induction r as [|i r IH]; intros Hr st s st' s' z H.
  - destruct H as [-> ->]. now split.
  - cbn [open_ended forallb] in Hr. apply andb_true_iff in Hr as [Hi Hr].
    destruct i as [| | | |p q]; cbn [Matches] in *; try discriminate.
    + destruct H as [H0 H]. split; [assumption | now apply IH].
    + now apply IH.
    + now apply IH.
    + destruct H as (pre & post & -> & Hp & Hq & H).
      exists pre, (post ++ z). rewrite app_assoc.
      repeat split; try assumption. now apply IH.
Qed.

(** The tag part of the pattern stops at the first colon, whatever
    follows the line. *)
Lemma tag_unique_tail (x : line_parts) (z : jsstring) (st1 st2 : mstate)
      (s2 : jsstring) :
  well_formed x -> cur st1 = None ->
  Matches regex_tag st1 (text_after_level x ++ z) st2 s2 ->
  s2 = text_after_tag x ++ z /\
  exists tg, caps st2 = caps st1 ++ [tg] /\ trim tg = trim (l_tag x).
Proof.
  intros Hx Hcur HM. unfold regex_tag, text_after_level in HM. cbn [Matches] in HM.
  destruct HM as (w5 & r1 & E1 & Hw5 & _ & tg & r2 & -> & Htg & _ &
                  w6 & r3 & -> & Hw6 & _ & col & r4 & -> & Hcol & Lcol & -> & ->).
  apply (char_run Hcol) in Lcol. subst col.
  assert (E : (l_ws5 x ++ l_tag x ++ l_ws6 x) ++ ":"%char :: (text_after_tag x ++ z)
              = (w5 ++ tg ++ w6) ++ ":"%char :: r4).
  { rewrite <- !app_assoc in E1. rewrite <- !app_assoc. exact E1. }
  apply split_at_first in E as [E ->].
  - split; [reflexivity|]. exists tg. split.
    + destruct st1 as [p cs cu]. simpl in Hcur. subst cu. reflexivity.
    + rewrite <- (@trim_pad w5 tg w6), <- E by assumption.
      apply trim_pad; [apply (wf_ws5 Hx) | apply (wf_ws6 Hx)].
  - repeat apply no_colon_app.
    + apply all_space_no_colon, (wf_ws5 Hx).
    + apply all_not_colon, (wf_tag Hx).
    + apply all_space_no_colon, (wf_ws6 Hx).
  - repeat apply no_colon_app;
      [now apply all_space_no_colon | now apply all_not_colon
       | now apply all_space_no_colon].
Qed.

(** A line of the grammar followed by any text: the outcome is decided
    by what follows the colon. *)
Lemma exec_text_tail (x : line_parts) (z : jsstring) :
  well_formed x ->
  match exec regex (init 0) (text x ++ z) with
  | Some (st, _) =>
      forallb is_dot (trimStart (text_after_tag x ++ z)) = true /\
      exists tg, trim tg = trim (l_tag x) /\
        caps st = [date_text x; time_text x; l_pid x; l_tid x;
                   [level_char (l_level x)]; tg;
                   trimStart (text_after_tag x ++ z)]
  | None => forallb is_dot (trimStart (text_after_tag x ++ z)) = false
  end.
Proof.
  intros Hx.
  destruct (head_matches Hx) as (st1 & HM1 & Hcaps1 & Hcur1).
  destruct (tag_matches st1 Hx) as (st2 & HM2).
  apply (@Matches_frame regex_head eq_refl _ _ _ _ z) in HM1.
  apply (@Matches_frame regex_tag eq_refl _ _ _ _ z) in HM2.
  destruct (exec regex (init 0) (text x ++ z)) as [[st rest]|] eqn:E0.
  - unfold regex in E0.
    apply exec_sound in E0 as (st1' & s1' & HM1' & E).
    destruct (@det_unique _ regex_head_det _ _ _ _ _ _ HM1' HM1) as [-> ->].
    apply exec_sound in E as (st2' & s2' & HM2' & E).
    destruct (@tag_unique_tail x z st1 st2' s2' Hx Hcur1 HM2')
      as (-> & tg & Hcaps2 & Htrim).
    rewrite exec_regex_message in E.
    destruct (forallb is_dot (trimStart (text_after_tag x ++ z))); [|discriminate].
    injection E as <- _. split; [reflexivity|]. exists tg. split; [assumption|].
    unfold after_message, close, consume, open.
    cbn [cur caps pos option_map app].
    rewrite Hcaps2, Hcaps1. reflexivity.
  - destruct (forallb is_dot (trimStart (text_after_tag x ++ z))) eqn:Hdot;
      [|reflexivity].
    exfalso. revert E0. unfold regex. rewrite app_assoc.
    eapply exec_complete.
    + eapply Matches_app; [exact HM1 | exact HM2].
    + rewrite exec_regex_message, Hdot. discriminate.
Qed.

Lemma parse_text_tail (cy : N) (x : line_parts) (z : jsstring) :
  well_formed x ->
  parseLogcatLine cy (text x ++ z) =
    if forallb is_dot (trimStart (text_after_tag x ++ z))
    then Some {| timestamp := timestamp (entry_of cy x);
                 pid := pid (entry_of cy x);
                 tid := tid (entry_of cy x);
                 level := l_level x;
                 tag := trim (l_tag x);
                 message := trimStart (text_after_tag x ++ z) |}
    else None.
Proof.
  intros Hx. pose proof (@exec_text_tail x z Hx) as H.
  unfold parseLogcatLine. rewrite match_regex.
  destruct (exec regex (init 0) (text x ++ z)) as [[st rest]|].
  - destruct H as (-> & tg & Htrim & Hcaps).
    cbn [option_map fst]. rewrite Hcaps.
    rewrite level_of_level_char. unfold entry_of. cbn [timestamp pid tid].
    rewrite !parseInt_number by (apply (wf_pid Hx) || apply (wf_tid Hx)).
    now rewrite Htrim.
  - now rewrite H.
Qed.

Lemma is_dot_CR_false (s : jsstring) : forallb is_dot (s ++ [CR]) = false.
Proof. induction s as [|c s IH]; simpl; [reflexivity|]. now rewrite IH, andb_false_r. Qed.

Lemma trimStart_CR (s : jsstring) :
  trimStart (s ++ [CR]) =
    if forallb is_space s then [] else trimStart s ++ [CR].
Proof.
  unfold trimStart. induction s as [|c s IH]; simpl; [reflexivity|].
  destruct (is_space c); simpl; [exact IH | reflexivity].
Qed.

(** X15.  A line of the threadtime grammar that arrives with a carriage
    return before its newline is parsed only when its message is blank;
    with any visible character in the message the parser returns
    nothing, since the message group stops before a carriage return
    and the pattern must reach the end of the line. *)
Theorem carriage_return_line (cy : N) (x : line_parts) :
  well_formed x ->
  parseLogcatLine cy (with_CR (text x)) =
    if forallb is_space (l_message x) then Some (entry_of cy x) else None.
Proof.
  intros Hx. unfold with_CR. rewrite (@parse_text_tail cy x [CR] Hx).
  unfold entry_of. cbn [timestamp pid tid].
  unfold text_after_tag, trimStart. rewrite <- app_assoc.
  rewrite !dropWhile_all by apply (wf_ws7 Hx).
  fold (trimStart (l_message x ++ [CR])). fold (trimStart (l_message x)).
  rewrite trimStart_CR.
  destruct (forallb is_space (l_message x)) eqn:Hm.
  - cbn [forallb]. unfold trimStart.
    rewrite ?(@dropWhile_all is_space (l_ws7 x) (l_message x) (wf_ws7 Hx)).
    rewrite dropWhile_blank by now apply all_forallb. reflexivity.
  - now rewrite is_dot_CR_false.
Qed.

Lemma carriage_return_line_witness :
  well_formed colon_parts /\
  parseLogcatLine 2026 (with_CR (text colon_parts)) = None.
Proof.
  split; [exact colon_parts_well_formed|].
  exact (@carriage_return_line 2026 colon_parts colon_parts_well_formed).
Defined.

End CarriageReturn.

(** ** A device listing with carriage returns *)

Section ListingLineEndings.
Import JS Types Devices Spec Extra.

Lemma startsWith_nil (s : jsstring) : startsWith s [] = true.
Proof. now destruct s. Qed.

Lemma startsWith_pad (h : jsstring) (x : ascii) (w : jsstring) :
  ~ In x w ->
  forall l : jsstring,
  startsWith (l ++ w) (h ++ [x]) = startsWith l (h ++ [x]).
Proof.
  intros Hx l. apply eq_true_iff_eq. rewrite !startsWith_spec.
  revert l. induction h as [|y h IH]; intros l.
  - destruct l as [|c l]; simpl.
    + split; [intros [post ->]; exfalso; apply Hx; now left | intros [post H]; discriminate].
    + split; intros [post H]; injection H as -> H; eexists; reflexivity.
  - destruct l as [|c l]; simpl.
    + split; [|intros [post H]; discriminate].
      intros [post ->]. exfalso. apply Hx. right.
      rewrite <- app_assoc. apply in_or_app. right. now left.
    + specialize (IH l). split; intros [post H]; injection H as -> H.
      * destruct (proj1 IH (ex_intro _ post H)) as [post' ->]. now exists post'.
      * destruct (proj2 IH (ex_intro _ post H)) as [post' ->]. now exists post'.
Qed.

Lemma blank_not_in (x : ascii) (w : jsstring) :
  is_space x = false -> blank w -> ~ In x w.
Proof.
  intros Hx Hw H. unfold blank in Hw. rewrite Forall_forall in Hw.
  apply Hw in H. congruence.
Qed.

(** White space after a line changes nothing for the listing parser. *)
Lemma devicesOfLine_pad (line w : jsstring) :
  blank w -> devicesOfLine (line ++ w) = devicesOfLine line.
Proof.
  intros Hw. unfold devicesOfLine, parseDeviceLine.
  replace (trim (line ++ w)) with (trim line)
    by (symmetry; apply (@trim_pad [] line w); [constructor | assumption]).
  replace (str "List of devices") with (str "List of device" ++ ["s"%char])
    by reflexivity.
  rewrite (@startsWith_pad (str "List of device") "s"%char w
             (@blank_not_in "s"%char w eq_refl Hw)).
  reflexivity.
Qed.

Lemma with_CR_one_line (l : jsstring) : one_line l -> one_line (with_CR l).
Proof.
  unfold one_line, with_CR. intros H [H'|[H'|[]]]%in_app_or; [auto | discriminate].
Qed.

(** X16.  A listing whose lines end in carriage return and newline
    gives the same devices as the listing with bare newlines: the
    carriage return is white space to the line parser and cannot be
    part of the header test. *)
Theorem listing_line_endings (ls : list jsstring) :
  Forall one_line ls ->
  parseDevices (unlines (map with_CR ls)) = parseDevices (unlines ls).
Proof.
  intros Hls. unfold parseDevices.
  rewrite <- (app_nil_r (unlines (map with_CR ls))).
  rewrite <- (app_nil_r (unlines ls)).
  change "010"%char with newline.
  rewrite !split_unlines; try assumption; try (intros []).
  - rewrite !flat_map_app. f_equal.
    clear Hls. induction ls as [|l ls IH]; [reflexivity|].
    cbn [map flat_map]. rewrite IH. f_equal.
    apply devicesOfLine_pad. repeat constructor.
  - clear - Hls. induction Hls; constructor; [now apply with_CR_one_line | assumption].
Qed.

Lemma listing_line_endings_witness :
  Forall one_line [str "List of devices attached"; scenario_line; str "R58M offline"] /\
  parseDevices (unlines (map with_CR [str "List of devices attached"; scenario_line;
                                      str "R58M offline"]))
  = parseDevices (unlines [str "List of devices attached"; scenario_line;
                           str "R58M offline"]).
Proof.
  assert (H : Forall one_line [str "List of devices attached"; scenario_line;
                               str "R58M offline"]).
  { repeat constructor; vm_compute; intuition discriminate. }
  split; [exact H|]. exact (@listing_line_endings _ H).
Defined.

End ListingLineEndings.
